(** * glitch-this: a shallow embedding of [ImageGlitcher]

    The development follows [src/glitch_this/glitch_this.py].  Python
    integers are [Z]; numpy arrays are their shape together with row-major
    nested lists; the instance fields of [ImageGlitcher] are a record
    threaded through a state-and-exception monad in which the world survives
    an exception; the [random] module is a fixed source of raw draws together
    with the number of draws already made; the two float expressions of the
    source are evaluated in IEEE binary64 through the Standard Library's
    [SpecFloat].

    The model comes first, then the vocabulary of the statements and the
    sample inputs, then the results: the band selection, the framing of the
    source buffer, the rounds of the glitching loop, the band shifts row by
    row, and the channel offset. *)

From Stdlib Require Import ZArith Lia String.
From Stdlib Require Import Floats.SpecFloat.
From stdpp Require Import base list.

Local Open Scope Z_scope.

(** ** Exceptions and outcomes *)

Inductive PyError : Type :=
  | ValueError
  | IndexError
  | ZeroDivisionError
  | OverflowError
  | PyException (msg : string).

(** A pure fallible computation. *)
Inductive Result (A : Type) : Type :=
  | Good (a : A)
  | Bad (e : PyError).
Arguments Good {A} a.
Arguments Bad {A} e.

(** A run of a method ends normally or by an exception; the state of the
    world survives in both cases. *)
Inductive Outcome (S A : Type) : Type :=
  | Return (a : A) (s : S)
  | Raise (e : PyError) (s : S).
Arguments Return {S A} a s.
Arguments Raise {S A} e s.

Definition final_state {S A} (o : Outcome S A) : S :=
  match o with Return _ s => s | Raise _ s => s end.

Definition M (S A : Type) : Type := S -> Outcome S A.

Definition ret {S A} (a : A) : M S A := fun s => Return a s.

Definition bind {S A B} (c : M S A) (k : A -> M S B) : M S B :=
  fun s => match c s with
           | Return a s' => k a s'
           | Raise e s' => Raise e s'
           end.

Definition raise {S A} (e : PyError) : M S A := fun s => Raise e s.

Definition gets {S A} (f : S -> A) : M S A := fun s => Return (f s) s.

Definition modify {S} (f : S -> S) : M S unit := fun s => Return tt (f s).

Definition lift {S A} (r : Result A) : M S A :=
  match r with Good a => ret a | Bad e => raise e end.

Declare Scope py_scope.
Delimit Scope py_scope with py.
Notation "x <- c ;; k" := (bind c (fun x => k))
  (at level 100, c at next level, right associativity) : py_scope.
Notation "c ;;; k" := (bind c (fun _ => k))
  (at level 100, right associativity) : py_scope.
Local Open Scope py_scope.

(** ** The [random] module

    [source] is the raw entropy, [consumed] the number of draws made so far.
    [randint a b] raises [ValueError] on an empty range without consuming
    anything, and otherwise maps the next raw draw into [a..b], both ends
    included. *)

Record Rng : Type := { source : nat -> Z; consumed : nat }.

Definition next_draw (g : Rng) : Z := source g (consumed g).

Definition advance (g : Rng) : Rng :=
  {| source := source g; consumed := S (consumed g) |}.

Definition in_range (a b raw : Z) : Z := a + raw mod (b - a + 1).

(** ** Python slices (step 1) *)

Definition slice_bound (len b : Z) : Z :=
  if b <? 0 then Z.max 0 (b + len) else Z.min b len.

Definition slice_start (len : Z) (start : option Z) : Z :=
  match start with None => 0 | Some b => slice_bound len b end.

Definition slice_stop (len : Z) (stop : option Z) : Z :=
  match stop with None => len | Some b => slice_bound len b end.

Definition slice_len (len : Z) (start stop : option Z) : Z :=
  Z.max 0 (slice_stop len stop - slice_start len start).

Definition py_slice {A} (start stop : option Z) (l : list A) : list A :=
  let len := Z.of_nat (length l) in
  take (Z.to_nat (slice_len len start stop))
       (drop (Z.to_nat (slice_start len start)) l).

(** ** numpy arrays with two leading axes

    [nrows] and [ncols] are [shape[0]] and [shape[1]]; an element of type
    [E] is a whole pixel tuple in the 3D view and one sample in the
    flattened view. *)

Record ndarray (E : Type) : Type := { nrows : Z; ncols : Z; rows : list (list E) }.
Arguments nrows {E} _.
Arguments ncols {E} _.
Arguments rows {E} _.

Definition shaped {E} (a : ndarray E) : Prop :=
  0 <= nrows a /\ 0 <= ncols a /\
  Z.of_nat (length (rows a)) = nrows a /\
  Forall (fun r => Z.of_nat (length r) = ncols a) (rows a).

(** [a[r0:r1, c0:c1]] *)
Definition getitem_block {E} (a : ndarray E) (r0 r1 c0 c1 : option Z) : ndarray E :=
  {| nrows := slice_len (nrows a) r0 r1;
     ncols := slice_len (ncols a) c0 c1;
     rows := map (py_slice c0 c1) (py_slice r0 r1 (rows a)) |}.

(** Broadcasting of one axis of the assigned value to the extent [n] of the
    target: equal extents are taken as they are, an extent of 1 is
    repeated, anything else is a shape mismatch. *)
Definition broadcast_axis {A} (n have : Z) (l : list A) : option (list A) :=
  if have =? n then Some l
  else if have =? 1 then
    match l with
    | x :: _ => Some (replicate (Z.to_nat n) x)
    | [] => None
    end
  else None.

Definition splice {A} (start len : Z) (new old : list A) : list A :=
  take (Z.to_nat start) old ++ new ++ drop (Z.to_nat (start + len)) old.

(** [a[r0:r1, c0:c1] = v] *)
Definition setitem_block {E} (a : ndarray E) (r0 r1 c0 c1 : option Z) (v : ndarray E)
  : Result (ndarray E) :=
  let rs := slice_start (nrows a) r0 in
  let k := slice_len (nrows a) r0 r1 in
  let cs := slice_start (ncols a) c0 in
  let n := slice_len (ncols a) c0 c1 in
  match broadcast_axis k (nrows v) (rows v) with
  | None => Bad ValueError
  | Some vrows =>
    if (ncols v =? n) || (ncols v =? 1) then
      let vrows' := map (fun r => default r (broadcast_axis n (ncols v) r)) vrows in
      let band := take (Z.to_nat k) (drop (Z.to_nat rs) (rows a)) in
      Good {| nrows := nrows a; ncols := ncols a;
              rows := splice rs k (zip_with (splice cs n) vrows' band) (rows a) |}
    else Bad ValueError
  end.

(** An integer index into an axis of extent [len]: negative indices count
    from the end, anything outside [-len, len) is an [IndexError]. *)
Definition norm_index (len i : Z) : option Z :=
  if (0 <=? i) && (i <? len) then Some i
  else if (- len <=? i) && (i <? 0) then Some (i + len)
  else None.

(** [a[i, j] = x] *)
Definition setitem_at {E} (a : ndarray E) (i j : Z) (x : E) : Result (ndarray E) :=
  match norm_index (nrows a) i, norm_index (ncols a) j with
  | Some i', Some j' =>
    Good {| nrows := nrows a; ncols := ncols a;
            rows := alter (fun r => <[Z.to_nat j' := x]> r) (Z.to_nat i') (rows a) |}
  | _, _ => Bad IndexError
  end.

(** [np.ndenumerate(a)]: every index pair with its element, row-major. *)
Definition ndenumerate {E} (a : ndarray E) : list ((Z * Z) * E) :=
  concat (imap (fun i r => imap (fun j x => ((Z.of_nat i, Z.of_nat j), x)) r) (rows a)).

(** ** Python floats

    [glitch_image] and the two band shifts each evaluate one float
    expression: [int((glitch_amount ** 2 / 100) * img_width)] and
    [int(self.img_height / 4)].  They are computed here in IEEE binary64
    (53 bits of precision), rounding to nearest even as CPython does. *)

Module PyFloat.

Definition prec : Z := 53.
Definition emax : Z := 1024.

(** A Python integer as an exact (not normalised) binary number. *)
Definition exact (z : Z) : spec_float :=
  match z with
  | Z0 => S754_zero false
  | Zpos p => S754_finite false p 0
  | Zneg p => S754_finite true p 0
  end.

Definition finite_or_overflow (f : spec_float) : Result spec_float :=
  match f with
  | S754_infinity _ => Bad OverflowError
  | _ => Good f
  end.

(** The implicit conversion of an int operand: correctly rounded,
    [OverflowError] when the integer is too large for a float. *)
Definition of_int (z : Z) : Result spec_float :=
  finite_or_overflow (binary_normalize prec emax z 0 false).

(** [a / b] on two ints: the correctly rounded quotient. *)
Definition int_truediv (a b : Z) : Result spec_float :=
  if b =? 0 then Bad ZeroDivisionError
  else finite_or_overflow (SFdiv prec emax (exact a) (exact b)).

(** [x * w] for a float [x] and an int [w]. *)
Definition mul_int (x : spec_float) (w : Z) : Result spec_float :=
  match of_int w with
  | Good y => Good (SFmul prec emax x y)
  | Bad e => Bad e
  end.

(** [int(x)]: truncation towards zero. *)
Definition to_int (x : spec_float) : Result Z :=
  match x with
  | S754_zero _ => Good 0
  | S754_infinity _ => Bad OverflowError
  | S754_nan => Bad ValueError
  | S754_finite s m e =>
    let mag := if 0 <=? e then Z.pos m * 2 ^ e else Z.pos m / 2 ^ (- e) in
    Good (if s then - mag else mag)
  end.

End PyFloat.

(** [a % b] on ints *)
Definition py_mod (a b : Z) : Result Z :=
  if b =? 0 then Bad ZeroDivisionError else Good (a mod b).

(** ** The instance and the world *)

Record ImageGlitcher (E : Type) : Type := {
  img_width : Z;
  img_height : Z;
  pixel_tuple_len : Z;
  inputarr : ndarray E;
  outputarr : ndarray E
}.
Arguments img_width {E} _.
Arguments img_height {E} _.
Arguments pixel_tuple_len {E} _.
Arguments inputarr {E} _.
Arguments outputarr {E} _.

Record World (E : Type) : Type := { rng : Rng; self : ImageGlitcher E }.
Arguments rng {E} _.
Arguments self {E} _.

Definition set_outputarr {E} (a : ndarray E) (w : World E) : World E :=
  {| rng := rng w;
     self := {| img_width := img_width (self w);
                img_height := img_height (self w);
                pixel_tuple_len := pixel_tuple_len (self w);
                inputarr := inputarr (self w);
                outputarr := a |} |}.

(** [random.randint(a, b)] *)
Definition randint {E} (a b : Z) : M (World E) Z :=
  fun w =>
    if b <? a then Raise ValueError w
    else Return (in_range a b (next_draw (rng w)))
                {| rng := advance (rng w); self := self w |}.

(** [self.outputarr[r0:r1, c0:c1] = v] *)
Definition assign_block {E} (r0 r1 c0 c1 : option Z) (v : ndarray E) : M (World E) unit :=
  out <- gets (fun w => outputarr (self w)) ;;
  out' <- lift (setitem_block out r0 r1 c0 c1 v) ;;
  modify (set_outputarr out').

(** [self.outputarr[i, j] = x] *)
Definition assign_at {E} (i j : Z) (x : E) : M (World E) unit :=
  out <- gets (fun w => outputarr (self w)) ;;
  out' <- lift (setitem_at out i j x) ;;
  modify (set_outputarr out').

(** ** The band shifts *)

(** The four statements that open both shifts (lines 94-97 and 129-132):
    they draw the band and leave [start_y] and [stop_y]. *)
Definition select_band {E} : M (World E) (Z * Z) :=
  img_height <- gets (fun w => img_height (self w)) ;;
  start_y <- randint 0 img_height ;;
  quarter <- lift (PyFloat.int_truediv img_height 4) ;;
  upper <- lift (PyFloat.to_int quarter) ;;
  chunk_height <- randint 1 upper ;;
  let chunk_height := Z.min chunk_height (img_height - start_y) in
  let stop_y := start_y + chunk_height in
  ret (start_y, stop_y).

Definition glitch_left {E} (offset : Z) : M (World E) unit :=
  img_width <- gets (fun w => img_width (self w)) ;;
  inputarr <- gets (fun w => inputarr (self w)) ;;
  (* Setting up values that will determine the rectangle height *)
  band <- select_band ;;
  let '(start_y, stop_y) := band in
  (* For copy *)
  let start_x := offset in
  (* For paste *)
  let stop_x := img_width - start_x in
  let left_chunk := getitem_block inputarr (Some start_y) (Some stop_y) (Some start_x) None in
  let wrap_chunk := getitem_block inputarr (Some start_y) (Some stop_y) None (Some start_x) in
  assign_block (Some start_y) (Some stop_y) None (Some stop_x) left_chunk ;;;
  assign_block (Some start_y) (Some stop_y) (Some stop_x) None wrap_chunk.

Definition glitch_right {E} (offset : Z) : M (World E) unit :=
  img_width <- gets (fun w => img_width (self w)) ;;
  inputarr <- gets (fun w => inputarr (self w)) ;;
  (* Setting up values that will determine the rectangle height *)
  band <- select_band ;;
  let '(start_y, stop_y) := band in
  (* For copy *)
  let stop_x := img_width - offset in
  (* For paste *)
  let start_x := offset in
  let right_chunk := getitem_block inputarr (Some start_y) (Some stop_y) None (Some stop_x) in
  let wrap_chunk := getitem_block inputarr (Some start_y) (Some stop_y) (Some stop_x) None in
  assign_block (Some start_y) (Some stop_y) (Some start_x) None right_chunk ;;;
  assign_block (Some start_y) (Some stop_y) None (Some start_x) wrap_chunk.

(** ** The channel offset *)

(** A [for] loop whose body may rebind local variables [L]. *)
Fixpoint for_each {S A L} (items : list A) (body : A -> L -> M S L) (locals : L) : M S L :=
  match items with
  | [] => ret locals
  | item :: rest => locals' <- body item locals ;; for_each rest body locals'
  end.

(** One round of the loop of [color_offset]; the locals are
    [(offset_y, offset_x)], which the body rebinds when a destination index
    would run past the end of its axis. *)
Definition color_offset_body (channel_index : Z) (item : (Z * Z) * Z) (locals : Z * Z)
  : M (World Z) (Z * Z) :=
  let '((index0, index1), x) := item in
  let '(offset_y, offset_x) := locals in
  pixel_tuple_len <- gets (fun w => pixel_tuple_len (self w)) ;;
  slot <- lift (py_mod index1 pixel_tuple_len) ;;
  if negb (slot =? 0) then ret (offset_y, offset_x)
  else
    img_height <- gets (fun w => img_height (self w)) ;;
    img_width <- gets (fun w => img_width (self w)) ;;
    let offset_y := if img_height <=? offset_y + index0 then - index0 else offset_y in
    let offset_x :=
      if img_width * pixel_tuple_len <=? offset_x + index1
      then - index1 + channel_index else offset_x in
    assign_at (offset_y + index0) (offset_x + index1) x ;;;
    ret (offset_y, offset_x).

Definition color_offset (offset_x offset_y channel_index : Z) : M (World Z) unit :=
  pixel_tuple_len <- gets (fun w => pixel_tuple_len (self w)) ;;
  let offset_x :=
    if negb (offset_x =? 0) then offset_x * pixel_tuple_len + channel_index
    else channel_index in
  inputarr <- gets (fun w => inputarr (self w)) ;;
  for_each (ndenumerate inputarr) (color_offset_body channel_index) (offset_y, offset_x) ;;;
  ret tt.

Definition get_random_channel {E} : M (World E) Z :=
  pixel_tuple_len <- gets (fun w => pixel_tuple_len (self w)) ;;
  randint 0 (pixel_tuple_len - 1).

(** ** The orchestrator *)

(** What [Image.open] yields: the size, the band names, the mode and the
    decoded samples, one tuple per pixel (for a single-band image numpy
    drops the last axis; a tuple of length one stands for the bare sample). *)
Record Image : Type := {
  size : Z * Z;
  getbands : list string;
  mode : string;
  pixels : list (list (list Z))
}.

(** What is found at [src_img_path]. *)
Inductive PathContent : Type :=
  | NoSuchPath
  | NotAnImage
  | ImageFile (img : Image).

(** [int((glitch_amount ** 2 / 100) * img_width)] *)
Definition max_offset_of (glitch_amount img_width : Z) : Result Z :=
  match PyFloat.int_truediv (glitch_amount ^ 2) 100 with
  | Bad e => Bad e
  | Good ratio =>
    match PyFloat.mul_int ratio img_width with
    | Bad e => Bad e
    | Good scaled => PyFloat.to_int scaled
    end
  end.

(** One round of the glitching loop, with the two shifts it may call. *)
Definition glitch_round_with {E} (shift_left shift_right : Z -> M (World E) unit)
    (max_offset : Z) : M (World E) unit :=
  current_offset <- randint 0 max_offset ;;
  if current_offset =? 0 then ret tt
  else if current_offset <? 0 then shift_left (- current_offset)
  else shift_right current_offset.

Fixpoint repeat_rounds {S} (n : nat) (round : M S unit) : M S unit :=
  match n with
  | O => ret tt
  | S n' => round ;;; repeat_rounds n' round
  end.

(** [for _ in range(0, glitch_amount * 2): ...] *)
Definition glitching_with {E} (shift_left shift_right : Z -> M (World E) unit)
    (glitch_amount max_offset : Z) : M (World E) unit :=
  repeat_rounds (Z.to_nat (glitch_amount * 2))
                (glitch_round_with shift_left shift_right max_offset).

Definition glitching {E} (glitch_amount max_offset : Z) : M (World E) unit :=
  glitching_with glitch_left glitch_right glitch_amount max_offset.

(** [k] consecutive chunks of [n] elements each. *)
Fixpoint chunks {A} (k n : nat) (l : list A) : list (list A) :=
  match k with
  | O => []
  | S k' => take n l :: chunks k' n (drop n l)
  end.

(** [a.reshape(img_height, -1)] on the 3D view. *)
Definition reshape_flat (img_height : Z) (a : ndarray (list Z)) : Result (ndarray Z) :=
  let flat := concat (concat (rows a)) in
  let total := Z.of_nat (length flat) in
  if (img_height <=? 0) || negb (total mod img_height =? 0) then Bad ValueError
  else
    let width := total / img_height in
    Good {| nrows := img_height; ncols := width;
            rows := chunks (Z.to_nat img_height) (Z.to_nat width) flat |}.

(** [np.reshape(a, (img_height, img_width, pixel_tuple_len))] on the
    flattened view. *)
Definition reshape_pixels (img_height img_width pixel_tuple_len : Z) (a : ndarray Z)
  : Result (ndarray (list Z)) :=
  let flat := concat (rows a) in
  if Z.of_nat (length flat) =? img_height * img_width * pixel_tuple_len then
    Good {| nrows := img_height; ncols := img_width;
            rows := map (chunks (Z.to_nat img_width) (Z.to_nat pixel_tuple_len))
                        (chunks (Z.to_nat img_height)
                                (Z.to_nat (img_width * pixel_tuple_len)) flat) |}
  else Bad ValueError.

(** Lines 60-61: both arrays are replaced by their flattened views. *)
Definition flatten_world (w : World (list Z)) : Result (World Z) :=
  match reshape_flat (img_height (self w)) (inputarr (self w)) with
  | Bad e => Bad e
  | Good input2 =>
    match reshape_flat (img_height (self w)) (outputarr (self w)) with
    | Bad e => Bad e
    | Good output2 =>
      Good {| rng := rng w;
              self := {| img_width := img_width (self w);
                         img_height := img_height (self w);
                         pixel_tuple_len := pixel_tuple_len (self w);
                         inputarr := input2;
                         outputarr := output2 |} |}
    end
  end.

(** Line 65: the arguments are drawn left to right, then the call. *)
Definition channel_pass (glitch_amount : Z) : M (World Z) unit :=
  offset_x <- randint (- glitch_amount * 2) (glitch_amount * 2) ;;
  offset_y <- randint (- glitch_amount * 2) (glitch_amount * 2) ;;
  channel_index <- get_random_channel ;;
  color_offset offset_x offset_y channel_index.

(** [Image.fromarray(obj, mode)] on an array of three axes, as line 71
    calls it.  The modes of a single plane take an array of at most two
    axes, and [fromarray] raises [ValueError] ("Too many dimensions") for
    them; for every other mode the image is built from the array as it is:
    its size is the second and the first extent, its samples are the
    array's.  [bands] stands for the bands of [mode], which the library
    reads off the mode. *)
Definition single_plane_modes : list string :=
  ["1"%string; "L"%string; "I"%string; "P"%string; "F"%string].

Definition single_plane (mode : string) : bool :=
  existsb (String.eqb mode) single_plane_modes.

Definition fromarray (bands : list string) (obj : ndarray (list Z)) (mode : string)
  : Result Image :=
  if single_plane mode then Bad ValueError
  else Good {| size := (ncols obj, nrows obj); getbands := bands;
               mode := mode; pixels := rows obj |}.

(** [glitch_image], with the two shifts it dispatches to left open. *)
Definition glitch_image_with (shift_left shift_right : Z -> M (World (list Z)) unit)
    (src : PathContent) (glitch_amount : Z) (g : Rng) : Result Image :=
  (* Sanity checking the inputs *)
  if negb ((1 <=? glitch_amount) && (glitch_amount <=? 10)) then
    Bad (PyException "glitch_amount parameter must be in range 1 to 10, inclusive")
  else
  match src with
  | NoSuchPath => Bad (PyException "No image found at given path")
  | NotAnImage => Bad (PyException "File format not supported - must be an image file")
  | ImageFile src_img =>
    (* Fetching image attributes *)
    let pixel_tuple_len := Z.of_nat (length (getbands src_img)) in
    let '(img_width, img_height) := size src_img in
    let img_mode := mode src_img in
    (* Creating 3D arrays with pixel data *)
    let arr := {| nrows := img_height; ncols := img_width; rows := pixels src_img |} in
    let w0 := {| rng := g;
                 self := {| img_width := img_width; img_height := img_height;
                            pixel_tuple_len := pixel_tuple_len;
                            inputarr := arr; outputarr := arr |} |} in
    (* Glitching begins here *)
    match max_offset_of glitch_amount img_width with
    | Bad e => Bad e
    | Good max_offset =>
      match glitching_with shift_left shift_right glitch_amount max_offset w0 with
      | Raise e _ => Bad e
      | Return _ w1 =>
        match flatten_world w1 with
        | Bad e => Bad e
        | Good w2 =>
          match channel_pass glitch_amount w2 with
          | Raise e _ => Bad e
          | Return _ w3 =>
            match reshape_pixels img_height img_width pixel_tuple_len
                                 (outputarr (self w3)) with
            | Bad e => Bad e
            | Good out3 =>
              (* Creating glitched image from output array *)
              fromarray (getbands src_img) out3 img_mode
            end
          end
        end
      end
    end
  end.

Definition glitch_image (src : PathContent) (glitch_amount : Z) (g : Rng) : Result Image :=
  glitch_image_with glitch_left glitch_right src glitch_amount g.

(** ** Vocabulary of the statements *)

(** The world after one draw. *)
Definition drawn {E} (w : World E) : World E :=
  {| rng := advance (rng w); self := self w |}.

(** The band a shift selects in world [w]: first row, drawn height, and the
    row after the last one once the height is clamped. *)
Definition band_start {E} (w : World E) : Z :=
  in_range 0 (img_height (self w)) (next_draw (rng w)).

Definition band_chunk {E} (w : World E) : Z :=
  in_range 1 (img_height (self w) / 4) (next_draw (advance (rng w))).

Definition band_stop {E} (w : World E) : Z :=
  band_start w + Z.min (band_chunk w) (img_height (self w) - band_start w).

Definition in_band {E} (w : World E) (r : nat) : bool :=
  (band_start w <=? Z.of_nat r) && (Z.of_nat r <? band_stop w).

(** Both arrays have the shape the instance fields announce. *)
Definition well_formed {E} (w : World E) : Prop :=
  shaped (inputarr (self w)) /\ shaped (outputarr (self w)) /\
  nrows (inputarr (self w)) = img_height (self w) /\
  nrows (outputarr (self w)) = img_height (self w) /\
  ncols (inputarr (self w)) = img_width (self w) /\
  ncols (outputarr (self w)) = img_width (self w).

(** A computation frames the source when, however it ends, the input array
    and the three size fields are what they were. *)
Definition same_source {E} (w w' : World E) : Prop :=
  inputarr (self w') = inputarr (self w) /\
  img_width (self w') = img_width (self w) /\
  img_height (self w') = img_height (self w) /\
  pixel_tuple_len (self w') = pixel_tuple_len (self w).

Definition frames {E A} (c : M (World E) A) : Prop :=
  forall w, same_source w (final_state (c w)).

(** [int(self.img_height / 4)] as one value. *)
Definition quarter (h : Z) : Result Z :=
  match PyFloat.int_truediv h 4 with
  | Good f => PyFloat.to_int f
  | Bad e => Bad e
  end.

(** A float that is not below zero (or is not a number). *)
Definition is_nonneg (f : spec_float) : Prop :=
  match f with
  | S754_zero s | S754_infinity s | S754_finite s _ _ => s = false
  | S754_nan => True
  end.

(** ** Sample worlds

    [fresh_world] is the world [glitch_image] starts from: both arrays hold
    the decoded data.  The two sample arrays are the ones drawn in the
    docstrings of the source. *)

Definition fresh_world {E} (g : Rng) (width height tuple_len : Z) (data : list (list E))
  : World E :=
  let arr := {| nrows := height; ncols := width; rows := data |} in
  {| rng := g;
     self := {| img_width := width; img_height := height; pixel_tuple_len := tuple_len;
                inputarr := arr; outputarr := arr |} |}.

Definition constant_rng (raw : Z) : Rng := {| source := fun _ => raw; consumed := 0 |}.

(** The 4x4 array of the docstrings of [glitch_left] and [glitch_right]. *)
Definition docstring_rows : list (list Z) :=
  [[0; 1; 2; 3]; [4; 5; 6; 7]; [8; 9; 10; 11]; [12; 13; 14; 15]].

Definition docstring_world (raw : Z) : World Z :=
  fresh_world (constant_rng raw) 4 4 1 docstring_rows.

(** The flattened 4x3 RGB array of the docstring of [color_offset]. *)
Definition rgb_rows : list (list Z) :=
  [[0; 1; 2; 3; 4; 5; 6; 7; 8]; [9; 10; 11; 12; 13; 14; 15; 16; 17];
   [18; 19; 20; 21; 22; 23; 24; 25; 26]; [27; 28; 29; 30; 31; 32; 33; 34; 35]].

Definition rgb_array : ndarray Z := {| nrows := 4; ncols := 9; rows := rgb_rows |}.

Definition rgb_world : World Z :=
  {| rng := constant_rng 0;
     self := {| img_width := 3; img_height := 4; pixel_tuple_len := 3;
                inputarr := rgb_array; outputarr := rgb_array |} |}.

(** A single grey pixel: the smallest image a file can hold. *)
Definition tiny_image : Image :=
  {| size := (1, 1); getbands := ["L"%string]; mode := "L"; pixels := [[[7]]] |}.

(** A row moved right by [offset] columns, and left by [offset] columns,
    with the columns that fall off one edge entering at the other. *)
Definition rotate_right {A} (width offset : Z) (row : list A) : list A :=
  drop (Z.to_nat (width - offset)) row ++ take (Z.to_nat (width - offset)) row.

Definition rotate_left {A} (offset : Z) (row : list A) : list A :=
  drop (Z.to_nat offset) row ++ take (Z.to_nat offset) row.

(** The array of the docstring of [color_offset] as a decoded RGB image,
    3 pixels wide and 4 high. *)
Definition rgb_image : Image :=
  {| size := (3, 4);
     getbands := ["R"%string; "G"%string; "B"%string];
     mode := "RGB";
     pixels := [[[0; 1; 2]; [3; 4; 5]; [6; 7; 8]];
                [[9; 10; 11]; [12; 13; 14]; [15; 16; 17]];
                [[18; 19; 20]; [21; 22; 23]; [24; 25; 26]];
                [[27; 28; 29]; [30; 31; 32]; [33; 34; 35]]] |}.

(** The 4x4 array of the docstrings of the two shifts as a decoded
    greyscale image. *)
Definition grey_image : Image :=
  {| size := (4, 4);
     getbands := ["L"%string];
     mode := "L";
     pixels := map (map (fun v => [v])) docstring_rows |}.

(** ** Vocabulary of the channel offset *)

(** The sample at row [r] and flat column [c] of a flattened array. *)
Definition sample (a : ndarray Z) (r c : Z) : option Z :=
  match rows a !! Z.to_nat r with
  | Some row => row !! Z.to_nat c
  | None => None
  end.

(** A flattened array of [height] rows of [flat_width] samples. *)
Definition flat_shape (height flat_width : Z) (a : ndarray Z) : Prop :=
  shaped a /\ nrows a = height /\ ncols a = flat_width.

(** The flattened world the channel pass starts from. *)
Definition flat_well_formed (w : World Z) : Prop :=
  1 <= pixel_tuple_len (self w) /\
  flat_shape (img_height (self w)) (img_width (self w) * pixel_tuple_len (self w))
             (inputarr (self w)) /\
  flat_shape (img_height (self w)) (img_width (self w) * pixel_tuple_len (self w))
             (outputarr (self w)).

(** What the loop of [color_offset] maintains on its two locals.  Before a
    sample of row [i] is looked at, [offset_y] is the initial offset up to a
    multiple of the height and [offset_y + i] cannot be more than one step
    past the last row (not even that once a sample of the row has been
    written); [offset_x] is the initial flat offset up to a multiple of the
    flat width and, [m] being the pixel of the next sample to be written,
    [offset_x + m * tuple_len] is no further than [channel_index] past the
    last column. *)
Definition row_ok (height offset_y0 i : Z) (started : bool) (offset_y : Z) : Prop :=
  (exists k, offset_y = offset_y0 + k * height) /\
  - height <= offset_y + i /\
  offset_y + i <= (if started then height - 1 else height).

Definition col_ok (flat_width tuple_len channel_index offset_x0 m offset_x : Z) : Prop :=
  (exists k, offset_x = offset_x0 + k * flat_width) /\
  - flat_width <= offset_x /\
  offset_x + m * tuple_len <= flat_width + channel_index.

(** The samples of row [i] from column [j0] on, as [np.ndenumerate] yields
    them. *)
Definition enum_row (i j0 : Z) (r : list Z) : list ((Z * Z) * Z) :=
  imap (fun j x => ((i, j0 + Z.of_nat j), x)) r.

Definition enum_rows (i0 : Z) (l : list (list Z)) : list ((Z * Z) * Z) :=
  concat (imap (fun i r => enum_row (i0 + Z.of_nat i) 0 r) l).

(** What the destination holds while the loop of [color_offset] runs: the
    first-slot samples met before position [(i, j)] of the row-major order
    are at their wrapped places, and no slot of another channel than
    [channel_index] has changed. *)
Definition moved_before (w : World Z) (offset_y0 offset_x0 i j : Z) (a : ndarray Z) : Prop :=
  forall i' j',
    0 <= i' < img_height (self w) ->
    0 <= j' < img_width (self w) * pixel_tuple_len (self w) ->
    j' mod pixel_tuple_len (self w) = 0 ->
    i' < i \/ (i' = i /\ j' < j) ->
    sample a ((i' + offset_y0) mod img_height (self w))
             ((j' + offset_x0) mod (img_width (self w) * pixel_tuple_len (self w)))
    = sample (inputarr (self w)) i' j'.

Definition others_kept (w : World Z) (channel_index : Z) (a : ndarray Z) : Prop :=
  forall r c,
    0 <= r < img_height (self w) ->
    0 <= c < img_width (self w) * pixel_tuple_len (self w) ->
    c mod pixel_tuple_len (self w) <> channel_index ->
    sample a r c = sample (outputarr (self w)) r c.

(** ** Vocabulary of the rounding bound

    [shr_inv m0 scale mrs]: the record [mrs] holds [m0] shifted right by the
    bits that [scale] counts, never more than [m0] once scaled back, and
    strictly less as soon as one of its two flags records a lost bit. *)
Definition shr_inv (m0 scale : Z) (mrs : shr_record) : Prop :=
  0 <= shr_m mrs /\
  shr_m mrs * scale <= m0 /\
  (orb (shr_r mrs) (shr_s mrs) = true -> shr_m mrs * scale < m0).

(** A float that is finite, not negative and, its exponent being at most 0,
    no larger than the integer [n]. *)
Definition at_most (n : Z) (f : spec_float) : Prop :=
  f = S754_zero false \/
  exists m e, f = S754_finite false m e /\ e <= 0 /\ Z.pos m <= n * 2 ^ (- e).

(** ** Vocabulary of the whole run *)

(** Every output row is the source row of the same index, rotated. *)
Definition rows_rotated {E} (w : World E) : Prop :=
  forall (i : nat) (orow : list E),
    rows (outputarr (self w)) !! i = Some orow ->
    exists src offset,
      rows (inputarr (self w)) !! i = Some src /\
      0 <= offset <= img_width (self w) /\
      orow = rotate_right (img_width (self w)) offset src.

(** A 3D array of [height] rows of [width] pixel tuples of [tuple_len]
    samples each. *)
Definition pixel_shape (height width tuple_len : Z) (a : ndarray (list Z)) : Prop :=
  shaped a /\ nrows a = height /\ ncols a = width /\
  Forall (Forall (fun p => Z.of_nat (length p) = tuple_len)) (rows a).

(** An image as a decoder hands it over: the pixel data has the announced
    size and one sample per band in every tuple, and there is a band. *)
Definition decoded (img : Image) : Prop :=
  (1 <= length (getbands img))%nat /\
  pixel_shape (snd (size img)) (fst (size img)) (Z.of_nat (length (getbands img)))
              {| nrows := snd (size img); ncols := fst (size img); rows := pixels img |}.

(** The world of a second call on what a first call wrote: the output of
    [w] is the new source, and the draws start again from [g]. *)
Definition fed_back {E} (g : Rng) (w : World E) : World E :=
  {| rng := g;
     self := {| img_width := img_width (self w);
                img_height := img_height (self w);
                pixel_tuple_len := pixel_tuple_len (self w);
                inputarr := outputarr (self w);
                outputarr := outputarr (self w) |} |}.

(** The three values line 65 draws in world [w], in the order of the
    arguments: [offset_x], [offset_y], then the channel. *)
Definition drawn_offset_x (glitch_amount : Z) (w : World Z) : Z :=
  in_range (- glitch_amount * 2) (glitch_amount * 2) (next_draw (rng w)).

Definition drawn_offset_y (glitch_amount : Z) (w : World Z) : Z :=
  in_range (- glitch_amount * 2) (glitch_amount * 2) (next_draw (rng (drawn w))).

Definition drawn_channel (w : World Z) : Z :=
  in_range 0 (pixel_tuple_len (self w) - 1) (next_draw (rng (drawn (drawn w)))).

(** Every sample of [after] is the sample [before] has at the same place
    or a sample of [src]. *)
Definition kept_or_from (src before after : ndarray Z) : Prop :=
  forall r c,
    sample after r c = sample before r c \/
    exists r0 c0 v, sample src r0 c0 = Some v /\ sample after r c = Some v.

(** ** Binary64 facts *)

(** Shape conditions on a concrete world, by evaluation. *)
Ltac evaluate_shape :=
  unfold well_formed, flat_well_formed, flat_shape, shaped; cbn;
  repeat split; try lia; repeat constructor.


Lemma digits2_pos_size p : digits2_pos p = Pos.size p.
Proof. induction p; simpl; congruence. Qed.

Lemma digits2_pos_lt p n : 0 <= n -> Z.pos p < 2 ^ n -> Z.pos (digits2_pos p) <= n.
Proof.
  intros Hn Hp. rewrite digits2_pos_size.
  destruct (Z_le_gt_dec (Z.pos (Pos.size p)) n) as [|Hgt]; [assumption|exfalso].
  pose proof (Pos.size_le p) as Hle.
  assert (2 ^ Z.pos (Pos.size p) <= 2 * Z.pos p) as H2.
  { rewrite <- Pos2Z.inj_pow. change (2 * Z.pos p) with (Z.pos p~0). lia. }
  assert (2 ^ (n + 1) <= 2 ^ Z.pos (Pos.size p)) by (apply Z.pow_le_mono_r; lia).
  rewrite Z.pow_add_r in * by lia. lia.
Qed.

Lemma digits2_pos_shiftl p n :
  digits2_pos (Pos.shiftl_nat p n) = (digits2_pos p + Pos.of_succ_nat n - 1)%positive.
Proof.
  induction n as [|n IH]; simpl.
  - lia.
  - rewrite IH. lia.
Qed.

Lemma pos_shiftl_nat_Z p n : Z.pos (Pos.shiftl_nat p n) = Z.pos p * 2 ^ Z.of_nat n.
Proof.
  induction n as [|n IH].
  - simpl. lia.
  - rewrite Nat2Z.inj_succ, Z.pow_succ_r by lia. simpl. rewrite Pos2Z.inj_xO, IH. lia.
Qed.

Lemma div_eucl_pair a b : Z.div_eucl a b = (a / b, a mod b).
Proof. unfold Z.div, Z.modulo. destruct (Z.div_eucl a b); reflexivity. Qed.

(** Rounding an even 54-bit mantissa drops its last bit and nothing else. *)
Lemma round_aux_even (pk : positive) (e : Z) :
  Z.pos (digits2_pos pk) = 53 -> -1074 <= e + 1 <= 971 ->
  binary_round_aux 53 1024 false (Z.pos pk~0) e loc_Exact = S754_finite false pk (e + 1).
Proof.
  intros Hd He. unfold binary_round_aux, shr_fexp, fexp, emin.
  cbn [Zdigits2 digits2_pos shr_record_of_loc].
  rewrite Pos2Z.inj_succ, Hd.
  replace (Z.max (Z.succ 53 + e - 53) (3 - 1024 - 53) - e) with 1 by lia.
  cbn [shr SpecFloat.iter_pos shr_1 orb shr_m loc_of_shr_record round_nearest_even].
  cbn [Zdigits2]. rewrite Hd.
  replace (Z.max (53 + (e + 1) - 53) (3 - 1024 - 53) - (e + 1)) with 0 by lia.
  cbn [shr shr_m].
  destruct (Z.leb_spec (e + 1) (1024 - 53)); [reflexivity | lia].
Qed.

(** Dividing an integer below [2^53] by 4 is exact: [pk] is the dividend
    shifted up to 53 bits. *)
Lemma div_core_by_4 (p pk : positive) :
  let d := Z.pos (digits2_pos p) in
  d <= 53 -> Z.pos pk = Z.pos p * 2 ^ (53 - d) ->
  SFdiv_core_binary 53 1024 (Z.pos p) 0 4 0 = (Z.pos pk~0, d - 56, loc_Exact).
Proof.
  intros d Hd Hpk. unfold SFdiv_core_binary, fexp, emin.
  cbn [Zdigits2 digits2_pos]. fold d.
  assert (Hd1 : 1 <= d) by (unfold d; lia).
  change (Z.pos (Pos.succ (Pos.succ 1))) with 3.
  replace (Z.min (Z.max (d + 0 - (3 + 0) - 53) (3 - 1024 - 53)) (0 - 0)) with (d - 56) by lia.
  replace (0 - 0 - (d - 56)) with (56 - d) by lia.
  assert (Hm : Z.shiftl (Z.pos p) (56 - d) = 4 * Z.pos pk~0).
  { rewrite Z.shiftl_mul_pow2 by lia. rewrite (Pos2Z.inj_xO pk), Hpk.
    replace (56 - d) with ((53 - d) + 3) by lia.
    rewrite Z.pow_add_r by lia. change (2 ^ 3) with 8. lia. }
  destruct (56 - d) as [|s|s] eqn:Hs; [lia| |lia].
  rewrite Hm, div_eucl_pair.
  replace (4 * Z.pos pk~0 / 4) with (Z.pos pk~0) by (rewrite Z.mul_comm, Z.div_mul; lia).
  replace ((4 * Z.pos pk~0) mod 4) with 0 by (rewrite Z.mul_comm, Z.mod_mul; lia).
  reflexivity.
Qed.

(** For every height an image can have, [int(img_height / 4)] is the floor
    of the quotient. *)
Lemma quarter_exact h : 0 <= h < 2 ^ 53 -> quarter h = Good (h / 4).
Proof.
  intros [Hlo Hhi]. destruct h as [|p|p]; [reflexivity| |lia].
  pose proof (digits2_pos_lt p 53 ltac:(lia) Hhi) as Hd.
  set (d := Z.pos (digits2_pos p)) in *.
  set (k := Z.to_nat (53 - d)).
  set (pk := Pos.shiftl_nat p k).
  assert (Hpk : Z.pos pk = Z.pos p * 2 ^ (53 - d)).
  { unfold pk. rewrite pos_shiftl_nat_Z. unfold k. rewrite Z2Nat.id by lia. reflexivity. }
  assert (Hdk : Z.pos (digits2_pos pk) = 53).
  { unfold pk. rewrite digits2_pos_shiftl. unfold k. fold d. lia. }
  unfold quarter, PyFloat.int_truediv. simpl (4 =? 0). cbv iota.
  unfold PyFloat.exact, SFdiv.
  change PyFloat.prec with 53. change PyFloat.emax with 1024.
  rewrite (div_core_by_4 p pk Hd Hpk). fold d.
  cbn [xorb]. rewrite round_aux_even by (try assumption; lia).
  cbn [PyFloat.finite_or_overflow PyFloat.to_int].
  destruct (Z.leb_spec 0 (d - 56 + 1)) as [|_]; [lia|].
  f_equal. rewrite Hpk.
  replace (- (d - 56 + 1)) with ((53 - d) + 2) by lia.
  rewrite Z.pow_add_r by lia. change (2 ^ 2) with 4.
  rewrite Z.mul_comm, Z.div_mul_cancel_l by lia. reflexivity.
Qed.

(** ** Draws *)

Lemma in_range_bounds a b raw : a <= b -> a <= in_range a b raw <= b.
Proof.
  intros Hab. unfold in_range.
  pose proof (Z.mod_pos_bound raw (b - a + 1) ltac:(lia)). lia.
Qed.

Lemma in_range_attained a b v : a <= v <= b -> in_range a b (v - a) = v.
Proof. intros Hv. unfold in_range. rewrite Z.mod_small by lia. lia. Qed.

Lemma randint_run {E} a b (w : World E) :
  a <= b -> randint a b w = Return (in_range a b (next_draw (rng w))) (drawn w).
Proof.
  intros Hab. unfold randint. destruct (Z.ltb_spec b a); [lia | reflexivity].
Qed.

Lemma randint_empty {E} a b (w : World E) : b < a -> randint a b w = Raise ValueError w.
Proof.
  intros Hab. unfold randint. destruct (Z.ltb_spec b a); [reflexivity | lia].
Qed.

Lemma randint_inv {E} a b (w w' : World E) d :
  randint a b w = Return d w' ->
  a <= d <= b /\ d = in_range a b (next_draw (rng w)) /\ w' = drawn w.
Proof.
  unfold randint. destruct (Z.ltb_spec b a) as [|Hab]; [discriminate|].
  intros [= <- <-]. split; [apply in_range_bounds; assumption | split; reflexivity].
Qed.

(** ** The band selection *)

Lemma select_band_run {E} (w : World E) :
  4 <= img_height (self w) < 2 ^ 53 ->
  select_band w = Return (band_start w, band_stop w) (drawn (drawn w)).
Proof.
  intros Hh. pose proof (quarter_exact (img_height (self w)) ltac:(lia)) as Hq.
  assert (1 <= img_height (self w) / 4) by (apply Z.div_le_lower_bound; lia).
  unfold select_band, bind, gets.
  rewrite randint_run by lia. unfold quarter in Hq.
  destruct (PyFloat.int_truediv (img_height (self w)) 4) as [f|e]; [|discriminate].
  cbn [lift ret]. rewrite Hq. cbn [lift ret].
  rewrite randint_run by (cbn; lia). reflexivity.
Qed.

Lemma select_band_small {E} (w : World E) :
  1 <= img_height (self w) <= 3 ->
  select_band w = Raise ValueError (drawn w).
Proof.
  intros Hh. pose proof (quarter_exact (img_height (self w)) ltac:(lia)) as Hq.
  assert (Hz : img_height (self w) / 4 = 0) by (apply Z.div_small; lia).
  rewrite Hz in Hq.
  unfold select_band, bind, gets.
  rewrite randint_run by lia. unfold quarter in Hq.
  destruct (PyFloat.int_truediv (img_height (self w)) 4) as [f|e]; [|discriminate].
  cbn [lift ret]. rewrite Hq. cbn [lift ret].
  rewrite randint_empty by lia. reflexivity.
Qed.

Lemma band_bounds {E} (w : World E) :
  4 <= img_height (self w) ->
  0 <= band_start w <= img_height (self w) /\
  1 <= band_chunk w <= img_height (self w) / 4 /\
  band_start w <= band_stop w <= img_height (self w).
Proof.
  intros Hh.
  assert (1 <= img_height (self w) / 4) by (apply Z.div_le_lower_bound; lia).
  pose proof (in_range_bounds 0 (img_height (self w)) (next_draw (rng w)) ltac:(lia)).
  pose proof (in_range_bounds 1 (img_height (self w) / 4)
                (next_draw (advance (rng w))) ltac:(lia)).
  unfold band_stop. fold (band_start w) in *. fold (band_chunk w) in *. lia.
Qed.

(** X7.  The ranges of the band selection.  On every image of height at least 4
    it returns normally; the first row is drawn from [0, height] with
    [height] itself included, the band height from [1, floor(height / 4)],
    every value of either range being reachable, and the height is then
    clamped so that the band ends at [height] at the latest. *)
Theorem band_selection_range {E} (me : ImageGlitcher E) :
  4 <= img_height me < 2 ^ 53 ->
  (forall g, exists start_y chunk_height,
      select_band {| rng := g; self := me |} =
        Return (start_y, start_y + Z.min chunk_height (img_height me - start_y))
               {| rng := advance (advance g); self := me |} /\
      0 <= start_y <= img_height me /\
      1 <= chunk_height <= img_height me / 4 /\
      start_y + Z.min chunk_height (img_height me - start_y) <= img_height me) /\
  (forall start_y chunk_height,
      0 <= start_y <= img_height me ->
      1 <= chunk_height <= img_height me / 4 ->
      exists g,
        select_band {| rng := g; self := me |} =
          Return (start_y, start_y + Z.min chunk_height (img_height me - start_y))
                 {| rng := advance (advance g); self := me |}).
Proof.
  intros Hh. split.
  - intros g. set (w := {| rng := g; self := me |}).
    exists (band_start w), (band_chunk w).
    pose proof (band_bounds w ltac:(cbn; lia)) as (Hs & Hc & He).
    split; [apply (select_band_run w); cbn; lia|].
    unfold band_stop in He. cbn [self w] in *. repeat split; lia.
  - intros start_y chunk_height Hs Hc.
    exists {| source := fun n => match n with O => start_y | _ => chunk_height - 1 end;
              consumed := 0 |}.
    rewrite select_band_run by (cbn; lia).
    unfold band_stop, band_start, band_chunk, drawn, next_draw. cbn.
    assert (H1 : in_range 0 (img_height me) start_y = start_y).
    { replace start_y with (start_y - 0) at 1 by lia. apply in_range_attained. lia. }
    rewrite H1, (in_range_attained 1 (img_height me / 4) chunk_height Hc).
    reflexivity.
Qed.

Lemma band_selection_range_witness :
  exists start_y chunk_height,
    select_band (docstring_world 0) =
      Return (start_y, start_y + Z.min chunk_height (4 - start_y))
             (drawn (drawn (docstring_world 0))) /\
    0 <= start_y <= 4 /\ 1 <= chunk_height <= 1 /\
    start_y + Z.min chunk_height (4 - start_y) <= 4.
Proof.
  exact (proj1 (band_selection_range (self (docstring_world 0))
                  (conj (proj1 (Z.leb_le 4 4) eq_refl) (proj1 (Z.ltb_lt 4 (2 ^ 53)) eq_refl)))
               (constant_rng 0)).
Defined.

(** C5 at a draw of [height]: on the 4-row docstring array the band
    selection returns first row 4, which is [height] itself and no row of the
    image; the band is clamped to no rows and the shift writes nothing. *)
Example band_drawn_at_height :
  img_height (self (docstring_world 4)) = 4 /\
  select_band (docstring_world 4) = Return (4, 4) (drawn (drawn (docstring_world 4))) /\
  glitch_right 1 (docstring_world 4) = Return tt (drawn (drawn (docstring_world 4))).
Proof. repeat split; vm_compute; reflexivity. Qed.

(** ** Framing of the source *)

Create HintDb frames.

Lemma same_source_refl {E} (w : World E) : same_source w w.
Proof. repeat split. Qed.

Lemma same_source_trans {E} (w1 w2 w3 : World E) :
  same_source w1 w2 -> same_source w2 w3 -> same_source w1 w3.
Proof. unfold same_source. intros (?&?&?&?) (?&?&?&?). repeat split; congruence. Qed.

Lemma frames_ret {E A} (a : A) : frames (@ret (World E) A a).
Proof. intros w. apply same_source_refl. Qed.

Lemma frames_raise {E A} e : frames (@raise (World E) A e).
Proof. intros w. apply same_source_refl. Qed.

Lemma frames_gets {E A} (f : World E -> A) : frames (gets f).
Proof. intros w. apply same_source_refl. Qed.

Lemma frames_lift {E A} (r : Result A) : frames (@lift (World E) A r).
Proof. destruct r; [apply frames_ret | apply frames_raise]. Qed.

Lemma frames_bind {E A B} (c : M (World E) A) (k : A -> M (World E) B) :
  frames c -> (forall a, frames (k a)) -> frames (bind c k).
Proof.
  intros Hc Hk w. unfold bind. specialize (Hc w).
  destruct (c w) as [a w1|e w1]; cbn in *; [|assumption].
  eapply same_source_trans; [eassumption | apply Hk].
Qed.

Lemma frames_randint {E} a b : frames (@randint E a b).
Proof. intros w. unfold randint. destruct (b <? a); repeat split. Qed.

Lemma frames_set_outputarr {E} (a : ndarray E) : frames (modify (set_outputarr a)).
Proof. intros w. repeat split. Qed.

#[local] Hint Resolve frames_ret frames_raise frames_gets frames_lift
  frames_randint frames_set_outputarr : frames.

(** Peels binds, pattern-matching lets and conditionals off a goal
    [frames c]. *)
Ltac frame_step :=
  match goal with
  | |- frames (bind _ _) => apply frames_bind; [|intros]
  | |- frames (let '(_, _) := ?p in _) => destruct p
  | |- frames (if ?b then _ else _) => destruct b
  | |- frames (match ?r with Good _ => _ | Bad _ => _ end) => destruct r
  | |- _ => solve [eauto with frames]
  end.
Ltac frame := repeat frame_step.

Lemma frames_assign_block {E} r0 r1 c0 c1 (v : ndarray E) :
  frames (assign_block r0 r1 c0 c1 v).
Proof. unfold assign_block. frame. Qed.

Lemma frames_assign_at {E} i j (x : E) : frames (assign_at i j x).
Proof. unfold assign_at. frame. Qed.

Lemma frames_select_band {E} : frames (@select_band E).
Proof. unfold select_band. frame. Qed.

#[local] Hint Resolve frames_assign_block frames_assign_at frames_select_band : frames.

Lemma frames_glitch_left {E} offset : frames (@glitch_left E offset).
Proof. unfold glitch_left. frame. Qed.

Lemma frames_glitch_right {E} offset : frames (@glitch_right E offset).
Proof. unfold glitch_right. frame. Qed.

Lemma frames_for_each {E A L} (items : list A) (body : A -> L -> M (World E) L) locals :
  (forall item l, frames (body item l)) -> frames (for_each items body locals).
Proof.
  intros Hbody. revert locals.
  induction items as [|item rest IH]; intros locals; cbn [for_each]; frame.
Qed.

Lemma frames_color_offset_body ci item locals : frames (color_offset_body ci item locals).
Proof.
  destruct item as [[i j] x], locals as [oy ox]. unfold color_offset_body. frame.
Qed.

Lemma frames_color_offset ox oy ci : frames (color_offset ox oy ci).
Proof.
  unfold color_offset. frame.
  apply frames_for_each. intros. apply frames_color_offset_body.
Qed.

Lemma frames_repeat_rounds {E} n (round : M (World E) unit) :
  frames round -> frames (repeat_rounds n round).
Proof. intros Hr. induction n; cbn [repeat_rounds]; frame. Qed.

Lemma frames_glitch_round {E} max_offset :
  frames (@glitch_round_with E glitch_left glitch_right max_offset).
Proof.
  unfold glitch_round_with. frame;
    [apply frames_glitch_left | apply frames_glitch_right].
Qed.

Lemma frames_channel_pass glitch_amount : frames (channel_pass glitch_amount).
Proof.
  unfold channel_pass, get_random_channel. frame. apply frames_color_offset.
Qed.

Lemma chunks_concat {A} (k n : nat) (l : list A) :
  length l = (k * n)%nat -> concat (chunks k n l) = l.
Proof.
  revert l. induction k as [|k IH]; intros l Hl; cbn [chunks concat].
  - destruct l; [reflexivity | discriminate].
  - rewrite IH by (rewrite length_drop; lia). apply take_drop.
Qed.

(** The flattened view holds the samples of the 3D view, in order. *)
Lemma reshape_flat_samples h (a : ndarray (list Z)) (a2 : ndarray Z) :
  reshape_flat h a = Good a2 -> concat (rows a2) = concat (concat (rows a)).
Proof.
  unfold reshape_flat.
  destruct (Z.leb_spec h 0) as [|Hh]; cbn [orb]; [discriminate|].
  destruct (Z.eqb_spec (Z.of_nat (length (concat (concat (rows a)))) mod h) 0)
    as [Hm|]; cbn [negb]; [|discriminate].
  intros [= <-]. cbn [rows]. apply chunks_concat.
  apply Z.mod_divide in Hm; [|lia]. destruct Hm as [q Hq].
  rewrite Hq, Z.div_mul by lia.
  assert (0 <= q) by nia. apply Nat2Z.inj.
  rewrite Hq, Nat2Z.inj_mul, !Z2Nat.id by lia. lia.
Qed.

(** ** The rounds of the glitching loop *)

Lemma glitch_round_right_only {E} (shift_left shift_right : Z -> M (World E) unit)
    max_offset (w : World E) :
  glitch_round_with shift_left shift_right max_offset w =
  (current_offset <- randint 0 max_offset ;;
   if current_offset =? 0 then ret tt else shift_right current_offset) w.
Proof.
  unfold glitch_round_with, bind.
  destruct (randint 0 max_offset w) as [d w'|e w'] eqn:Hd; [|reflexivity].
  apply randint_inv in Hd as ([Hlo _] & _ & _).
  destruct (d =? 0); [reflexivity|].
  destruct (Z.ltb_spec d 0); [lia | reflexivity].
Qed.

Lemma repeat_rounds_ext {S} n (r1 r2 : M S unit) :
  (forall s, r1 s = r2 s) -> forall s, repeat_rounds n r1 s = repeat_rounds n r2 s.
Proof.
  intros Hr. induction n as [|n IH]; intros s; cbn [repeat_rounds]; [reflexivity|].
  unfold bind. rewrite Hr. destruct (r2 s); [apply IH | reflexivity].
Qed.

Lemma glitching_left_irrelevant {E} (left1 left2 shift_right : Z -> M (World E) unit)
    glitch_amount max_offset (w : World E) :
  glitching_with left1 shift_right glitch_amount max_offset w =
  glitching_with left2 shift_right glitch_amount max_offset w.
Proof.
  unfold glitching_with. apply repeat_rounds_ext. intros s.
  rewrite !glitch_round_right_only. reflexivity.
Qed.

(** C9.  Every offset of a round comes from [0, max_offset] and is never
    negative; a round is a skip or a call of the rightward shift; and no run
    of [glitch_image] depends on what the leftward shift is, so that path is
    never entered. *)
Theorem left_shift_unreachable :
  (forall E (max_offset : Z) (w : World E),
      match randint 0 max_offset w with
      | Return current_offset _ => 0 <= current_offset <= max_offset
      | Raise _ _ => True
      end) /\
  (forall E (shift_left : Z -> M (World E) unit) (max_offset : Z) (w : World E),
      glitch_round_with shift_left glitch_right max_offset w =
      (current_offset <- randint 0 max_offset ;;
       if current_offset =? 0 then ret tt else glitch_right current_offset) w) /\
  (forall (shift_left : Z -> M (World (list Z)) unit) src glitch_amount g,
      glitch_image_with shift_left glitch_right src glitch_amount g =
      glitch_image src glitch_amount g).
Proof.
  repeat apply conj.
  - intros E max_offset w.
    destruct (randint 0 max_offset w) as [d w'|] eqn:Hd; [|exact I].
    apply randint_inv in Hd. tauto.
  - intros. apply glitch_round_right_only.
  - intros shift_left src glitch_amount g. unfold glitch_image, glitch_image_with.
    destruct (negb _); [reflexivity|].
    destruct src as [| |img]; try reflexivity.
    destruct (size img) as [width height].
    destruct (max_offset_of glitch_amount width) as [max_offset|]; [|reflexivity].
    rewrite (glitching_left_irrelevant shift_left glitch_left). reflexivity.
Qed.

(** ** The largest offset of a round *)

Lemma round_aux_nonneg m e l : is_nonneg (binary_round_aux 53 1024 false m e l).
Proof.
  unfold binary_round_aux.
  destruct (shr_fexp 53 1024 m e l) as [mrs1 e1].
  destruct (shr_fexp 53 1024 _ e1 loc_Exact) as [mrs2 e2].
  destruct (shr_m mrs2); cbn; [reflexivity| |exact I].
  destruct (e2 <=? 1024 - 53); reflexivity.
Qed.

Lemma exact_nonneg z : 0 <= z -> is_nonneg (PyFloat.exact z).
Proof. destruct z; cbn; [reflexivity | reflexivity | lia]. Qed.

Lemma div_nonneg x y :
  is_nonneg x -> is_nonneg y -> is_nonneg (SFdiv 53 1024 x y).
Proof.
  destruct x as [sx|sx| |sx mx ex], y as [sy|sy| |sy my ey]; cbn [is_nonneg SFdiv];
    intros; subst; try reflexivity; try exact I.
  destruct (SFdiv_core_binary 53 1024 (Z.pos mx) ex (Z.pos my) ey) as [[mz ez] lz].
  apply round_aux_nonneg.
Qed.

Lemma mul_nonneg x y :
  is_nonneg x -> is_nonneg y -> is_nonneg (SFmul 53 1024 x y).
Proof.
  destruct x as [sx|sx| |sx mx ex], y as [sy|sy| |sy my ey]; cbn [is_nonneg SFmul];
    intros; subst; try reflexivity; try exact I.
  apply round_aux_nonneg.
Qed.

Lemma normalize_nonneg z : 0 <= z -> is_nonneg (binary_normalize 53 1024 z 0 false).
Proof.
  destruct z as [|p|p]; cbn [binary_normalize]; intros Hz; [reflexivity| |lia].
  unfold binary_round. destruct (shl_align _ _ _) as [mz ez]. apply round_aux_nonneg.
Qed.

Lemma finite_or_overflow_inv f f' :
  PyFloat.finite_or_overflow f = Good f' -> f' = f.
Proof. destruct f; cbn; congruence. Qed.

Lemma to_int_nonneg f n : is_nonneg f -> PyFloat.to_int f = Good n -> 0 <= n.
Proof.
  destruct f as [s|s| |s m e]; cbn [is_nonneg PyFloat.to_int]; intros Hs [= <-];
    [lia|]. subst s.
  destruct (Z.leb_spec 0 e).
  - apply Z.mul_nonneg_nonneg; [lia | apply Z.pow_nonneg; lia].
  - apply Z.div_pos; [lia | apply Z.pow_pos_nonneg; lia].
Qed.

(** The range [0, max_offset] of the offset draw is never empty. *)
Lemma max_offset_nonneg glitch_amount width max_offset :
  0 <= width -> max_offset_of glitch_amount width = Good max_offset -> 0 <= max_offset.
Proof.
  intros Hw. unfold max_offset_of, PyFloat.int_truediv, PyFloat.mul_int, PyFloat.of_int.
  cbn [Z.eqb].
  destruct (PyFloat.finite_or_overflow (SFdiv _ _ _ _)) as [ratio|] eqn:Hr; [|discriminate].
  apply finite_or_overflow_inv in Hr.
  destruct (PyFloat.finite_or_overflow (binary_normalize _ _ _ _ _)) as [fw|] eqn:Hfw;
    [|discriminate].
  apply finite_or_overflow_inv in Hfw. subst.
  apply to_int_nonneg, mul_nonneg.
  - apply div_nonneg; apply exact_nonneg; [|lia].
    rewrite Z.pow_2_r. nia.
  - apply normalize_nonneg. assumption.
Qed.

(** ** Images of fewer than four rows *)

Lemma shift_small {E} (w : World E) offset :
  1 <= img_height (self w) <= 3 ->
  glitch_right offset w = Raise ValueError (drawn w) /\
  glitch_left offset w = Raise ValueError (drawn w).
Proof.
  intros Hh. unfold glitch_right, glitch_left, bind, gets.
  rewrite select_band_small by assumption. split; reflexivity.
Qed.

Lemma round_skip {E} (shift_left shift_right : Z -> M (World E) unit) max_offset w :
  0 <= max_offset -> in_range 0 max_offset (next_draw (rng w)) = 0 ->
  glitch_round_with shift_left shift_right max_offset w = Return tt (drawn w).
Proof.
  intros Hmo Hd. unfold glitch_round_with, bind.
  rewrite randint_run, Hd by assumption. reflexivity.
Qed.

Lemma round_small {E} (w : World E) max_offset :
  1 <= img_height (self w) <= 3 -> 0 <= max_offset ->
  in_range 0 max_offset (next_draw (rng w)) <> 0 ->
  glitch_round_with glitch_left glitch_right max_offset w
  = Raise ValueError (drawn (drawn w)).
Proof.
  intros Hh Hmo Hd. rewrite glitch_round_right_only. unfold bind.
  rewrite randint_run by assumption.
  destruct (Z.eqb_spec (in_range 0 max_offset (next_draw (rng w))) 0); [contradiction|].
  apply (shift_small (drawn w)). assumption.
Qed.

Lemma rounds_small {E} max_offset n :
  forall (w : World E) (i : nat),
    1 <= img_height (self w) <= 3 -> 0 <= max_offset -> (i < n)%nat ->
    in_range 0 max_offset (source (rng w) (consumed (rng w) + i)%nat) <> 0 ->
    exists w', repeat_rounds n (glitch_round_with glitch_left glitch_right max_offset) w
               = Raise ValueError w'.
Proof.
  induction n as [|n IH]; intros w i Hh Hmo Hi Hd; [lia|].
  cbn [repeat_rounds]. unfold bind.
  destruct (Z.eq_dec (in_range 0 max_offset (next_draw (rng w))) 0) as [Hz|Hnz].
  - rewrite round_skip by assumption.
    destruct i as [|i].
    + exfalso. apply Hd. rewrite Nat.add_0_r. exact Hz.
    + apply (IH (drawn w) i); [assumption | assumption | lia |].
      cbn. rewrite <- Nat.add_succ_r. exact Hd.
  - rewrite round_small by assumption. eexists. reflexivity.
Qed.

(** C10.  On an image of one to three rows [int(img_height / 4)] is 0, so a
    round that draws a non-zero offset ends in the [ValueError] of
    [randint(1, 0)] right after the draw of the first row; and [glitch_image]
    as a whole raises it on such an image, for any intensity from 1 to 10, as
    soon as one of its rounds draws a non-zero offset. *)
Theorem small_image_glitch_fails :
  (forall E (w : World E) (max_offset : Z),
      1 <= img_height (self w) <= 3 -> 0 <= max_offset ->
      in_range 0 max_offset (next_draw (rng w)) <> 0 ->
      quarter (img_height (self w)) = Good 0 /\
      randint 1 0 (drawn (drawn w)) = Raise ValueError (drawn (drawn w)) /\
      glitch_round_with glitch_left glitch_right max_offset w
      = Raise ValueError (drawn (drawn w))) /\
  (forall (img : Image) (glitch_amount : Z) (g : Rng) (width height max_offset : Z) (i : nat),
      1 <= glitch_amount <= 10 ->
      size img = (width, height) -> 0 <= width -> 1 <= height <= 3 ->
      max_offset_of glitch_amount width = Good max_offset ->
      (i < Z.to_nat (glitch_amount * 2))%nat ->
      in_range 0 max_offset (source g (consumed g + i)%nat) <> 0 ->
      glitch_image (ImageFile img) glitch_amount g = Bad ValueError).
Proof.
  split.
  - intros E w max_offset Hh Hmo Hd. repeat split.
    + rewrite quarter_exact by lia. f_equal. apply Z.div_small. lia.
    + apply round_small; assumption.
  - intros img glitch_amount g width height max_offset i Hga Hsize Hw Hh Hmo Hi Hd.
    unfold glitch_image, glitch_image_with.
    destruct (Z.leb_spec 1 glitch_amount); [|lia].
    destruct (Z.leb_spec glitch_amount 10); [|lia].
    cbn [andb negb]. rewrite Hsize, Hmo.
    pose proof (max_offset_nonneg _ _ _ Hw Hmo) as Hnn.
    match goal with
    | |- context [glitching_with _ _ _ _ ?w0] =>
        destruct (rounds_small max_offset (Z.to_nat (glitch_amount * 2)) w0 i)
          as [w' Hw']; [exact Hh | exact Hnn | exact Hi | exact Hd |]
    end.
    unfold glitching_with. rewrite Hw'. reflexivity.
Qed.

Lemma small_image_glitch_fails_witness :
  glitch_image (ImageFile tiny_image) 10 (constant_rng 1) = Bad ValueError.
Proof.
  apply (proj2 small_image_glitch_fails tiny_image 10 (constant_rng 1) 1 1 1 0%nat).
  - lia.
  - reflexivity.
  - lia.
  - lia.
  - vm_compute. reflexivity.
  - vm_compute. lia.
  - vm_compute. discriminate.
Defined.

(** ** Slices and block assignment *)

Lemma slice_bound_id len b : 0 <= b <= len -> slice_bound len b = b.
Proof. intros Hb. unfold slice_bound. destruct (Z.ltb_spec b 0); lia. Qed.

Lemma py_slice_range {A} s e (l : list A) :
  0 <= s <= e -> e <= Z.of_nat (length l) ->
  py_slice (Some s) (Some e) l = take (Z.to_nat (e - s)) (drop (Z.to_nat s) l).
Proof.
  intros Hs He. unfold py_slice, slice_len, slice_start, slice_stop.
  rewrite !slice_bound_id by lia. rewrite Z.max_r by lia. reflexivity.
Qed.

Lemma py_slice_prefix {A} e (l : list A) :
  0 <= e <= Z.of_nat (length l) -> py_slice None (Some e) l = take (Z.to_nat e) l.
Proof.
  intros He. unfold py_slice, slice_len, slice_start, slice_stop.
  rewrite slice_bound_id by lia. rewrite Z.max_r, Z.sub_0_r by lia. reflexivity.
Qed.

Lemma py_slice_suffix {A} s (l : list A) :
  0 <= s <= Z.of_nat (length l) -> py_slice (Some s) None l = drop (Z.to_nat s) l.
Proof.
  intros Hs. unfold py_slice, slice_len, slice_start, slice_stop.
  rewrite slice_bound_id by lia. rewrite Z.max_r by lia.
  apply take_ge. rewrite length_drop. lia.
Qed.

Lemma broadcast_axis_same {A} n (l : list A) : broadcast_axis n n l = Some l.
Proof. unfold broadcast_axis. rewrite Z.eqb_refl. reflexivity. Qed.

(** A block assignment whose value has exactly the extent of the target. *)
Lemma setitem_block_aligned {E} (a v : ndarray E) rs re cs ce c0 c1 :
  0 <= rs <= re -> re <= nrows a -> 0 <= cs <= ce ->
  slice_start (ncols a) c0 = cs -> slice_stop (ncols a) c1 = ce ->
  nrows v = re - rs -> ncols v = ce - cs ->
  setitem_block a (Some rs) (Some re) c0 c1 v =
  Good {| nrows := nrows a; ncols := ncols a;
          rows := take (Z.to_nat rs) (rows a)
                  ++ zip_with (fun vrow orow =>
                                 take (Z.to_nat cs) orow ++ vrow ++ drop (Z.to_nat ce) orow)
                              (rows v)
                              (take (Z.to_nat (re - rs)) (drop (Z.to_nat rs) (rows a)))
                  ++ drop (Z.to_nat re) (rows a) |}.
Proof.
  intros Hr Hre Hc Hcs Hce Hvr Hvc. unfold setitem_block, slice_len.
  rewrite Hcs, Hce. cbn [slice_start slice_stop].
  rewrite !slice_bound_id by lia. rewrite !Z.max_r by lia.
  rewrite Hvr, broadcast_axis_same, Hvc, Z.eqb_refl. cbn [orb].
  do 2 f_equal. unfold splice.
  replace (rs + (re - rs)) with re by lia.
  replace (cs + (ce - cs)) with ce by lia.
  do 2 f_equal. f_equal.
  rewrite <- (map_id (rows v)) at 2. apply map_ext. intros r.
  rewrite broadcast_axis_same. reflexivity.
Qed.

Lemma lookup_band {A} (s e : nat) (mid l : list A) (i : nat) :
  (s <= e <= length l)%nat -> length mid = (e - s)%nat ->
  (take s l ++ mid ++ drop e l) !! i =
  if decide (s <= i < e)%nat then mid !! (i - s)%nat else l !! i.
Proof.
  intros Hse Hmid.
  assert (Hts : length (take s l) = s) by (rewrite length_take; lia).
  destruct (decide (s <= i < e)%nat) as [Hin|Hout].
  - rewrite lookup_app_r by lia. rewrite Hts.
    apply lookup_app_l. lia.
  - destruct (decide (i < s)%nat).
    + rewrite lookup_app_l by lia. apply lookup_take_lt. lia.
    + rewrite lookup_app_r by lia. rewrite Hts.
      rewrite lookup_app_r by lia. rewrite lookup_drop. f_equal. lia.
Qed.

(** Copying a block of [src] over the same rows of [a], row by row. *)
Lemma block_copy_lookup {E} (a src : ndarray E) sy ey cs ce c0 c1 d0 d1 :
  Z.of_nat (length (rows a)) = nrows a ->
  Z.of_nat (length (rows src)) = nrows a -> nrows src = nrows a ->
  0 <= sy <= ey -> ey <= nrows a -> 0 <= cs <= ce ->
  slice_start (ncols a) c0 = cs -> slice_stop (ncols a) c1 = ce ->
  slice_len (ncols src) d0 d1 = ce - cs ->
  exists a',
    setitem_block a (Some sy) (Some ey) c0 c1
                  (getitem_block src (Some sy) (Some ey) d0 d1) = Good a' /\
    nrows a' = nrows a /\ ncols a' = ncols a /\
    length (rows a') = length (rows a) /\
    forall (i : nat) orow srow,
      rows a !! i = Some orow -> rows src !! i = Some srow ->
      rows a' !! i =
      Some (if decide (sy <= Z.of_nat i < ey)
            then take (Z.to_nat cs) orow ++ py_slice d0 d1 srow ++ drop (Z.to_nat ce) orow
            else orow).
Proof.
  intros Hla Hls Hns Hy Hey Hc Hcs Hce Hd.
  assert (Hband : length (take (Z.to_nat (ey - sy)) (drop (Z.to_nat sy) (rows a)))
                  = Z.to_nat (ey - sy)).
  { rewrite length_take, length_drop. lia. }
  assert (Hsrc : py_slice (Some sy) (Some ey) (rows src)
                 = take (Z.to_nat (ey - sy)) (drop (Z.to_nat sy) (rows src))).
  { apply py_slice_range; lia. }
  assert (Hvrows : length (map (py_slice d0 d1) (py_slice (Some sy) (Some ey) (rows src)))
                   = Z.to_nat (ey - sy)).
  { rewrite length_map, Hsrc, length_take, length_drop. lia. }
  eexists. split.
  { apply setitem_block_aligned; try eassumption; try lia.
    - cbn [getitem_block nrows]. unfold slice_len. cbn [slice_start slice_stop].
      rewrite Hns, !slice_bound_id by lia. lia. }
  cbn [nrows ncols rows getitem_block]. repeat split.
  - rewrite !length_app, length_zip_with, Hvrows, Hband, length_take, length_drop. lia.
  - intros i orow srow Ho Hs.
    rewrite lookup_band; [| lia | rewrite length_zip_with, Hvrows, Hband; lia].
    destruct (decide (sy <= Z.of_nat i < ey)) as [Hin|Hout].
    + rewrite decide_True by lia.
      rewrite lookup_zip_with, list_lookup_fmap, Hsrc.
      rewrite !lookup_take_lt, !lookup_drop by lia.
      replace (Z.to_nat sy + (i - Z.to_nat sy))%nat with i by lia.
      rewrite Ho, Hs. reflexivity.
    + rewrite decide_False by lia. exact Ho.
Qed.

Lemma assign_block_run {E} r0 r1 c0 c1 (v a' : ndarray E) (w : World E) :
  setitem_block (outputarr (self w)) r0 r1 c0 c1 v = Good a' ->
  assign_block r0 r1 c0 c1 v w = Return tt (set_outputarr a' w).
Proof. intros Hs. unfold assign_block, bind, gets. rewrite Hs. reflexivity. Qed.

Lemma in_band_decide {E} (w : World E) (i : nat) :
  in_band w i = bool_decide (band_start w <= Z.of_nat i < band_stop w).
Proof.
  unfold in_band.
  destruct (Z.leb_spec (band_start w) (Z.of_nat i)), (Z.ltb_spec (Z.of_nat i) (band_stop w));
    cbn; symmetry; first [apply bool_decide_eq_true; lia | apply bool_decide_eq_false; lia].
Qed.

Lemma shaped_row {E} (a : ndarray E) i row :
  shaped a -> rows a !! i = Some row -> Z.of_nat (length row) = ncols a.
Proof.
  intros (_ & _ & _ & Hall) Hi. rewrite Forall_lookup in Hall. eapply Hall, Hi.
Qed.


(** Closes the side conditions on slice bounds. *)
Ltac solve_slices :=
  solve [ repeat match goal with H : ncols _ = _ |- _ => rewrite H end;
          unfold slice_len; cbn [slice_start slice_stop];
          rewrite ?slice_bound_id by lia; first [reflexivity | lia] ].

(** The rows a rightward shift leaves in the destination. *)
Lemma glitch_right_rows {E} (w : World E) offset :
  well_formed w -> 4 <= img_height (self w) < 2 ^ 53 ->
  0 <= offset <= img_width (self w) ->
  exists out',
    glitch_right offset w = Return tt (set_outputarr out' (drawn (drawn w))) /\
    nrows out' = img_height (self w) /\ ncols out' = img_width (self w) /\
    length (rows out') = length (rows (outputarr (self w))) /\
    forall (i : nat) orow src,
      rows (outputarr (self w)) !! i = Some orow ->
      rows (inputarr (self w)) !! i = Some src ->
      rows out' !! i =
      Some (if in_band w i then rotate_right (img_width (self w)) offset src else orow).
Proof.
  intros (HsI & HsO & HnI & HnO & HcI & HcO) Hh Ho.
  pose proof (band_bounds w ltac:(lia)) as (Hs & _ & He).
  pose proof HsI as (_ & _ & HlI & _). pose proof HsO as (_ & _ & HlO & _).
  set (W := img_width (self w)) in *. set (H := img_height (self w)) in *.
  destruct (block_copy_lookup (outputarr (self w)) (inputarr (self w))
              (band_start w) (band_stop w) offset W (Some offset) None None (Some (W - offset)))
    as (a1 & Hset1 & Hr1 & Hc1 & Hl1 & Hrow1); try lia; try solve_slices.
  destruct (block_copy_lookup a1 (inputarr (self w))
              (band_start w) (band_stop w) 0 offset None (Some offset) (Some (W - offset)) None)
    as (a2 & Hset2 & Hr2 & Hc2 & Hl2 & Hrow2); try lia; try solve_slices.
  exists a2. split; [|repeat split; try lia].
  - unfold glitch_right, bind, gets. rewrite select_band_run by assumption.
    rewrite (assign_block_run _ _ _ _ _ a1) by exact Hset1.
    rewrite (assign_block_run _ _ _ _ _ a2) by exact Hset2. reflexivity.
  - intros i orow src Hi Hsrc.
    pose proof (shaped_row _ _ _ HsO Hi) as Hlo.
    pose proof (shaped_row _ _ _ HsI Hsrc) as Hls.
    rewrite (Hrow2 i _ src (Hrow1 i orow src Hi Hsrc) Hsrc).
    rewrite in_band_decide. f_equal.
    destruct (decide (band_start w <= Z.of_nat i < band_stop w)) as [Hin|Hout].
    + rewrite bool_decide_eq_true_2 by assumption.
      rewrite py_slice_prefix, py_slice_suffix by lia.
      unfold rotate_right. change (Z.to_nat 0) with 0%nat. rewrite take_0. cbn [app]. f_equal.
      rewrite (drop_ge orow) by lia. rewrite app_nil_r.
      apply drop_app_length'. rewrite length_take. lia.
    + rewrite bool_decide_eq_false_2 by assumption. reflexivity.
Qed.

(** The rows a leftward shift leaves in the destination. *)
Lemma glitch_left_rows {E} (w : World E) offset :
  well_formed w -> 4 <= img_height (self w) < 2 ^ 53 ->
  0 <= offset <= img_width (self w) ->
  exists out',
    glitch_left offset w = Return tt (set_outputarr out' (drawn (drawn w))) /\
    nrows out' = img_height (self w) /\ ncols out' = img_width (self w) /\
    length (rows out') = length (rows (outputarr (self w))) /\
    forall (i : nat) orow src,
      rows (outputarr (self w)) !! i = Some orow ->
      rows (inputarr (self w)) !! i = Some src ->
      rows out' !! i = Some (if in_band w i then rotate_left offset src else orow).
Proof.
  intros (HsI & HsO & HnI & HnO & HcI & HcO) Hh Ho.
  pose proof (band_bounds w ltac:(lia)) as (Hs & _ & He).
  pose proof HsI as (_ & _ & HlI & _). pose proof HsO as (_ & _ & HlO & _).
  set (W := img_width (self w)) in *. set (H := img_height (self w)) in *.
  destruct (block_copy_lookup (outputarr (self w)) (inputarr (self w))
              (band_start w) (band_stop w) 0 (W - offset) None (Some (W - offset))
              (Some offset) None)
    as (a1 & Hset1 & Hr1 & Hc1 & Hl1 & Hrow1); try lia; try solve_slices.
  destruct (block_copy_lookup a1 (inputarr (self w))
              (band_start w) (band_stop w) (W - offset) W (Some (W - offset)) None
              None (Some offset))
    as (a2 & Hset2 & Hr2 & Hc2 & Hl2 & Hrow2); try lia; try solve_slices.
  exists a2. split; [|repeat split; try lia].
  - unfold glitch_left, bind, gets. rewrite select_band_run by assumption.
    rewrite (assign_block_run _ _ _ _ _ a1) by exact Hset1.
    rewrite (assign_block_run _ _ _ _ _ a2) by exact Hset2. reflexivity.
  - intros i orow src Hi Hsrc.
    pose proof (shaped_row _ _ _ HsO Hi) as Hlo.
    pose proof (shaped_row _ _ _ HsI Hsrc) as Hls.
    rewrite (Hrow2 i _ src (Hrow1 i orow src Hi Hsrc) Hsrc).
    rewrite in_band_decide. f_equal.
    destruct (decide (band_start w <= Z.of_nat i < band_stop w)) as [Hin|Hout].
    + rewrite bool_decide_eq_true_2 by assumption.
      rewrite py_slice_prefix, py_slice_suffix by lia.
      unfold rotate_left. change (Z.to_nat 0) with 0%nat. rewrite take_0. cbn [app].
      rewrite take_app_length' by (rewrite length_drop; lia).
      rewrite (drop_ge (_ ++ _)) by (rewrite length_app, !length_drop; lia).
      rewrite app_nil_r. reflexivity.
    + rewrite bool_decide_eq_false_2 by assumption. reflexivity.
Qed.


(** The worked example of the docstrings: shifting the first row by one
    column gives [3, 0, 1, 2] to the right and [1, 2, 3, 0] to the left. *)
Example docstring_shifts :
  rows (outputarr (self (final_state (glitch_right 1 (docstring_world 0)))))
  = [[3; 0; 1; 2]; [4; 5; 6; 7]; [8; 9; 10; 11]; [12; 13; 14; 15]] /\
  rows (outputarr (self (final_state (glitch_left 1 (docstring_world 0)))))
  = [[1; 2; 3; 0]; [4; 5; 6; 7]; [8; 9; 10; 11]; [12; 13; 14; 15]].
Proof. split; vm_compute; reflexivity. Qed.

(** C4.  With [1 <= offset < width], on every row [r] of the selected band
    a rightward shift leaves [dest[r][offset:] = src[r][:width-offset]] and
    [dest[r][:offset] = src[r][width-offset:]], a leftward shift leaves
    [dest[r][:width-offset] = src[r][offset:]] and
    [dest[r][width-offset:] = src[r][:offset]]; the elements moved are whole
    pixel tuples, and rows outside the band keep what they held. *)
Theorem band_shift_rows {E} (w : World E) (offset : Z) :
  well_formed w -> 4 <= img_height (self w) < 2 ^ 53 ->
  1 <= offset < img_width (self w) ->
  (exists w',
      glitch_right offset w = Return tt w' /\
      forall (r : nat) (orow src : list E),
        rows (outputarr (self w)) !! r = Some orow ->
        rows (inputarr (self w)) !! r = Some src ->
        exists dst,
          rows (outputarr (self w')) !! r = Some dst /\
          if in_band w r then
            py_slice (Some offset) None dst
            = py_slice None (Some (img_width (self w) - offset)) src /\
            py_slice None (Some offset) dst
            = py_slice (Some (img_width (self w) - offset)) None src /\
            length dst = length src
          else dst = orow) /\
  (exists w',
      glitch_left offset w = Return tt w' /\
      forall (r : nat) (orow src : list E),
        rows (outputarr (self w)) !! r = Some orow ->
        rows (inputarr (self w)) !! r = Some src ->
        exists dst,
          rows (outputarr (self w')) !! r = Some dst /\
          if in_band w r then
            py_slice None (Some (img_width (self w) - offset)) dst
            = py_slice (Some offset) None src /\
            py_slice (Some (img_width (self w) - offset)) None dst
            = py_slice None (Some offset) src /\
            length dst = length src
          else dst = orow).
Proof.
  intros Hwf Hh Ho.
  pose proof Hwf as (HsI & _ & _ & _ & HcI & _).
  split.
  - destruct (glitch_right_rows w offset Hwf Hh ltac:(lia)) as (out' & Hrun & _ & _ & _ & Hrows).
    eexists. split; [exact Hrun|]. intros r orow src Hr Hsrc.
    eexists. split; [apply (Hrows r orow src Hr Hsrc)|].
    destruct (in_band w r); [|reflexivity].
    pose proof (shaped_row _ _ _ HsI Hsrc) as Hls. rewrite HcI in Hls.
    assert (Hld : length (rotate_right (img_width (self w)) offset src) = length src).
    { unfold rotate_right. rewrite length_app, length_drop, length_take. lia. }
    rewrite !py_slice_prefix, !py_slice_suffix by lia.
    unfold rotate_right in *. repeat split; [| |exact Hld].
    + apply drop_app_length'. rewrite length_drop. lia.
    + apply take_app_length'. rewrite length_drop. lia.
  - destruct (glitch_left_rows w offset Hwf Hh ltac:(lia)) as (out' & Hrun & _ & _ & _ & Hrows).
    eexists. split; [exact Hrun|]. intros r orow src Hr Hsrc.
    eexists. split; [apply (Hrows r orow src Hr Hsrc)|].
    destruct (in_band w r); [|reflexivity].
    pose proof (shaped_row _ _ _ HsI Hsrc) as Hls. rewrite HcI in Hls.
    assert (Hld : length (rotate_left offset src) = length src).
    { unfold rotate_left. rewrite length_app, length_drop, length_take. lia. }
    rewrite !py_slice_prefix, !py_slice_suffix by lia.
    unfold rotate_left in *. repeat split; [| |exact Hld].
    + apply take_app_length'. rewrite length_drop. lia.
    + apply drop_app_length'. rewrite length_drop. lia.
Qed.

Lemma band_shift_rows_witness :
  exists w',
    glitch_right 1 (docstring_world 0) = Return tt w' /\
    forall (r : nat) (orow src : list Z),
      docstring_rows !! r = Some orow ->
      docstring_rows !! r = Some src ->
      exists dst,
        rows (outputarr (self w')) !! r = Some dst /\
        if in_band (docstring_world 0) r then
          py_slice (Some 1) None dst = py_slice None (Some (4 - 1)) src /\
          py_slice None (Some 1) dst = py_slice (Some (4 - 1)) None src /\
          length dst = length src
        else dst = orow.
Proof.
  apply (band_shift_rows (docstring_world 0) 1).
  - evaluate_shape.
  - cbn. lia.
  - cbn. lia.
Defined.

(** C6 as the specification words it: a shift by 0 would be rejected on
    every buffer.  On the docstring array both shifts return normally. *)
Lemma zero_offset_not_rejected :
  ~ (forall w : World Z,
        (exists e w', glitch_right 0 w = Raise e w') /\
        (exists e w', glitch_left 0 w = Raise e w')).
Proof.
  intros Hall. destruct (Hall (docstring_world 0)) as [(e & w' & Hr) _].
  vm_compute in Hr. discriminate Hr.
Qed.

(** C6, as the code has it.  Neither shift checks its offset: on a
    well-formed buffer of at least four rows a shift by 0 returns normally,
    having copied the rows of the selected band from the source to the
    destination as they are and left the other rows alone.  What keeps such
    calls from happening is the loop: a round whose draw is 0 returns at once,
    whatever the two shifts are, with nothing changed but the random state. *)
Theorem zero_offset_is_plain_copy :
  (forall E (w : World E),
      well_formed w -> 4 <= img_height (self w) < 2 ^ 53 ->
      exists out',
        glitch_right 0 w = Return tt (set_outputarr out' (drawn (drawn w))) /\
        glitch_left 0 w = Return tt (set_outputarr out' (drawn (drawn w))) /\
        forall (r : nat) (orow src : list E),
          rows (outputarr (self w)) !! r = Some orow ->
          rows (inputarr (self w)) !! r = Some src ->
          rows out' !! r = Some (if in_band w r then src else orow)) /\
  (forall E (shift_left shift_right : Z -> M (World E) unit) (max_offset : Z) (w : World E),
      0 <= max_offset -> in_range 0 max_offset (next_draw (rng w)) = 0 ->
      glitch_round_with shift_left shift_right max_offset w = Return tt (drawn w)).
Proof.
  split.
  - intros E w Hwf Hh.
    pose proof Hwf as (HsI & HsO & HnI & HnO & HcI & HcO).
    pose proof HsI as (_ & HW & HlI & _). pose proof HsO as (_ & _ & HlO & _).
    rewrite HcI in HW.
    destruct (glitch_right_rows w 0 Hwf Hh ltac:(lia)) as (o1 & Hrun1 & Hn1 & Hc1 & Hl1 & Hrows1).
    destruct (glitch_left_rows w 0 Hwf Hh ltac:(lia)) as (o2 & Hrun2 & Hn2 & Hc2 & Hl2 & Hrows2).
    assert (Hrot : forall (r : nat) orow src,
               rows (outputarr (self w)) !! r = Some orow ->
               rows (inputarr (self w)) !! r = Some src ->
               rows o1 !! r = Some (if in_band w r then src else orow) /\
               rows o2 !! r = Some (if in_band w r then src else orow)).
    { intros r orow src Hr Hsrc.
      pose proof (shaped_row _ _ _ HsI Hsrc) as Hls. rewrite HcI in Hls.
      rewrite (Hrows1 r orow src Hr Hsrc), (Hrows2 r orow src Hr Hsrc).
      unfold rotate_right, rotate_left. rewrite Z.sub_0_r.
      change (Z.to_nat 0) with 0%nat. cbn [drop take].
      rewrite drop_ge, take_ge, app_nil_r by lia. split; reflexivity. }
    assert (Heq : o2 = o1).
    { destruct o1 as [n1 c1 r1], o2 as [n2 c2 r2]. cbn in *. subst. f_equal.
      apply list_eq. intros i.
      destruct (rows (outputarr (self w)) !! i) as [orow|] eqn:Hr.
      - destruct (lookup_lt_is_Some_2 (rows (inputarr (self w))) i) as [src Hsrc].
        { apply lookup_lt_Some in Hr. lia. }
        destruct (Hrot i orow src Hr Hsrc) as [-> ->]. reflexivity.
      - apply lookup_ge_None in Hr.
        rewrite !lookup_ge_None_2 by lia. reflexivity. }
    subst o2. exists o1. repeat split; [assumption | assumption |].
    intros r orow src Hr Hsrc. apply (Hrot r orow src Hr Hsrc).
  - intros. apply round_skip; assumption.
Qed.

Lemma zero_offset_is_plain_copy_witness :
  (exists out',
      glitch_right 0 (docstring_world 0)
      = Return tt (set_outputarr out' (drawn (drawn (docstring_world 0)))) /\
      glitch_left 0 (docstring_world 0)
      = Return tt (set_outputarr out' (drawn (drawn (docstring_world 0)))) /\
      forall (r : nat) (orow src : list Z),
        docstring_rows !! r = Some orow ->
        docstring_rows !! r = Some src ->
        rows out' !! r = Some (if in_band (docstring_world 0) r then src else orow)) /\
  glitch_round_with glitch_left glitch_right 1 (docstring_world 0)
  = Return tt (drawn (docstring_world 0)).
Proof.
  split.
  - apply (proj1 zero_offset_is_plain_copy Z (docstring_world 0)).
    + evaluate_shape.
    + cbn. lia.
  - apply (proj2 zero_offset_is_plain_copy Z glitch_left glitch_right 1 (docstring_world 0)).
    + lia.
    + reflexivity.
Defined.

(** ** The first sample of the enumeration *)

Lemma enumerate_first_column {E} (g : nat -> Z) (l : list (list E)) item rest :
  concat (imap (fun i r => imap (fun j x => ((g i, Z.of_nat j), x)) r) l) = item :: rest ->
  snd (fst item) = 0.
Proof.
  revert g. induction l as [|r l IH]; intros g; cbn [imap concat]; [discriminate|].
  destruct r as [|x r]; cbn [imap app].
  - apply (IH (g ∘ S)).
  - intros [= <- _]. reflexivity.
Qed.

Lemma enumerate_empty_rows {E} (f : nat -> list E -> list ((Z * Z) * E)) (l : list (list E)) :
  (forall i, f i [] = []) -> Forall (fun r => r = []) l -> concat (imap f l) = [].
Proof.
  intros Hf Hall. revert f Hf.
  induction Hall as [|r l -> _ IH]; intros f Hf; cbn [imap concat]; [reflexivity|].
  rewrite Hf. apply IH. intros i. apply Hf.
Qed.

Lemma ndenumerate_first {E} (a : ndarray E) item rest :
  ndenumerate a = item :: rest ->
  snd (fst item) = 0 /\ (shaped a -> fst (fst item) = 0).
Proof.
  intros Hen. split; [eapply enumerate_first_column, Hen|].
  intros (_ & _ & _ & Hall). unfold ndenumerate in Hen.
  destruct (rows a) as [|r l] eqn:Hrows; [discriminate|].
  destruct r as [|x r].
  - exfalso. rewrite enumerate_empty_rows in Hen; [discriminate | reflexivity |].
    apply Forall_cons in Hall as [Hr Hl]. cbn in Hr.
    constructor; [reflexivity|].
    eapply Forall_impl; [exact Hl|]. intros r' Hr'. cbn in Hr'.
    destruct r'; [reflexivity | cbn in Hr'; lia].
  - cbn in Hen. injection Hen as <- _. reflexivity.
Qed.

Lemma body_first_row ci x offset_x (w : World Z) :
  color_offset_body ci ((0, 0), x) (img_height (self w), offset_x) w =
  color_offset_body ci ((0, 0), x) (0, offset_x) w.
Proof.
  unfold color_offset_body, bind, gets, py_mod.
  destruct (pixel_tuple_len (self w) =? 0); cbn [lift ret raise]; [reflexivity|].
  rewrite Zmod_0_l. cbn [Z.eqb negb]. rewrite !Z.add_0_r, Z.leb_refl.
  destruct (img_height (self w) <=? 0); reflexivity.
Qed.

Lemma body_first_column ci i x offset_y (w : World Z) :
  0 <= ci ->
  color_offset_body ci ((i, 0), x)
    (offset_y, img_width (self w) * pixel_tuple_len (self w) + ci) w =
  color_offset_body ci ((i, 0), x) (offset_y, ci) w.
Proof.
  intros Hci. unfold color_offset_body, bind, gets, py_mod.
  destruct (pixel_tuple_len (self w) =? 0); cbn [lift ret raise]; [reflexivity|].
  rewrite Zmod_0_l. cbn [Z.eqb negb]. rewrite !Z.add_0_r.
  destruct (Z.leb_spec (img_width (self w) * pixel_tuple_len (self w))
              (img_width (self w) * pixel_tuple_len (self w) + ci)); [|lia].
  destruct (img_width (self w) * pixel_tuple_len (self w) <=? ci); reflexivity.
Qed.

(** C8.  A row offset equal to the height does what a row offset of 0 does,
    and a column offset equal to the width does what a column offset of 0
    does: the two calls end in the same outcome and the same world, on every
    buffer and for every channel index. *)
Theorem full_cycle_is_zero_offset (w : World Z) (offset_x offset_y channel_index : Z) :
  shaped (inputarr (self w)) -> 0 <= channel_index ->
  color_offset offset_x (img_height (self w)) channel_index w
  = color_offset offset_x 0 channel_index w /\
  color_offset (img_width (self w)) offset_y channel_index w
  = color_offset 0 offset_y channel_index w.
Proof.
  intros Hsh Hci. unfold color_offset, bind, gets.
  destruct (ndenumerate (inputarr (self w))) as [|[[i j] x] rest] eqn:Hen.
  - split; reflexivity.
  - destruct (ndenumerate_first _ _ _ Hen) as [Hj Hi]. cbn in Hj, Hi.
    specialize (Hi Hsh). subst i j. cbn [for_each]. unfold bind. split.
    + rewrite body_first_row. reflexivity.
    + destruct (Z.eqb_spec (img_width (self w)) 0) as [Hw|Hw]; cbn [negb].
      * reflexivity.
      * rewrite body_first_column by assumption. reflexivity.
Qed.


Lemma full_cycle_is_zero_offset_witness :
  color_offset 2 4 1 rgb_world = color_offset 2 0 1 rgb_world /\
  color_offset 3 2 1 rgb_world = color_offset 0 2 1 rgb_world.
Proof.
  apply (full_cycle_is_zero_offset rgb_world 2 2 1).
  - evaluate_shape.
  - lia.
Defined.

(** ** The channel offset on the docstring array *)

(** A sample whose column is not a multiple of the tuple length is passed
    over: the loop reads the first slot of every pixel, whatever the channel
    it was called for. *)
Lemma body_skips_other_slots ci i j x locals (w : World Z) :
  pixel_tuple_len (self w) <> 0 -> j mod pixel_tuple_len (self w) <> 0 ->
  color_offset_body ci ((i, j), x) locals w = Return locals w.
Proof.
  intros Hc Hj. destruct locals as [oy ox].
  unfold color_offset_body, bind, gets, py_mod.
  destruct (Z.eqb_spec (pixel_tuple_len (self w)) 0); [contradiction|].
  cbn [lift ret]. destruct (Z.eqb_spec (j mod pixel_tuple_len (self w)) 0); [contradiction|].
  reflexivity.
Qed.

(** C1 at offsets beyond the axis, on the 4-row, 3-pixel RGB array: a row
    offset of 5 leaves every red sample in its own row, where
    [(row + 5) mod 4] is the next row; a row offset of -5 and a column offset
    of -4 end in [IndexError] at the first write. *)
Example offsets_beyond_axis :
  rows (outputarr (self (final_state (color_offset 0 5 0 rgb_world)))) = rgb_rows /\
  color_offset 0 5 0 rgb_world = color_offset 0 0 0 rgb_world /\
  color_offset 0 (-5) 0 rgb_world = Raise IndexError rgb_world /\
  color_offset (-4) 0 0 rgb_world = Raise IndexError rgb_world.
Proof. repeat split; vm_compute; reflexivity. Qed.

(** C2 on the same array, called for the green channel with no offset: the
    green slot of every pixel receives the red sample of that pixel. *)
Example green_slots_receive_red :
  rows (outputarr (self (final_state (color_offset 0 0 1 rgb_world))))
  = [[0; 0; 2; 3; 3; 5; 6; 6; 8]; [9; 9; 11; 12; 12; 14; 15; 15; 17];
     [18; 18; 20; 21; 21; 23; 24; 24; 26]; [27; 27; 29; 30; 30; 32; 33; 33; 35]].
Proof. vm_compute. reflexivity. Qed.

(** C3 on the same array, called for the blue channel with both offsets 0
    and the destination a copy of the source: the blue samples do not stay as
    they were, each is replaced by the red sample of its pixel. *)
Example zero_offset_changes_blue :
  outputarr (self rgb_world) = inputarr (self rgb_world) /\
  rows (outputarr (self (final_state (color_offset 0 0 2 rgb_world))))
  = [[0; 1; 0; 3; 4; 3; 6; 7; 6]; [9; 10; 9; 12; 13; 12; 15; 16; 15];
     [18; 19; 18; 21; 22; 21; 24; 25; 24]; [27; 28; 27; 30; 31; 30; 33; 34; 33]] /\
  rows (outputarr (self (final_state (color_offset 0 0 2 rgb_world)))) <> rgb_rows.
Proof. repeat split; vm_compute; first [reflexivity | discriminate]. Qed.

(** The same failure through [glitch_image]: intensity 3 on the 3x4 image
    makes every round a skip and then draws both offsets as -5. *)
Example glitch_image_index_error :
  glitch_image (ImageFile rgb_image) 3 (constant_rng 1) = Bad IndexError.
Proof. vm_compute. reflexivity. Qed.

(** ** The loop on images of at least four rows *)

Lemma rotate_right_length {A} width offset (row : list A) :
  length (rotate_right width offset row) = length row.
Proof. unfold rotate_right. rewrite length_app, length_drop, length_take. lia. Qed.

Lemma glitch_right_well_formed {E} (w : World E) offset :
  well_formed w -> 4 <= img_height (self w) < 2 ^ 53 ->
  0 <= offset <= img_width (self w) ->
  exists w', glitch_right offset w = Return tt w' /\ well_formed w'.
Proof.
  intros Hwf Hh Ho.
  destruct (glitch_right_rows w offset Hwf Hh Ho) as (out' & Hrun & Hn & Hc & Hl & Hrows).
  destruct Hwf as (HsI & HsO & HnI & HnO & HcI & HcO).
  pose proof HsI as (? & ? & HlI & _). pose proof HsO as (? & ? & HlO & _).
  eexists. split; [exact Hrun|].
  unfold well_formed, shaped. cbn [set_outputarr self inputarr outputarr drawn
    img_height img_width].
  repeat split; try lia; try tauto; try apply HsI.
  apply Forall_lookup. intros i row Hi.
  destruct (lookup_lt_is_Some_2 (rows (outputarr (self w))) i) as [orow Horow].
  { apply lookup_lt_Some in Hi. lia. }
  destruct (lookup_lt_is_Some_2 (rows (inputarr (self w))) i) as [src Hsrc].
  { apply lookup_lt_Some in Hi. lia. }
  rewrite (Hrows i orow src Horow Hsrc) in Hi. injection Hi as <-.
  pose proof (shaped_row _ _ _ HsO Horow). pose proof (shaped_row _ _ _ HsI Hsrc).
  destruct (in_band w i); [rewrite rotate_right_length|]; lia.
Qed.

(** On a well-formed image of at least four rows the glitching loop never
    fails, whatever it draws, and hands on a well-formed world. *)
Lemma rounds_well_formed {E} max_offset n :
  forall w : World E,
    well_formed w -> 4 <= img_height (self w) < 2 ^ 53 ->
    0 <= max_offset <= img_width (self w) ->
    exists w',
      repeat_rounds n (glitch_round_with glitch_left glitch_right max_offset) w
      = Return tt w' /\ well_formed w' /\ same_source w w'.
Proof.
  induction n as [|n IH]; intros w Hwf Hh Hmo.
  - exists w. split; [reflexivity|]. split; [assumption | apply same_source_refl].
  - cbn [repeat_rounds]. unfold bind.
    assert (Hround : exists w1,
               glitch_round_with glitch_left glitch_right max_offset w = Return tt w1 /\
               well_formed w1 /\ same_source w w1).
    { rewrite glitch_round_right_only. unfold bind. rewrite randint_run by lia.
      pose proof (in_range_bounds 0 max_offset (next_draw (rng w)) ltac:(lia)) as Hd.
      destruct (in_range 0 max_offset (next_draw (rng w)) =? 0).
      - exists (drawn w). repeat split; apply Hwf.
      - destruct (glitch_right_well_formed (drawn w)
                    (in_range 0 max_offset (next_draw (rng w))))
          as (w1 & Hrun & Hwf1); [exact Hwf | exact Hh | cbn; lia |].
        exists w1. repeat split; try apply Hwf1; try exact Hrun.
        all: pose proof (frames_glitch_right
                           (in_range 0 max_offset (next_draw (rng w))) (drawn w)) as Hf;
          rewrite Hrun in Hf; apply Hf. }
    destruct Hround as (w1 & -> & Hwf1 & Hs1).
    destruct Hs1 as (HI & HW & HH & HC).
    destruct (IH w1 Hwf1 ltac:(lia) ltac:(lia)) as (w' & Hrun & Hwf' & Hs').
    exists w'. split; [exact Hrun|]. split; [exact Hwf'|].
    eapply same_source_trans; [|exact Hs']. repeat split; assumption.
Qed.


(** ** Index arithmetic of the channel offset *)

Lemma norm_index_mod n v : - n <= v < n -> norm_index n v = Some (v mod n).
Proof.
  intros Hv. unfold norm_index.
  destruct (Z.leb_spec 0 v), (Z.ltb_spec v n); cbn [andb]; try lia.
  - rewrite Z.mod_small by lia. reflexivity.
  - destruct (Z.leb_spec (- n) v), (Z.ltb_spec v 0); cbn [andb]; try lia.
    f_equal. rewrite <- (Z.mod_add v 1 n) by lia. rewrite Z.mod_small; lia.
Qed.

Lemma mod_shift n v k : 0 < n -> (v + k * n) mod n = v mod n.
Proof. intros Hn. apply Z.mod_add. lia. Qed.

Lemma mod_shift_inj n s a b :
  0 <= a < n -> 0 <= b < n -> (a + s) mod n = (b + s) mod n -> a = b.
Proof.
  intros Ha Hb Heq.
  pose proof (Z.div_mod (a + s) n ltac:(lia)) as H1.
  pose proof (Z.div_mod (b + s) n ltac:(lia)) as H2.
  rewrite Heq in H1.
  assert (Hd : a - b = n * ((a + s) / n - (b + s) / n)) by lia.
  assert ((a + s) / n - (b + s) / n = 0) by nia. lia.
Qed.

Lemma sample_in_shape height flat_width (a : ndarray Z) r c :
  flat_shape height flat_width a -> 0 <= r < height -> 0 <= c < flat_width ->
  is_Some (sample a r c).
Proof.
  intros ((_ & _ & Hl & Hall) & Hn & Hc) Hr Hcc. unfold sample.
  destruct (lookup_lt_is_Some_2 (rows a) (Z.to_nat r)) as [row Hrow]; [lia|].
  rewrite Hrow. apply lookup_lt_is_Some_2.
  rewrite Forall_lookup in Hall. specialize (Hall _ _ Hrow). cbn in Hall. lia.
Qed.

(** A single write inside the array: it succeeds, keeps the shape and
    changes the one sample it names. *)
Lemma setitem_at_sample height flat_width (a : ndarray Z) i j x :
  flat_shape height flat_width a -> - height <= i < height -> - flat_width <= j < flat_width ->
  exists a',
    setitem_at a i j x = Good a' /\ flat_shape height flat_width a' /\
    forall r c, 0 <= r < height -> 0 <= c < flat_width ->
      sample a' r c =
      if (r =? i mod height) && (c =? j mod flat_width) then Some x else sample a r c.
Proof.
  intros ((Hn0 & Hc0 & Hl & Hall) & <- & <-) Hi Hj. unfold setitem_at.
  set (height := nrows a) in *. set (flat_width := ncols a) in *.
  rewrite (norm_index_mod height i), (norm_index_mod flat_width j) by lia.
  pose proof (Z.mod_pos_bound i height ltac:(lia)) as Hi'.
  pose proof (Z.mod_pos_bound j flat_width ltac:(lia)) as Hj'.
  eexists. split; [reflexivity|]. split.
  - unfold flat_shape, shaped. cbn [nrows ncols rows]. rewrite length_alter.
    repeat split; try lia.
    apply Forall_lookup. intros k row Hk.
    rewrite Forall_lookup in Hall.
    destruct (decide (k = Z.to_nat (i mod height))) as [->|Hne].
    + rewrite list_lookup_alter_eq in Hk.
      destruct (rows a !! Z.to_nat (i mod height)) as [row0|] eqn:Hrow0; [|discriminate].
      injection Hk as <-. rewrite length_insert. apply (Hall _ _ Hrow0).
    + rewrite list_lookup_alter_ne in Hk by congruence. apply (Hall _ _ Hk).
  - intros r c Hr Hcc. unfold sample. cbn [rows].
    destruct (Z.eqb_spec r (i mod height)) as [->|Hne]; cbn [andb].
    + rewrite list_lookup_alter_eq.
      destruct (lookup_lt_is_Some_2 (rows a) (Z.to_nat (i mod height))) as [row Hrow]; [lia|].
      rewrite Hrow. cbn [fmap option_fmap option_map].
      rewrite Forall_lookup in Hall. specialize (Hall _ _ Hrow). cbn in Hall.
      destruct (Z.eqb_spec c (j mod flat_width)) as [->|Hnc].
      * apply list_lookup_insert_eq. lia.
      * apply list_lookup_insert_ne. lia.
    + rewrite list_lookup_alter_ne by lia. reflexivity.
Qed.

(** ** The two locals of the channel offset *)

(** The rebinding of [offset_y] at a sample that is written. *)
Lemma row_ok_step height offset_y0 i started offset_y :
  0 <= i < height -> row_ok height offset_y0 i started offset_y ->
  let offset_y' := if height <=? offset_y + i then - i else offset_y in
  row_ok height offset_y0 i true offset_y' /\
  - height <= offset_y' + i < height /\
  (offset_y' + i) mod height = (i + offset_y0) mod height.
Proof.
  intros Hi ([k Hk] & Hlo & Hhi). cbv zeta. unfold row_ok. cbv iota.
  assert (offset_y + i <= height) by (destruct started; lia).
  destruct (Z.leb_spec height (offset_y + i)).
  - assert (Heq : - i = offset_y0 + (k - 1) * height) by lia.
    split; [split; [exists (k - 1); exact Heq | lia] | split; [lia|]].
    rewrite Heq. replace (offset_y0 + (k - 1) * height + i)
      with (i + offset_y0 + (k - 1) * height) by lia.
    apply mod_shift. lia.
  - split; [split; [exists k; exact Hk | lia] | split; [lia|]].
    rewrite Hk. replace (offset_y0 + k * height + i)
      with (i + offset_y0 + k * height) by lia.
    apply mod_shift. lia.
Qed.

(** The rebinding of [offset_x] at the first slot of pixel [m]. *)
Lemma col_ok_step width tuple_len channel_index pixels m offset_x :
  1 <= tuple_len -> 0 <= channel_index < tuple_len -> 0 <= m < width ->
  col_ok (width * tuple_len) tuple_len channel_index
         (pixels * tuple_len + channel_index) m offset_x ->
  let j := m * tuple_len in
  let offset_x' :=
    if width * tuple_len <=? offset_x + j then - j + channel_index else offset_x in
  col_ok (width * tuple_len) tuple_len channel_index
         (pixels * tuple_len + channel_index) (m + 1) offset_x' /\
  - (width * tuple_len) <= offset_x' + j < width * tuple_len /\
  (offset_x' + j) mod (width * tuple_len)
  = (j + (pixels * tuple_len + channel_index)) mod (width * tuple_len) /\
  (offset_x' + j) mod tuple_len = channel_index.
Proof.
  intros Hc Hci Hm ([k Hk] & Hlo & Hhi). cbv zeta. unfold col_ok.
  set (q := pixels + k * width + m).
  assert (Hq : offset_x + m * tuple_len = q * tuple_len + channel_index)
    by (unfold q; lia).
  assert (Hqw : q <= width) by nia.
  assert (Hwc : 0 < width * tuple_len) by nia.
  destruct (Z.leb_spec (width * tuple_len) (offset_x + m * tuple_len)).
  - assert (q = width) by nia.
    assert (Heq : - (m * tuple_len) + channel_index
                  = pixels * tuple_len + channel_index + (k - 1) * (width * tuple_len))
      by (unfold q in *; nia).
    split; [split; [exists (k - 1); exact Heq | nia] | split; [nia | split]].
    + rewrite Heq.
      replace (pixels * tuple_len + channel_index + (k - 1) * (width * tuple_len)
               + m * tuple_len)
        with (m * tuple_len + (pixels * tuple_len + channel_index)
              + (k - 1) * (width * tuple_len)) by lia.
      apply mod_shift. lia.
    + replace (- (m * tuple_len) + channel_index + m * tuple_len) with channel_index by lia.
      apply Z.mod_small. lia.
  - assert (q < width) by nia.
    split; [split; [exists k; exact Hk | nia] | split; [nia | split]].
    + rewrite Hk.
      replace (pixels * tuple_len + channel_index + k * (width * tuple_len) + m * tuple_len)
        with (m * tuple_len + (pixels * tuple_len + channel_index)
              + k * (width * tuple_len)) by lia.
      apply mod_shift. lia.
    + rewrite Hq, Z.add_comm, Z.mod_add by lia. apply Z.mod_small. lia.
Qed.

(** The first slot of a pixel is the only multiple of the tuple length in
    its stretch of columns. *)
Lemma first_slot tuple_len m j :
  1 <= tuple_len -> (m - 1) * tuple_len < j <= m * tuple_len ->
  j mod tuple_len = 0 <-> j = m * tuple_len.
Proof.
  intros Hc Hj. split.
  - intros Hmod. apply Z.mod_divide in Hmod; [|lia]. destruct Hmod as [q ->].
    assert (m - 1 < q) by (apply Z.mul_lt_mono_pos_r with tuple_len; lia).
    assert (q <= m) by (apply Z.mul_le_mono_pos_r with tuple_len; lia).
    f_equal. lia.
  - intros ->. apply Z.mod_mul. lia.
Qed.

(** ** The loop of the channel offset *)

Lemma for_each_app {S A L} (l1 l2 : list A) (body : A -> L -> M S L) locals s :
  for_each (l1 ++ l2) body locals s =
  match for_each l1 body locals s with
  | Return locals' s' => for_each l2 body locals' s'
  | Raise e s' => Raise e s'
  end.
Proof.
  revert locals s. induction l1 as [|item l1 IH]; intros locals s; cbn [app for_each].
  - reflexivity.
  - unfold bind. destruct (body item locals s); [apply IH | reflexivity].
Qed.

Lemma enum_row_cons i j0 x r :
  enum_row i j0 (x :: r) = ((i, j0), x) :: enum_row i (j0 + 1) r.
Proof.
  unfold enum_row. cbn [imap]. f_equal.
  - rewrite Z.add_0_r. reflexivity.
  - apply imap_ext. intros n y _. cbn. do 2 f_equal. lia.
Qed.

Lemma enum_rows_cons i0 r l :
  enum_rows i0 (r :: l) = enum_row i0 0 r ++ enum_rows (i0 + 1) l.
Proof.
  unfold enum_rows. cbn [imap concat]. rewrite Z.add_0_r. do 2 f_equal.
  apply imap_ext. intros n y _. cbn. f_equal. lia.
Qed.

Lemma ndenumerate_enum_rows (a : ndarray Z) : ndenumerate a = enum_rows 0 (rows a).
Proof. reflexivity. Qed.

Lemma mod_mod_tuple v width tuple_len :
  1 <= tuple_len -> 1 <= width -> (v mod (width * tuple_len)) mod tuple_len = v mod tuple_len.
Proof.
  intros Hc Hw.
  rewrite (Z.div_mod v (width * tuple_len)) at 2 by nia.
  replace (width * tuple_len * (v / (width * tuple_len)) + v mod (width * tuple_len))
    with (v mod (width * tuple_len) + (width * (v / (width * tuple_len))) * tuple_len) by lia.
  rewrite Z.mod_add by lia. reflexivity.
Qed.

Section ChannelOffsetInRange.

Variable w : World Z.
Variables offset_x offset_y channel_index : Z.

Local Abbreviation height := (img_height (self w)).
Local Abbreviation width := (img_width (self w)).
Local Abbreviation tuple_len := (pixel_tuple_len (self w)).
Local Abbreviation flat_offset := (offset_x * tuple_len + channel_index).

Hypothesis Hwf : flat_well_formed w.
Hypothesis Hci : 0 <= channel_index < tuple_len.
Hypothesis Hwidth : 1 <= width.

(** A first slot: the sample is written at its wrapped place. *)
Lemma body_written i m x started oyc oxc (a : ndarray Z) :
  0 <= i < height -> 0 <= m < width ->
  sample (inputarr (self w)) i (m * tuple_len) = Some x ->
  row_ok height offset_y i started oyc ->
  col_ok (width * tuple_len) tuple_len channel_index flat_offset m oxc ->
  flat_shape height (width * tuple_len) a ->
  moved_before w offset_y flat_offset i (m * tuple_len) a ->
  others_kept w channel_index a ->
  exists oyc' oxc' a',
    color_offset_body channel_index ((i, m * tuple_len), x) (oyc, oxc) (set_outputarr a w)
    = Return (oyc', oxc') (set_outputarr a' w) /\
    row_ok height offset_y i true oyc' /\
    col_ok (width * tuple_len) tuple_len channel_index flat_offset (m + 1) oxc' /\
    flat_shape height (width * tuple_len) a' /\
    moved_before w offset_y flat_offset i (m * tuple_len + 1) a' /\
    others_kept w channel_index a'.
Proof.
  intros Hi Hm Hx Hrow Hcol Hshape Hmoved Hkept.
  destruct Hwf as (Hc & _ & _).
  destruct (row_ok_step _ _ _ _ _ Hi Hrow) as (Hrow' & Hri & Hrmod).
  destruct (col_ok_step _ _ _ _ _ _ Hc Hci Hm Hcol) as (Hcol' & Hcj & Hcmod & Hslot).
  cbv zeta in *.
  set (oyc' := if height <=? oyc + i then - i else oyc) in *.
  set (oxc' := if width * tuple_len <=? oxc + m * tuple_len
               then - (m * tuple_len) + channel_index else oxc) in *.
  destruct (setitem_at_sample _ _ a (oyc' + i) (oxc' + m * tuple_len) x Hshape Hri Hcj)
    as (a' & Hset & Hshape' & Hsample).
  assert (Hwc : 0 < width * tuple_len) by nia.
  exists oyc', oxc', a'.
  split; [|split; [exact Hrow'|split; [exact Hcol'|split; [exact Hshape'|split]]]].
  - unfold color_offset_body, bind, gets, py_mod.
    cbn [self set_outputarr pixel_tuple_len img_height img_width].
    destruct (Z.eqb_spec tuple_len 0); [lia|]. cbn [lift ret].
    rewrite Z.mod_mul by lia. cbn [Z.eqb negb].
    unfold assign_at, bind, gets.
    cbn [self set_outputarr outputarr pixel_tuple_len img_height img_width].
    fold oyc' oxc'. rewrite Hset. reflexivity.
  - intros i' j' Hi' Hj' Hmod Hbefore.
    pose proof (Z.mod_pos_bound (i' + offset_y) height ltac:(lia)).
    pose proof (Z.mod_pos_bound (j' + flat_offset) (width * tuple_len) ltac:(lia)).
    rewrite Hsample by assumption. rewrite Hrmod, Hcmod.
    destruct (Z.eqb_spec ((i' + offset_y) mod height) ((i + offset_y) mod height))
      as [Hre|Hre]; cbn [andb].
    + apply mod_shift_inj in Hre; [|lia|lia]. subst i'.
      destruct (Z.eqb_spec ((j' + flat_offset) mod (width * tuple_len))
                  ((m * tuple_len + flat_offset) mod (width * tuple_len))) as [Hce|Hce].
      * apply mod_shift_inj in Hce; [|lia|nia]. subst j'. symmetry. exact Hx.
      * apply Hmoved; try assumption.
        destruct Hbefore as [?|[_ ?]]; [lia|].
        right. split; [reflexivity|].
        assert (j' <> m * tuple_len) by (intros ->; apply Hce; reflexivity). lia.
    + apply Hmoved; try assumption.
      destruct Hbefore as [?|[-> ?]]; [left; assumption | contradiction Hre; reflexivity].
  - intros r c Hr Hcc Hmod. rewrite Hsample by assumption.
    destruct (Z.eqb_spec c ((oxc' + m * tuple_len) mod (width * tuple_len))) as [->|Hne].
    + exfalso. apply Hmod. rewrite mod_mod_tuple by lia. exact Hslot.
    + rewrite andb_false_r. apply Hkept; assumption.
Qed.

(** The samples of one row, from column [j0] on. *)
Lemma row_loop i :
  0 <= i < height ->
  forall (r : list Z) (j0 m : Z) (started : bool) (oyc oxc : Z) (a : ndarray Z),
    0 <= j0 -> j0 + Z.of_nat (length r) = width * tuple_len ->
    (forall (n : nat) x, r !! n = Some x ->
        sample (inputarr (self w)) i (j0 + Z.of_nat n) = Some x) ->
    (m - 1) * tuple_len < j0 <= m * tuple_len -> (j0 <> 0 -> started = true) ->
    row_ok height offset_y i started oyc ->
    col_ok (width * tuple_len) tuple_len channel_index flat_offset m oxc ->
    flat_shape height (width * tuple_len) a ->
    moved_before w offset_y flat_offset i j0 a ->
    others_kept w channel_index a ->
    exists oyc' oxc' a',
      for_each (enum_row i j0 r) (color_offset_body channel_index) (oyc, oxc)
               (set_outputarr a w)
      = Return (oyc', oxc') (set_outputarr a' w) /\
      row_ok height offset_y i true oyc' /\
      col_ok (width * tuple_len) tuple_len channel_index flat_offset width oxc' /\
      flat_shape height (width * tuple_len) a' /\
      moved_before w offset_y flat_offset i (width * tuple_len) a' /\
      others_kept w channel_index a'.
Proof.
  intros Hi. pose proof Hwf as (Hc & _ & _).
  induction r as [|x r IH];
    intros j0 m started oyc oxc a Hj0 Hlen Hsrc Hm Hst Hrow Hcol Hshape Hmoved Hkept.
  - cbn [length] in Hlen. rewrite Z.add_0_r in Hlen. subst j0.
    assert (m = width).
    { assert (m - 1 < width) by (apply Z.mul_lt_mono_pos_r with tuple_len; lia).
      assert (width <= m) by (apply Z.mul_le_mono_pos_r with tuple_len; lia). lia. }
    subst m. rewrite Hst in Hrow by nia.
    exists oyc, oxc, a. tauto.
  - rewrite enum_row_cons. cbn [for_each]. unfold bind.
    cbn [length] in Hlen. rewrite Nat2Z.inj_succ in Hlen.
    assert (Hx : sample (inputarr (self w)) i j0 = Some x).
    { specialize (Hsrc 0%nat x eq_refl). rewrite Z.add_0_r in Hsrc. exact Hsrc. }
    assert (Hsrc' : forall (n : nat) y, r !! n = Some y ->
                      sample (inputarr (self w)) i (j0 + 1 + Z.of_nat n) = Some y).
    { intros n y Hy. specialize (Hsrc (S n) y Hy).
      rewrite Nat2Z.inj_succ in Hsrc. replace (j0 + 1 + Z.of_nat n)
        with (j0 + Z.succ (Z.of_nat n)) by lia. exact Hsrc. }
    destruct (Z.eq_dec (j0 mod tuple_len) 0) as [Hslot|Hslot].
    + apply (first_slot tuple_len m j0 Hc Hm) in Hslot. subst j0.
      assert (Hmw : 0 <= m < width).
      { split; [apply Z.mul_le_mono_pos_r with tuple_len; lia|].
        apply Z.mul_lt_mono_pos_r with tuple_len; lia. }
      destruct (body_written i m x started oyc oxc a Hi Hmw Hx Hrow Hcol Hshape Hmoved Hkept)
        as (oyc1 & oxc1 & a1 & -> & Hrow1 & Hcol1 & Hshape1 & Hmoved1 & Hkept1).
      apply (IH (m * tuple_len + 1) (m + 1) true oyc1 oxc1 a1);
        try assumption; try lia; try reflexivity.
    + rewrite body_skips_other_slots by (cbn; lia).
      assert (j0 <> m * tuple_len).
      { intros ->. apply Hslot. apply Z.mod_mul. lia. }
      assert (j0 <> 0) by (intros ->; apply Hslot; apply Z.mod_0_l; lia).
      apply (IH (j0 + 1) m started oyc oxc a); try assumption; try lia.
      { intros _. apply Hst. assumption. }
      intros i' j' Hi' Hj' Hmod Hbefore. apply Hmoved; try assumption.
      destruct Hbefore as [?|[-> ?]]; [left; assumption|].
      right. split; [reflexivity|].
      assert (j' <> j0) by (intros ->; contradiction). lia.
Qed.

(** The rows from [i0] on. *)
Lemma rows_loop :
  forall (l : list (list Z)) (i0 oyc oxc : Z) (a : ndarray Z),
    0 <= i0 -> i0 + Z.of_nat (length l) = height ->
    (forall (n : nat) r, l !! n = Some r ->
        rows (inputarr (self w)) !! Z.to_nat (i0 + Z.of_nat n) = Some r) ->
    row_ok height offset_y i0 false oyc ->
    col_ok (width * tuple_len) tuple_len channel_index flat_offset 0 oxc ->
    flat_shape height (width * tuple_len) a ->
    moved_before w offset_y flat_offset i0 0 a ->
    others_kept w channel_index a ->
    exists locals' a',
      for_each (enum_rows i0 l) (color_offset_body channel_index) (oyc, oxc)
               (set_outputarr a w)
      = Return locals' (set_outputarr a' w) /\
      flat_shape height (width * tuple_len) a' /\
      moved_before w offset_y flat_offset height 0 a' /\
      others_kept w channel_index a'.
Proof.
  pose proof Hwf as (Hc & ((_ & _ & _ & Hall) & _ & HcI) & _).
  induction l as [|r l IH]; intros i0 oyc oxc a Hi0 Hlen Hsrc Hrow Hcol Hshape Hmoved Hkept.
  - cbn [length] in Hlen. rewrite Z.add_0_r in Hlen. subst i0.
    exists (oyc, oxc), a. tauto.
  - cbn [length] in Hlen. rewrite Nat2Z.inj_succ in Hlen.
    rewrite enum_rows_cons, for_each_app.
    pose proof (Hsrc 0%nat r eq_refl) as Hr. rewrite Z.add_0_r in Hr.
    assert (Hrl : Z.of_nat (length r) = width * tuple_len).
    { rewrite Forall_lookup in Hall. rewrite <- HcI. apply (Hall _ _ Hr). }
    destruct (row_loop i0 ltac:(lia) r 0 0 false oyc oxc a) as
      (oyc1 & oxc1 & a1 & -> & Hrow1 & Hcol1 & Hshape1 & Hmoved1 & Hkept1);
      try assumption; try lia.
    { intros n x Hx. unfold sample. rewrite Hr. rewrite Z.add_0_l, Nat2Z.id. exact Hx. }
    apply (IH (i0 + 1) oyc1 oxc1 a1); try assumption; try lia.
    + intros n r' Hr'. specialize (Hsrc (S n) r' Hr').
      rewrite Nat2Z.inj_succ in Hsrc.
      replace (i0 + 1 + Z.of_nat n) with (i0 + Z.succ (Z.of_nat n)) by lia. exact Hsrc.
    + destruct Hrow1 as (Hk & Hlo & Hhi). cbv iota in Hhi.
      split; [exact Hk|]. cbv iota. lia.
    + destruct Hcol1 as (Hk & Hlo & Hhi).
      split; [exact Hk|]. nia.
    + intros i' j' Hi' Hj' Hmod Hbefore. apply Hmoved1; try assumption.
      destruct Hbefore as [?|[_ ?]]; [|lia].
      destruct (Z.eq_dec i' i0) as [->|]; [right; split; [reflexivity | lia] | left; lia].
Qed.

End ChannelOffsetInRange.

(** Within one length of each axis the channel offset is the toroidal
    copy: for [-height <= offset_y <= height] and [-width <= offset_x <= width]
    the call returns normally, the first-slot sample of every pixel
    [(row, col)] of the source ends at
    [((row + offset_y) mod height, (col + flat_offset) mod flat_width)] with
    [flat_offset = offset_x * tuple_len + channel_index], and the slots of the
    other channels keep what the destination held. *)
Theorem channel_offset_in_range (w : World Z) (offset_x offset_y channel_index : Z) :
  flat_well_formed w ->
  0 <= channel_index < pixel_tuple_len (self w) ->
  - img_height (self w) <= offset_y <= img_height (self w) ->
  - img_width (self w) <= offset_x <= img_width (self w) ->
  exists out',
    color_offset offset_x offset_y channel_index w = Return tt (set_outputarr out' w) /\
    flat_shape (img_height (self w)) (img_width (self w) * pixel_tuple_len (self w)) out' /\
    (forall row col,
        0 <= row < img_height (self w) ->
        0 <= col < img_width (self w) * pixel_tuple_len (self w) ->
        col mod pixel_tuple_len (self w) = 0 ->
        sample out' ((row + offset_y) mod img_height (self w))
                    ((col + (offset_x * pixel_tuple_len (self w) + channel_index))
                       mod (img_width (self w) * pixel_tuple_len (self w)))
        = sample (inputarr (self w)) row col) /\
    (forall row col,
        0 <= row < img_height (self w) ->
        0 <= col < img_width (self w) * pixel_tuple_len (self w) ->
        col mod pixel_tuple_len (self w) <> channel_index ->
        sample out' row col = sample (outputarr (self w)) row col).
Proof.
  intros Hwf Hci Hoy Hox.
  pose proof Hwf as (Hc & (HsI & HnI & HcI) & HsO).
  pose proof HsI as (_ & Hw0 & HlI & Hall).
  destruct w as [g [iw ih tl input output]].
  cbn [self img_width img_height pixel_tuple_len inputarr outputarr] in *.
  destruct (Z.eq_dec iw 0) as [->|Hiw].
  - exists output. cbn [set_outputarr rng self img_width img_height pixel_tuple_len inputarr].
    split; [|split; [exact HsO | split; intros; lia]].
    unfold color_offset, bind, gets. cbn [self pixel_tuple_len inputarr].
    replace (ndenumerate input) with (@nil ((Z * Z) * Z)); [reflexivity|].
    symmetry. apply enumerate_empty_rows; [reflexivity|].
    eapply Forall_impl; [exact Hall|]. intros r Hr. cbn in Hr.
    destruct r; [reflexivity | cbn in Hr; lia].
  - assert (Hiw1 : 1 <= iw) by nia.
    set (w0 := {| rng := g;
                  self := {| img_width := iw; img_height := ih; pixel_tuple_len := tl;
                             inputarr := input; outputarr := output |} |}).
    destruct (rows_loop w0 offset_x offset_y channel_index Hwf Hci Hiw1
                (rows input) 0 offset_y (offset_x * tl + channel_index) output)
      as (locals' & a' & Hrun & Hshape & Hmoved & Hkept); cbn [w0 self img_width img_height
        pixel_tuple_len inputarr outputarr]; try lia; try assumption.
    + intros n r Hr. rewrite Z.add_0_l, Nat2Z.id. exact Hr.
    + split; [exists 0; lia | cbv iota; lia].
    + split; [exists 0; lia | nia].
    + intros i' j' Hi' Hj' Hmod Hbefore. lia.
    + intros r c Hr Hcc Hmod. reflexivity.
    + exists a'. split; [|split; [exact Hshape | split]].
      * unfold color_offset, bind, gets. rewrite ndenumerate_enum_rows. subst w0.
        unfold set_outputarr in Hrun |- *.
        cbn [rng self img_width img_height pixel_tuple_len inputarr outputarr]
          in Hrun |- *.
        replace (if negb (offset_x =? 0) then offset_x * tl + channel_index
                 else channel_index)
          with (offset_x * tl + channel_index)
          by (destruct (Z.eqb_spec offset_x 0) as [->|]; cbn [negb]; lia).
        rewrite Hrun. reflexivity.
      * intros row col Hrow Hcol Hmod.
        apply (Hmoved row col); cbn [w0 self img_width img_height pixel_tuple_len];
          try assumption. left. lia.
      * intros row col Hrow Hcol Hmod.
        apply (Hkept row col); cbn [w0 self img_width img_height pixel_tuple_len];
          assumption.
Qed.


Lemma channel_offset_in_range_witness :
  exists out',
    color_offset (-3) 4 2 rgb_world = Return tt (set_outputarr out' rgb_world) /\
    flat_shape 4 (3 * 3) out' /\
    (forall row col,
        0 <= row < 4 -> 0 <= col < 3 * 3 -> col mod 3 = 0 ->
        sample out' ((row + 4) mod 4) ((col + (-3 * 3 + 2)) mod (3 * 3))
        = sample rgb_array row col) /\
    (forall row col,
        0 <= row < 4 -> 0 <= col < 3 * 3 -> col mod 3 <> 2 ->
        sample out' row col = sample rgb_array row col).
Proof.
  apply (channel_offset_in_range rgb_world (-3) 4 2).
  - evaluate_shape.
  - cbn. lia.
  - cbn. lia.
  - cbn. lia.
Defined.

(** Two arrays of one shape that agree on every sample are equal. *)
Lemma flat_shape_eq height flat_width (a b : ndarray Z) :
  flat_shape height flat_width a -> flat_shape height flat_width b ->
  (forall r c, 0 <= r < height -> 0 <= c < flat_width -> sample a r c = sample b r c) ->
  a = b.
Proof.
  intros ((_ & _ & Hla & Halla) & Hna & Hca) ((_ & _ & Hlb & Hallb) & Hnb & Hcb) Hsame.
  destruct a as [na ca ra], b as [nb cb rb]. cbn [nrows ncols rows] in *.
  subst na ca nb cb. f_equal; [congruence|]. apply list_eq. intros i.
  rewrite Forall_lookup in Halla, Hallb.
  destruct (ra !! i) as [rowa|] eqn:Hrowa.
  - destruct (lookup_lt_is_Some_2 rb i) as [rowb Hrowb].
    { apply lookup_lt_Some in Hrowa. lia. }
    rewrite Hrowb. f_equal. apply list_eq. intros j.
    pose proof (Halla _ _ Hrowa) as Hlena. pose proof (Hallb _ _ Hrowb) as Hlenb.
    cbn in Hlena, Hlenb.
    destruct (decide (j < length rowa)%nat) as [Hj|Hj].
    + specialize (Hsame (Z.of_nat i) (Z.of_nat j)). unfold sample in Hsame.
      cbn [rows] in Hsame. rewrite !Nat2Z.id, Hrowa, Hrowb in Hsame.
      apply Hsame; [apply lookup_lt_Some in Hrowa|]; lia.
    + rewrite !lookup_ge_None_2 by lia. reflexivity.
  - apply lookup_ge_None in Hrowa. rewrite lookup_ge_None_2 by lia. reflexivity.
Qed.

(** X12.  Called for the first channel with both offsets 0 on a destination that
    is a copy of the source, the channel offset changes nothing. *)
Lemma first_channel_identity (w : World Z) :
  flat_well_formed w -> outputarr (self w) = inputarr (self w) ->
  color_offset 0 0 0 w = Return tt w.
Proof.
  intros Hwf Hcopy.
  pose proof Hwf as (Hc & ((Hh0 & Hw0 & _) & HnI & HcI) & HsO).
  assert (0 <= img_width (self w)) by nia.
  destruct (channel_offset_in_range w 0 0 0 Hwf ltac:(lia) ltac:(lia) ltac:(lia))
    as (out' & Hrun & Hshape & Hmoved & Hkept).
  assert (Heq : out' = outputarr (self w)).
  { apply (flat_shape_eq _ _ _ _ Hshape HsO). intros r c Hr Hcc.
    destruct (Z.eq_dec (c mod pixel_tuple_len (self w)) 0) as [Hslot|Hslot].
    - specialize (Hmoved r c Hr Hcc Hslot).
      rewrite Z.add_0_r, Z.mul_0_l, Z.add_0_r, !Z.mod_small in Hmoved by lia.
      rewrite Hmoved, Hcopy. reflexivity.
    - apply Hkept; assumption. }
  rewrite Hrun, Heq. destruct w as [g [iw ih tl input output]]. reflexivity.
Qed.

(** ** Rounding never passes a representable integer *)

Lemma shr_1_inv m0 scale mrs :
  0 < scale -> shr_inv m0 scale mrs -> shr_inv m0 (2 * scale) (shr_1 mrs).
Proof.
  intros Hs (Hm & Hle & Hlt). destruct mrs as [m r s]. cbn [shr_m shr_r shr_s] in *.
  unfold shr_inv.
  destruct m as [|[p|p|]|p]; cbn [shr_1 shr_m shr_r shr_s]; try lia.
  - split; [lia|]. split; [lia|]. rewrite orb_false_l. intros H. specialize (Hlt H). lia.
  - split; [lia|]. split; [lia|]. rewrite orb_false_l. intros H. specialize (Hlt H). lia.
Qed.

Lemma iter_shr_1_inv m0 n :
  forall scale mrs,
    0 < scale -> shr_inv m0 scale mrs ->
    shr_inv m0 (scale * 2 ^ Z.pos n) (SpecFloat.iter_pos shr_1 n mrs).
Proof.
  induction n as [n IH|n IH|]; intros scale mrs Hs Hinv; cbn [SpecFloat.iter_pos].
  - assert (Hp : 0 < 2 ^ Z.pos n) by (apply Z.pow_pos_nonneg; lia).
    replace (scale * 2 ^ Z.pos n~1) with (2 * scale * 2 ^ Z.pos n * 2 ^ Z.pos n).
    + apply IH; [nia|]. apply IH; [lia|]. apply shr_1_inv; assumption.
    + rewrite (Pos2Z.inj_xI n).
      replace (2 * Z.pos n + 1) with (Z.pos n + Z.pos n + 1) by lia.
      rewrite !Z.pow_add_r by lia. change (2 ^ 1) with 2. ring.
  - assert (Hp : 0 < 2 ^ Z.pos n) by (apply Z.pow_pos_nonneg; lia).
    replace (scale * 2 ^ Z.pos n~0) with (scale * 2 ^ Z.pos n * 2 ^ Z.pos n).
    + apply IH; [nia|]. apply IH; [lia|]. assumption.
    + rewrite (Pos2Z.inj_xO n).
      replace (2 * Z.pos n) with (Z.pos n + Z.pos n) by lia.
      rewrite !Z.pow_add_r by lia. ring.
  - change (2 ^ 1) with 2. rewrite Z.mul_comm. apply shr_1_inv; assumption.
Qed.

(** The first step of a rounding: the mantissa is shifted right by [n]
    bits, [n] being 0 or what brings the exponent to the one of the
    format. *)
Lemma shr_fexp_exact m e :
  0 <= m ->
  exists mrs n,
    shr_fexp 53 1024 m e loc_Exact = (mrs, e + n) /\ 0 <= n /\
    shr_inv m (2 ^ n) mrs /\
    (n = 0 \/ e + n = fexp 53 1024 (Zdigits2 m + e)).
Proof.
  intros Hm. unfold shr_fexp, shr. cbn [shr_record_of_loc].
  destruct (fexp 53 1024 (Zdigits2 m + e) - e) as [|n|n] eqn:Hn.
  - exists (Build_shr_record m false false), 0. rewrite Z.add_0_r.
    split; [reflexivity|]. split; [lia|]. split; [|left; reflexivity].
    unfold shr_inv. cbn. split; [lia|]. split; [lia|discriminate].
  - exists (SpecFloat.iter_pos shr_1 n (Build_shr_record m false false)), (Z.pos n).
    split; [reflexivity|]. split; [lia|]. split; [|right; lia].
    rewrite <- (Z.mul_1_l (2 ^ Z.pos n)). apply iter_shr_1_inv; [lia|].
    unfold shr_inv. cbn. split; [lia|]. split; [lia|discriminate].
  - exists (Build_shr_record m false false), 0. rewrite Z.add_0_r.
    split; [reflexivity|]. split; [lia|]. split; [|left; reflexivity].
    unfold shr_inv. cbn. split; [lia|]. split; [lia|discriminate].
Qed.

Lemma digits2_lower p : 2 ^ Z.pos (digits2_pos p) <= 2 * Z.pos p.
Proof.
  rewrite digits2_pos_size. pose proof (Pos.size_le p) as Hle.
  rewrite <- Pos2Z.inj_pow. change (2 * Z.pos p) with (Z.pos p~0). lia.
Qed.

(** A mantissa below [n * 2 ^ (- e)] with [n] under [2 ^ 53] is brought to
    an exponent that is still at most 0. *)
Lemma format_exponent_nonpos m e n :
  0 <= m -> e <= 0 -> 0 <= n < 2 ^ 53 -> m <= n * 2 ^ (- e) ->
  fexp 53 1024 (Zdigits2 m + e) <= 0.
Proof.
  intros Hm He Hn Hle. unfold fexp, emin. 
  apply Z.max_lub; [|lia].
  destruct m as [|p|p]; [cbn; lia| |lia]. cbn [Zdigits2].
  pose proof (digits2_lower p) as Hd.
  assert (Hpow : 0 < 2 ^ (- e)) by (apply Z.pow_pos_nonneg; lia).
  assert (Hlt : 2 ^ Z.pos (digits2_pos p) < 2 ^ (54 - e)).
  { replace (54 - e) with (54 + - e) by lia. rewrite Z.pow_add_r by lia.
    change (2 ^ 54) with (2 * 2 ^ 53). nia. }
  apply Z.pow_lt_mono_r_iff in Hlt; lia.
Qed.

Lemma round_nearest_even_step mrs :
  let m := round_nearest_even (shr_m mrs) (loc_of_shr_record mrs) in
  m = shr_m mrs \/ (m = shr_m mrs + 1 /\ orb (shr_r mrs) (shr_s mrs) = true).
Proof.
  destruct mrs as [m [|] [|]]; cbn; try (left; reflexivity).
  - right. split; reflexivity.
  - destruct (Z.even m); [left; reflexivity | right; split; reflexivity].
Qed.

(** The rounding of [m0 * 2 ^ e0], a value that is at most the integer
    [n < 2 ^ 53], is a finite float that is still at most [n]. *)
Lemma round_aux_at_most m0 e0 n :
  0 <= m0 -> e0 <= 0 -> 0 <= n < 2 ^ 53 -> m0 <= n * 2 ^ (- e0) ->
  at_most n (binary_round_aux 53 1024 false m0 e0 loc_Exact).
Proof.
  intros Hm0 He0 Hn Hle. unfold binary_round_aux.
  destruct (shr_fexp_exact m0 e0 Hm0) as (mrs1 & n1 & -> & Hn1 & (Hm1 & Hle1 & Hlt1) & He1).
  assert (He1' : e0 + n1 <= 0).
  { destruct He1 as [->| ->]; [lia|]. apply (format_exponent_nonpos m0 e0 n); assumption. }
  assert (Hsplit : 2 ^ (- e0) = 2 ^ (- (e0 + n1)) * 2 ^ n1).
  { rewrite <- Z.pow_add_r by lia. f_equal. lia. }
  assert (Hp1 : 0 < 2 ^ n1) by (apply Z.pow_pos_nonneg; lia).
  set (m2 := round_nearest_even (shr_m mrs1) (loc_of_shr_record mrs1)).
  assert (Hm2 : 0 <= m2 /\ m2 <= n * 2 ^ (- (e0 + n1))).
  { destruct (round_nearest_even_step mrs1) as [H|[H Hflag]]; fold m2 in H; rewrite H.
    - split; [lia|]. nia.
    - specialize (Hlt1 Hflag). split; [lia|]. nia. }
  destruct Hm2 as [Hm2 Hle2].
  destruct (shr_fexp_exact m2 (e0 + n1) Hm2) as (mrs3 & n3 & -> & Hn3 & (Hm3 & Hle3 & _) & He3).
  assert (He3' : e0 + n1 + n3 <= 0).
  { destruct He3 as [->| ->]; [lia|].
    apply (format_exponent_nonpos m2 (e0 + n1) n); assumption. }
  assert (Hsplit3 : 2 ^ (- (e0 + n1)) = 2 ^ (- (e0 + n1 + n3)) * 2 ^ n3).
  { rewrite <- Z.pow_add_r by lia. f_equal. lia. }
  assert (Hp3 : 0 < 2 ^ n3) by (apply Z.pow_pos_nonneg; lia).
  destruct (shr_m mrs3) as [|m3|m3] eqn:Hm; [left; reflexivity| |lia].
  right. exists m3, (e0 + n1 + n3).
  replace (e0 + n1 + n3 <=? 1024 - 53) with true by (symmetry; apply Z.leb_le; lia).
  split; [reflexivity|]. split; [assumption|]. nia.
Qed.

Lemma pos_iter_xO m d : Z.pos (Pos.iter xO m d) = Z.pos m * 2 ^ Z.pos d.
Proof.
  induction d as [|d IH] using Pos.peano_ind.
  - cbn [Pos.iter]. rewrite (Pos2Z.inj_xO m). change (2 ^ 1) with 2. lia.
  - rewrite Pos.iter_succ, (Pos2Z.inj_xO (Pos.iter xO m d)), IH, Pos2Z.inj_succ, Z.pow_succ_r by lia.
    ring.
Qed.

(** The conversion of an int below [2 ^ 53] never exceeds it. *)
Lemma normalize_at_most w :
  0 <= w < 2 ^ 53 -> at_most w (binary_normalize 53 1024 w 0 false).
Proof.
  intros Hw. destruct w as [|p|p]; cbn [binary_normalize]; [left; reflexivity| |lia].
  unfold binary_round, shl_align.
  destruct (fexp 53 1024 (Z.pos (digits2_pos p) + 0) - 0) as [|d|d] eqn:Hd.
  - apply round_aux_at_most; [lia|lia|assumption|]. change (2 ^ (- 0)) with 1. lia.
  - apply round_aux_at_most; [lia|lia|assumption|]. change (2 ^ (- 0)) with 1. lia.
  - assert (He : fexp 53 1024 (Z.pos (digits2_pos p) + 0) = Z.neg d) by lia.
    rewrite He. apply round_aux_at_most; [lia|lia|assumption|].
    rewrite pos_iter_xO. change (- Z.neg d) with (Z.pos d). lia.
Qed.

Lemma ratio_at_most_one glitch_amount :
  1 <= glitch_amount <= 10 ->
  exists f, PyFloat.int_truediv (glitch_amount ^ 2) 100 = Good f /\ at_most 1 f /\
            f <> S754_zero false.
Proof.
  intros Hga.
  assert (Hcases : glitch_amount = 1 \/ glitch_amount = 2 \/ glitch_amount = 3 \/
                   glitch_amount = 4 \/ glitch_amount = 5 \/ glitch_amount = 6 \/
                   glitch_amount = 7 \/ glitch_amount = 8 \/ glitch_amount = 9 \/
                   glitch_amount = 10) by lia.
  repeat destruct Hcases as [->|Hcases]; try subst glitch_amount;
    (eexists; split; [vm_compute; reflexivity|];
     split; [right; eexists _, _; split; [reflexivity|]; split; vm_compute; discriminate
            | discriminate]).
Qed.

Lemma mul_at_most x y n :
  at_most 1 x -> at_most n y -> 0 <= n < 2 ^ 53 -> at_most n (SFmul 53 1024 x y).
Proof.
  intros [->|(mx & ex & -> & Hex & Hmx)] [->|(my & ey & -> & Hey & Hmy)] Hn;
    cbn [SFmul xorb]; try (left; reflexivity).
  apply round_aux_at_most; [lia|lia|assumption|].
  rewrite Pos2Z.inj_mul. replace (- (ex + ey)) with (- ex + - ey) by lia.
  rewrite Z.pow_add_r by lia.
  assert (0 < 2 ^ (- ex)) by (apply Z.pow_pos_nonneg; lia).
  assert (0 < 2 ^ (- ey)) by (apply Z.pow_pos_nonneg; lia).
  nia.
Qed.

Lemma to_int_at_most f n :
  0 <= n -> at_most n f -> exists k, PyFloat.to_int f = Good k /\ 0 <= k <= n.
Proof.
  intros Hn [->|(m & e & -> & He & Hm)]; cbn [PyFloat.to_int].
  - exists 0. split; [reflexivity|lia].
  - eexists. split; [reflexivity|].
    assert (0 < 2 ^ (- e)) by (apply Z.pow_pos_nonneg; lia).
    destruct (Z.leb_spec 0 e).
    + replace e with 0 in * by lia. change (2 ^ (- 0)) with 1 in Hm. change (2 ^ 0) with 1. lia.
    + split; [apply Z.div_pos; lia|]. apply Z.div_le_upper_bound; lia.
Qed.

Lemma at_most_finite n f : at_most n f -> PyFloat.finite_or_overflow f = Good f.
Proof. intros [->|(m & e & -> & _)]; reflexivity. Qed.

(** Line 42: for an intensity in range and a width a float holds exactly,
    [max_offset] is computed without error and lies between 0 and the
    width. *)
Lemma max_offset_bounds glitch_amount width :
  1 <= glitch_amount <= 10 -> 0 <= width < 2 ^ 53 ->
  exists max_offset,
    max_offset_of glitch_amount width = Good max_offset /\ 0 <= max_offset <= width.
Proof.
  intros Hga Hw. unfold max_offset_of.
  destruct (ratio_at_most_one glitch_amount Hga) as (ratio & -> & Hratio & _).
  unfold PyFloat.mul_int, PyFloat.of_int, PyFloat.prec, PyFloat.emax.
  pose proof (normalize_at_most width Hw) as Hy.
  rewrite (at_most_finite _ _ Hy).
  apply to_int_at_most; [lia|]. apply mul_at_most; assumption.
Qed.

(** ** Reshaping between the 3D and the flattened view *)

Lemma concat_rows {A} (l : list (list (list A))) :
  concat (concat l) = concat (map (@concat A) l).
Proof.
  induction l as [|r l IH]; cbn [concat map]; [reflexivity|].
  rewrite concat_app, IH. reflexivity.
Qed.

Lemma length_concat_uniform {A} (n : nat) (l : list (list A)) :
  Forall (fun r => length r = n) l -> length (concat l) = (length l * n)%nat.
Proof.
  induction 1 as [|r l Hr _ IH]; cbn [concat length]; [reflexivity|].
  rewrite length_app, IH, Hr. reflexivity.
Qed.

Lemma chunks_of_concat {A} (n : nat) (l : list (list A)) :
  Forall (fun r => length r = n) l -> chunks (length l) n (concat l) = l.
Proof.
  induction 1 as [|r l Hr _ IH]; cbn [chunks concat length]; [reflexivity|].
  rewrite take_app_length', drop_app_length' by (symmetry; assumption). rewrite IH. reflexivity.
Qed.

Lemma length_chunks {A} (k n : nat) (l : list A) : length (chunks k n l) = k.
Proof.
  revert l. induction k as [|k IH]; intros l; cbn [chunks length]; [reflexivity|].
  rewrite IH. reflexivity.
Qed.

Lemma chunks_uniform {A} (k n : nat) (l : list A) :
  length l = (k * n)%nat -> Forall (fun r => length r = n) (chunks k n l).
Proof.
  revert l. induction k as [|k IH]; intros l Hl; cbn [chunks]; constructor.
  - rewrite length_take. lia.
  - apply IH. rewrite length_drop. lia.
Qed.

Lemma map_chunks_concat {A} (k n : nat) (l : list (list (list A))) :
  Forall (fun r => length r = k /\ Forall (fun p => length p = n) r) l ->
  map (chunks k n) (map (@concat A) l) = l.
Proof.
  induction 1 as [|r l [Hk Hr] _ IH]; cbn [map]; [reflexivity|].
  rewrite IH. f_equal. rewrite <- Hk. apply chunks_of_concat. exact Hr.
Qed.

Lemma map_concat_chunks {A} (k n : nat) (l : list (list A)) :
  Forall (fun r => length r = (k * n)%nat) l ->
  map (@concat A) (map (chunks k n) l) = l.
Proof.
  induction 1 as [|r l Hr _ IH]; cbn [map]; [reflexivity|].
  rewrite IH, (chunks_concat k n r Hr). reflexivity.
Qed.

(** The rows of a 3D array, with the lengths counted in [nat]. *)
Lemma pixel_shape_rows height width tuple_len (a : ndarray (list Z)) :
  pixel_shape height width tuple_len a -> 0 <= tuple_len ->
  length (rows a) = Z.to_nat height /\
  Forall (fun r => length r = Z.to_nat width /\
                   Forall (fun p => length p = Z.to_nat tuple_len) r) (rows a) /\
  Forall (fun r => length r = Z.to_nat (width * tuple_len)) (map (@concat Z) (rows a)).
Proof.
  intros ((Hn0 & Hc0 & Hl & Hall) & Hn & Hc & Hpix) Ht.
  assert (Hrows : Forall (fun r => length r = Z.to_nat width /\
                     Forall (fun p => length p = Z.to_nat tuple_len) r) (rows a)).
  { rewrite Forall_forall in *. intros r Hr. split; [specialize (Hall r Hr); lia|].
    specialize (Hpix r Hr). rewrite Forall_forall in *. intros p Hp.
    specialize (Hpix p Hp). cbn in Hpix. lia. }
  split; [lia|]. split; [exact Hrows|].
  apply Forall_map. rewrite Forall_forall in *. intros r Hr.
  destruct (Hrows r Hr) as [Hw Hp].
  rewrite (length_concat_uniform _ _ Hp), Hw, Z2Nat.inj_mul by lia. reflexivity.
Qed.

(** Lines 60-61 on one array. *)
Lemma reshape_flat_run height width tuple_len (a : ndarray (list Z)) :
  pixel_shape height width tuple_len a -> 1 <= height -> 0 <= tuple_len ->
  reshape_flat height a =
    Good {| nrows := height; ncols := width * tuple_len; rows := map (@concat Z) (rows a) |} /\
  flat_shape height (width * tuple_len)
    {| nrows := height; ncols := width * tuple_len; rows := map (@concat Z) (rows a) |}.
Proof.
  intros Hshape Hh Ht.
  destruct (pixel_shape_rows _ _ _ _ Hshape Ht) as (Hlen & Hrows & Hflat).
  destruct Hshape as ((Hn0 & Hc0 & Hl & Hall) & Hn & Hc & Hpix).
  assert (Htotal : Z.of_nat (length (concat (concat (rows a)))) = width * tuple_len * height).
  { rewrite concat_rows, (length_concat_uniform _ _ Hflat), length_map, Hlen.
    rewrite Nat2Z.inj_mul, !Z2Nat.id by nia. ring. }
  split.
  - unfold reshape_flat. rewrite Htotal, Z.mod_mul, Z.div_mul by lia.
    destruct (Z.leb_spec height 0); [lia|]. cbn [orb negb Z.eqb].
    do 2 f_equal. rewrite concat_rows.
    replace (Z.to_nat height) with (length (map (@concat Z) (rows a)))
      by (rewrite length_map; exact Hlen).
    apply chunks_of_concat. exact Hflat.
  - unfold flat_shape, shaped. cbn [nrows ncols rows]. rewrite length_map.
    repeat split; try nia.
    eapply Forall_impl; [exact Hflat|]. cbn. intros r Hr. rewrite Hr. nia.
Qed.

(** Line 68 on a flattened array of the right size: the samples are the
    same, in the same order. *)
Lemma reshape_pixels_run height width tuple_len (a : ndarray Z) :
  flat_shape height (width * tuple_len) a -> 0 <= width -> 0 <= tuple_len ->
  exists a3,
    reshape_pixels height width tuple_len a = Good a3 /\
    pixel_shape height width tuple_len a3 /\
    concat (concat (rows a3)) = concat (rows a).
Proof.
  intros ((Hn0 & Hc0 & Hl & Hall) & Hn & Hc) Hw Ht.
  assert (HallN : Forall (fun r => length r = Z.to_nat (width * tuple_len)) (rows a)).
  { eapply Forall_impl; [exact Hall|]. cbn. intros r Hr. lia. }
  assert (Hflat : length (concat (rows a)) =
                  (Z.to_nat height * Z.to_nat (width * tuple_len))%nat).
  { rewrite (length_concat_uniform _ _ HallN). f_equal. lia. }
  unfold reshape_pixels.
  replace (Z.of_nat (length (concat (rows a))) =? height * width * tuple_len) with true.
  2:{ symmetry. apply Z.eqb_eq. rewrite Hflat, Nat2Z.inj_mul, !Z2Nat.id by nia. ring. }
  eexists. split; [reflexivity|].
  pose proof (chunks_uniform _ _ _ Hflat) as Hchunks.
  split.
  - unfold pixel_shape, shaped. cbn [nrows ncols rows].
    rewrite length_map, length_chunks.
    repeat split; try lia.
    + apply Forall_map. eapply Forall_impl; [exact Hchunks|]. cbn. intros r Hr.
      rewrite length_chunks. lia.
    + apply Forall_map. eapply Forall_impl; [exact Hchunks|]. cbn. intros r Hr.
      eapply Forall_impl; [apply chunks_uniform|].
      * rewrite Hr, Z2Nat.inj_mul by lia. reflexivity.
      * cbn. intros p Hp. lia.
  - cbn [rows]. rewrite concat_rows, map_concat_chunks.
    + apply chunks_concat. exact Hflat.
    + eapply Forall_impl; [exact Hchunks|]. cbn. intros r Hr.
      rewrite Hr, Z2Nat.inj_mul by lia. reflexivity.
Qed.

(** X5.  Flattening a 3D array joins the samples of each row, and reshaping the
    flattened array to the three sizes gives the 3D array back. *)
Theorem reshape_round_trip height width tuple_len (a : ndarray (list Z)) :
  pixel_shape height width tuple_len a -> 1 <= height -> 0 <= tuple_len ->
  exists a2,
    reshape_flat height a = Good a2 /\
    flat_shape height (width * tuple_len) a2 /\
    rows a2 = map (@concat Z) (rows a) /\
    reshape_pixels height width tuple_len a2 = Good a.
Proof.
  intros Hshape Hh Ht.
  destruct (reshape_flat_run _ _ _ _ Hshape Hh Ht) as [Hrun Hflat].
  destruct (pixel_shape_rows _ _ _ _ Hshape Ht) as (Hlen & Hrows & HflatN).
  eexists. split; [exact Hrun|]. split; [exact Hflat|]. split; [reflexivity|].
  destruct Hshape as ((Hn0 & Hc0 & Hl & Hall) & Hn & Hc & Hpix).
  unfold reshape_pixels. cbn [rows].
  replace (Z.of_nat (length (concat (map (@concat Z) (rows a)))) =? height * width * tuple_len)
    with true.
  2:{ symmetry. apply Z.eqb_eq.
      rewrite (length_concat_uniform _ _ HflatN), length_map, Hlen.
      rewrite Nat2Z.inj_mul, !Z2Nat.id by nia. ring. }
  replace (Z.to_nat height) with (length (map (@concat Z) (rows a)))
    by (rewrite length_map; exact Hlen).
  rewrite (chunks_of_concat _ _ HflatN), (map_chunks_concat _ _ _ Hrows).
  destruct a as [na ca ra]. cbn in *. subst. reflexivity.
Qed.

Lemma reshape_round_trip_witness :
  exists a2,
    reshape_flat 4 {| nrows := 4; ncols := 3; rows := pixels rgb_image |} = Good a2 /\
    flat_shape 4 (3 * 3) a2 /\
    rows a2 = map (@concat Z) (pixels rgb_image) /\
    reshape_pixels 4 3 3 a2 = Good {| nrows := 4; ncols := 3; rows := pixels rgb_image |}.
Proof.
  apply (reshape_round_trip 4 3 3 {| nrows := 4; ncols := 3; rows := pixels rgb_image |});
    [|lia|lia].
  unfold pixel_shape, shaped; cbn; repeat split; try lia; repeat constructor.
Defined.

(** ** The two shifts against each other *)

Lemma rotate_left_right {A} width offset (row : list A) :
  Z.of_nat (length row) = width -> 0 <= offset <= width ->
  rotate_left offset (rotate_right width offset row) = row.
Proof.
  intros Hl Ho. unfold rotate_left, rotate_right.
  rewrite drop_app_length', take_app_length' by (rewrite length_drop; lia).
  apply take_drop.
Qed.

Lemma rotate_right_left {A} width offset (row : list A) :
  Z.of_nat (length row) = width -> 0 <= offset <= width ->
  rotate_right width offset (rotate_left offset row) = row.
Proof.
  intros Hl Ho. unfold rotate_left, rotate_right.
  rewrite drop_app_length', take_app_length' by (rewrite length_drop; lia).
  apply take_drop.
Qed.

Lemma rotate_left_length {A} offset (row : list A) :
  length (rotate_left offset row) = length row.
Proof. unfold rotate_left. rewrite length_app, length_drop, length_take. lia. Qed.

Lemma glitch_left_well_formed {E} (w : World E) offset :
  well_formed w -> 4 <= img_height (self w) < 2 ^ 53 ->
  0 <= offset <= img_width (self w) ->
  exists w', glitch_left offset w = Return tt w' /\ well_formed w'.
Proof.
  intros Hwf Hh Ho.
  destruct (glitch_left_rows w offset Hwf Hh Ho) as (out' & Hrun & Hn & Hc & Hl & Hrows).
  destruct Hwf as (HsI & HsO & HnI & HnO & HcI & HcO).
  pose proof HsI as (? & ? & HlI & _). pose proof HsO as (? & ? & HlO & _).
  eexists. split; [exact Hrun|].
  unfold well_formed, shaped. cbn [set_outputarr self inputarr outputarr drawn
    img_height img_width].
  repeat split; try lia; try tauto; try apply HsI.
  apply Forall_lookup. intros i row Hi.
  destruct (lookup_lt_is_Some_2 (rows (outputarr (self w))) i) as [orow Horow].
  { apply lookup_lt_Some in Hi. lia. }
  destruct (lookup_lt_is_Some_2 (rows (inputarr (self w))) i) as [src Hsrc].
  { apply lookup_lt_Some in Hi. lia. }
  rewrite (Hrows i orow src Horow Hsrc) in Hi. injection Hi as <-.
  pose proof (shaped_row _ _ _ HsO Horow). pose proof (shaped_row _ _ _ HsI Hsrc).
  destruct (in_band w i); [rewrite rotate_left_length|]; lia.
Qed.

Lemma fed_back_well_formed {E} (g : Rng) (w : World E) :
  well_formed w -> well_formed (fed_back g w).
Proof.
  intros (HsI & HsO & HnI & HnO & HcI & HcO).
  unfold well_formed, fed_back. cbn [self inputarr outputarr img_height img_width].
  tauto.
Qed.

(** X8.  A shift to the right and then, on what it wrote and with the same
    draws, a shift to the left by the same offset puts every row of the
    band back as it was in the source; so does left followed by right. *)
Theorem shift_round_trip {E} (w : World E) (offset : Z) :
  well_formed w -> 4 <= img_height (self w) < 2 ^ 53 ->
  0 <= offset <= img_width (self w) ->
  (exists w1 w2,
      glitch_right offset w = Return tt w1 /\
      glitch_left offset (fed_back (rng w) w1) = Return tt w2 /\
      forall (r : nat) (src : list E),
        in_band w r = true -> rows (inputarr (self w)) !! r = Some src ->
        rows (outputarr (self w2)) !! r = Some src) /\
  (exists w1 w2,
      glitch_left offset w = Return tt w1 /\
      glitch_right offset (fed_back (rng w) w1) = Return tt w2 /\
      forall (r : nat) (src : list E),
        in_band w r = true -> rows (inputarr (self w)) !! r = Some src ->
        rows (outputarr (self w2)) !! r = Some src).
Proof.
  intros Hwf Hh Ho.
  pose proof Hwf as (HsI & HsO & HnI & HnO & HcI & HcO).
  pose proof HsI as (_ & _ & HlI & _). pose proof HsO as (_ & _ & HlO & _).
  split.
  - destruct (glitch_right_rows w offset Hwf Hh Ho) as (out1 & Hrun1 & Hn1 & Hc1 & Hl1 & Hrows1).
    destruct (glitch_right_well_formed w offset Hwf Hh Ho) as (w1 & Hrun1' & Hwf1).
    rewrite Hrun1 in Hrun1'. injection Hrun1' as <-.
    set (w1 := set_outputarr out1 (drawn (drawn w))) in *.
    pose proof (fed_back_well_formed (rng w) w1 Hwf1) as Hwfv.
    destruct (glitch_left_rows (fed_back (rng w) w1) offset Hwfv Hh Ho)
      as (out2 & Hrun2 & _ & _ & _ & Hrows2).
    exists w1. eexists. split; [exact Hrun1|]. split; [exact Hrun2|].
    intros r src Hband Hsrc. cbn [set_outputarr self outputarr].
    destruct (lookup_lt_is_Some_2 (rows (outputarr (self w))) r) as [orow Horow].
    { apply lookup_lt_Some in Hsrc. lia. }
    pose proof (Hrows1 r orow src Horow Hsrc) as Hr1. rewrite Hband in Hr1.
    rewrite (Hrows2 r _ _ Hr1 Hr1).
    change (in_band (fed_back (rng w) w1) r) with (in_band w r). rewrite Hband.
    change (img_width (self (fed_back (rng w) w1))) with (img_width (self w)).
    rewrite rotate_left_right; [reflexivity | | assumption].
    rewrite (shaped_row _ _ _ HsI Hsrc). exact HcI.
  - destruct (glitch_left_rows w offset Hwf Hh Ho) as (out1 & Hrun1 & Hn1 & Hc1 & Hl1 & Hrows1).
    destruct (glitch_left_well_formed w offset Hwf Hh Ho) as (w1 & Hrun1' & Hwf1).
    rewrite Hrun1 in Hrun1'. injection Hrun1' as <-.
    set (w1 := set_outputarr out1 (drawn (drawn w))) in *.
    pose proof (fed_back_well_formed (rng w) w1 Hwf1) as Hwfv.
    destruct (glitch_right_rows (fed_back (rng w) w1) offset Hwfv Hh Ho)
      as (out2 & Hrun2 & _ & _ & _ & Hrows2).
    exists w1. eexists. split; [exact Hrun1|]. split; [exact Hrun2|].
    intros r src Hband Hsrc. cbn [set_outputarr self outputarr].
    destruct (lookup_lt_is_Some_2 (rows (outputarr (self w))) r) as [orow Horow].
    { apply lookup_lt_Some in Hsrc. lia. }
    pose proof (Hrows1 r orow src Horow Hsrc) as Hr1. rewrite Hband in Hr1.
    rewrite (Hrows2 r _ _ Hr1 Hr1).
    change (in_band (fed_back (rng w) w1) r) with (in_band w r). rewrite Hband.
    change (img_width (self (fed_back (rng w) w1))) with (img_width (self w)).
    rewrite rotate_right_left; [reflexivity | | assumption].
    rewrite (shaped_row _ _ _ HsI Hsrc). exact HcI.
Qed.

Lemma shift_round_trip_witness :
  (exists w1 w2,
      glitch_right 1 (docstring_world 0) = Return tt w1 /\
      glitch_left 1 (fed_back (constant_rng 0) w1) = Return tt w2 /\
      forall (r : nat) (src : list Z),
        in_band (docstring_world 0) r = true -> docstring_rows !! r = Some src ->
        rows (outputarr (self w2)) !! r = Some src) /\
  (exists w1 w2,
      glitch_left 1 (docstring_world 0) = Return tt w1 /\
      glitch_right 1 (fed_back (constant_rng 0) w1) = Return tt w2 /\
      forall (r : nat) (src : list Z),
        in_band (docstring_world 0) r = true -> docstring_rows !! r = Some src ->
        rows (outputarr (self w2)) !! r = Some src).
Proof.
  apply (shift_round_trip (docstring_world 0) 1); [evaluate_shape | cbn; lia | cbn; lia].
Defined.

(** X10.  A shift by the whole width, the largest offset the loop can draw, is
    the same plain copy of the band as a shift by nothing, in either
    direction. *)
Theorem full_width_shift_is_plain_copy {E} (w : World E) :
  well_formed w -> 4 <= img_height (self w) < 2 ^ 53 ->
  exists out',
    glitch_right (img_width (self w)) w = Return tt (set_outputarr out' (drawn (drawn w))) /\
    glitch_left (img_width (self w)) w = Return tt (set_outputarr out' (drawn (drawn w))) /\
    forall (r : nat) (orow src : list E),
      rows (outputarr (self w)) !! r = Some orow ->
      rows (inputarr (self w)) !! r = Some src ->
      rows out' !! r = Some (if in_band w r then src else orow).
Proof.
  intros Hwf Hh.
  pose proof Hwf as (HsI & HsO & HnI & HnO & HcI & HcO).
  pose proof HsI as (_ & HW & HlI & _). pose proof HsO as (_ & _ & HlO & _).
  rewrite HcI in HW.
  assert (Hfull : 0 <= img_width (self w) <= img_width (self w)) by lia.
  destruct (glitch_right_rows w _ Hwf Hh Hfull) as (o1 & Hrun1 & Hn1 & Hc1 & Hl1 & Hrows1).
  destruct (glitch_left_rows w _ Hwf Hh Hfull) as (o2 & Hrun2 & Hn2 & Hc2 & Hl2 & Hrows2).
  assert (Hrot : forall (r : nat) orow src,
             rows (outputarr (self w)) !! r = Some orow ->
             rows (inputarr (self w)) !! r = Some src ->
             rows o1 !! r = Some (if in_band w r then src else orow) /\
             rows o2 !! r = Some (if in_band w r then src else orow)).
  { intros r orow src Hr Hsrc.
    pose proof (shaped_row _ _ _ HsI Hsrc) as Hls. rewrite HcI in Hls.
    rewrite (Hrows1 r orow src Hr Hsrc), (Hrows2 r orow src Hr Hsrc).
    unfold rotate_right, rotate_left. rewrite Z.sub_diag.
    change (Z.to_nat 0) with 0%nat. rewrite drop_0, take_0, app_nil_r.
    rewrite drop_ge, take_ge by lia. split; reflexivity. }
  assert (Heq : o2 = o1).
  { destruct o1 as [n1 c1 r1], o2 as [n2 c2 r2]. cbn in *. subst. f_equal.
    apply list_eq. intros i.
    destruct (rows (outputarr (self w)) !! i) as [orow|] eqn:Hr.
    - destruct (lookup_lt_is_Some_2 (rows (inputarr (self w))) i) as [src Hsrc].
      { apply lookup_lt_Some in Hr. lia. }
      destruct (Hrot i orow src Hr Hsrc) as [-> ->]. reflexivity.
    - apply lookup_ge_None in Hr.
      rewrite !lookup_ge_None_2 by lia. reflexivity. }
  subst o2. exists o1. repeat split; [assumption | assumption |].
  intros r orow src Hr Hsrc. apply (Hrot r orow src Hr Hsrc).
Qed.

Lemma full_width_shift_is_plain_copy_witness :
  exists out',
    glitch_right 4 (docstring_world 0)
    = Return tt (set_outputarr out' (drawn (drawn (docstring_world 0)))) /\
    glitch_left 4 (docstring_world 0)
    = Return tt (set_outputarr out' (drawn (drawn (docstring_world 0)))) /\
    forall (r : nat) (orow src : list Z),
      docstring_rows !! r = Some orow -> docstring_rows !! r = Some src ->
      rows out' !! r = Some (if in_band (docstring_world 0) r then src else orow).
Proof.
  apply (full_width_shift_is_plain_copy (docstring_world 0)); [evaluate_shape | cbn; lia].
Defined.

(** ** The checks at the head of [glitch_image] *)

(** X1.  An intensity outside 1..10 is refused before the path is looked at;
    with an intensity in range, a missing path and a file that is no image
    each get their own message. *)
Theorem input_validation_order (glitch_amount : Z) (g : Rng) :
  (~ 1 <= glitch_amount <= 10 ->
   forall src,
     glitch_image src glitch_amount g =
     Bad (PyException "glitch_amount parameter must be in range 1 to 10, inclusive")) /\
  (1 <= glitch_amount <= 10 ->
   glitch_image NoSuchPath glitch_amount g =
     Bad (PyException "No image found at given path") /\
   glitch_image NotAnImage glitch_amount g =
     Bad (PyException "File format not supported - must be an image file")).
Proof.
  unfold glitch_image, glitch_image_with.
  destruct (Z.leb_spec 1 glitch_amount), (Z.leb_spec glitch_amount 10); cbn [andb negb];
    split; intros Hga; try lia; try (intros src; reflexivity); split; reflexivity.
Qed.

(** ** The random channel *)

(** X14.  With at least one band, [get_random_channel] makes one draw, returns a
    channel index from 0 to [pixel_tuple_len - 1], and can return each of
    them. *)
Theorem random_channel_range {E} (me : ImageGlitcher E) :
  1 <= pixel_tuple_len me ->
  (forall g, exists c,
      get_random_channel {| rng := g; self := me |}
      = Return c {| rng := advance g; self := me |} /\
      0 <= c < pixel_tuple_len me) /\
  (forall c, 0 <= c < pixel_tuple_len me ->
     exists g,
       get_random_channel {| rng := g; self := me |}
       = Return c {| rng := advance g; self := me |}).
Proof.
  intros Hc. split.
  - intros g. eexists. unfold get_random_channel, bind, gets. cbn [self rng].
    rewrite randint_run by lia. split; [reflexivity|].
    pose proof (in_range_bounds 0 (pixel_tuple_len me - 1)
                  (next_draw (rng {| rng := g; self := me |})) ltac:(lia)). lia.
  - intros c Hcc. exists (constant_rng c).
    unfold get_random_channel, bind, gets. cbn [self rng].
    rewrite randint_run by lia. cbn [rng]. unfold next_draw, constant_rng, drawn.
    cbn [source consumed rng self].
    rewrite <- (in_range_attained 0 (pixel_tuple_len me - 1) c) at 2 by lia.
    rewrite Z.sub_0_r. reflexivity.
Qed.

Lemma random_channel_range_witness :
  (forall g, exists c,
      get_random_channel {| rng := g; self := self rgb_world |}
      = Return c {| rng := advance g; self := self rgb_world |} /\
      0 <= c < 3) /\
  (forall c, 0 <= c < 3 ->
     exists g,
       get_random_channel {| rng := g; self := self rgb_world |}
       = Return c {| rng := advance g; self := self rgb_world |}).
Proof.
  apply (random_channel_range (self rgb_world)). cbn. lia.
Defined.

(** ** The channel offset, sample by sample *)

(** Where a written slot was read from: the source position that the
    offsets carry to [(row, col)], [col] being a slot of the target
    channel. *)
Lemma moved_from height width tuple_len channel_index offset_x offset_y row col :
  1 <= tuple_len -> 0 <= row < height -> 0 <= col < width * tuple_len ->
  col mod tuple_len = channel_index ->
  let row0 := (row - offset_y) mod height in
  let col0 := (col - channel_index - offset_x * tuple_len) mod (width * tuple_len) in
  0 <= row0 < height /\ 0 <= col0 < width * tuple_len /\ col0 mod tuple_len = 0 /\
  (row0 + offset_y) mod height = row /\
  (col0 + (offset_x * tuple_len + channel_index)) mod (width * tuple_len) = col.
Proof.
  intros Ht Hr Hc Hslot row0 col0.
  assert (HW : 1 <= width) by nia.
  assert (HWC : 0 < width * tuple_len) by nia.
  split; [apply Z.mod_pos_bound; lia|]. split; [apply Z.mod_pos_bound; lia|].
  split; [|split].
  - unfold col0. rewrite mod_mod_tuple by lia.
    pose proof (Z.div_mod col tuple_len ltac:(lia)) as Hdiv. rewrite Hslot in Hdiv.
    replace (col - channel_index - offset_x * tuple_len)
      with ((col / tuple_len - offset_x) * tuple_len) by lia.
    apply Z.mod_mul. lia.
  - unfold row0. rewrite Zplus_mod_idemp_l.
    replace (row - offset_y + offset_y) with row by lia. rewrite Z.mod_small; lia.
  - unfold col0. rewrite Zplus_mod_idemp_l.
    replace (col - channel_index - offset_x * tuple_len
             + (offset_x * tuple_len + channel_index)) with col by lia.
    rewrite Z.mod_small; lia.
Qed.

(** X11.  Within range, [color_offset] succeeds and every sample of its output
    is known: a slot of the target channel holds the first-channel sample
    of the source found [offset_y] rows up and [offset_x] pixels to the
    left, both counted round the edges; every other slot is untouched. *)
Theorem channel_offset_complete (w : World Z) (offset_x offset_y channel_index : Z) :
  flat_well_formed w ->
  0 <= channel_index < pixel_tuple_len (self w) ->
  - img_height (self w) <= offset_y <= img_height (self w) ->
  - img_width (self w) <= offset_x <= img_width (self w) ->
  exists out',
    color_offset offset_x offset_y channel_index w = Return tt (set_outputarr out' w) /\
    flat_shape (img_height (self w)) (img_width (self w) * pixel_tuple_len (self w)) out' /\
    forall row col,
      0 <= row < img_height (self w) ->
      0 <= col < img_width (self w) * pixel_tuple_len (self w) ->
      sample out' row col =
      if col mod pixel_tuple_len (self w) =? channel_index
      then sample (inputarr (self w))
                  ((row - offset_y) mod img_height (self w))
                  ((col - channel_index - offset_x * pixel_tuple_len (self w))
                     mod (img_width (self w) * pixel_tuple_len (self w)))
      else sample (outputarr (self w)) row col.
Proof.
  intros Hwf Hci Hy Hx. pose proof Hwf as (Ht & _).
  destruct (channel_offset_in_range w offset_x offset_y channel_index Hwf Hci Hy Hx)
    as (out' & Hrun & Hshape & Hmoved & Hkept).
  exists out'. split; [exact Hrun|]. split; [exact Hshape|].
  intros row col Hr Hc.
  destruct (Z.eqb_spec (col mod pixel_tuple_len (self w)) channel_index) as [Hslot|Hslot];
    [|apply Hkept; assumption].
  destruct (moved_from _ _ _ _ offset_x offset_y row col Ht Hr Hc Hslot)
    as (Hr0 & Hc0 & Hslot0 & Hrow & Hcol).
  rewrite <- (Hmoved _ _ Hr0 Hc0 Hslot0), Hrow, Hcol. reflexivity.
Qed.

Lemma channel_offset_complete_witness :
  exists out',
    color_offset 1 (-1) 1 rgb_world = Return tt (set_outputarr out' rgb_world) /\
    flat_shape 4 (3 * 3) out' /\
    forall row col,
      0 <= row < 4 -> 0 <= col < 3 * 3 ->
      sample out' row col =
      if col mod 3 =? 1
      then sample rgb_array ((row - -1) mod 4) ((col - 1 - 1 * 3) mod (3 * 3))
      else sample rgb_array row col.
Proof.
  apply (channel_offset_complete rgb_world 1 (-1) 1); [evaluate_shape | | |]; cbn; lia.
Defined.

Lemma first_channel_identity_witness :
  color_offset 0 0 0 rgb_world = Return tt rgb_world.
Proof.
  apply (first_channel_identity rgb_world); [evaluate_shape | reflexivity].
Defined.

(** Line 65: with a band and an intensity that is not negative the three
    draws succeed, and the call they feed is the one below. *)
Lemma channel_pass_run (w : World Z) (glitch_amount : Z) :
  1 <= pixel_tuple_len (self w) -> 0 <= glitch_amount ->
  channel_pass glitch_amount w =
  color_offset (drawn_offset_x glitch_amount w) (drawn_offset_y glitch_amount w)
               (drawn_channel w) (drawn (drawn (drawn w))).
Proof.
  intros Hc Hga.
  unfold channel_pass, get_random_channel, bind, gets.
  rewrite !randint_run by (cbn [drawn self]; lia). reflexivity.
Qed.

Lemma drawn_bounds (w : World Z) (glitch_amount : Z) :
  1 <= pixel_tuple_len (self w) -> 0 <= glitch_amount ->
  - (glitch_amount * 2) <= drawn_offset_x glitch_amount w <= glitch_amount * 2 /\
  - (glitch_amount * 2) <= drawn_offset_y glitch_amount w <= glitch_amount * 2 /\
  0 <= drawn_channel w < pixel_tuple_len (self w).
Proof.
  intros Hc Hga. unfold drawn_offset_x, drawn_offset_y, drawn_channel.
  pose proof (in_range_bounds (- glitch_amount * 2) (glitch_amount * 2)
                (next_draw (rng w)) ltac:(lia)).
  pose proof (in_range_bounds (- glitch_amount * 2) (glitch_amount * 2)
                (next_draw (rng (drawn w))) ltac:(lia)).
  pose proof (in_range_bounds 0 (pixel_tuple_len (self w) - 1)
                (next_draw (rng (drawn (drawn w)))) ltac:(lia)).
  lia.
Qed.

(** X13.  When twice the intensity fits in both sizes, the channel pass draws
    [offset_x], [offset_y] and the channel, in that order, and is the call
    of [color_offset] with these three values.  The call succeeds and keeps
    the shape of the output; the samples of every channel other than the
    drawn one are left as they were, and each slot of the drawn channel
    holds the first-channel sample of the source that the two drawn
    offsets carry there. *)
Theorem channel_pass_one_channel (w : World Z) (glitch_amount : Z) :
  flat_well_formed w -> 0 <= glitch_amount ->
  glitch_amount * 2 <= img_height (self w) -> glitch_amount * 2 <= img_width (self w) ->
  0 <= drawn_channel w < pixel_tuple_len (self w) /\
  channel_pass glitch_amount w
  = color_offset (drawn_offset_x glitch_amount w) (drawn_offset_y glitch_amount w)
                 (drawn_channel w) (drawn (drawn (drawn w))) /\
  exists out',
    channel_pass glitch_amount w
    = Return tt (set_outputarr out' (drawn (drawn (drawn w)))) /\
    flat_shape (img_height (self w)) (img_width (self w) * pixel_tuple_len (self w)) out' /\
    forall row col,
      0 <= row < img_height (self w) ->
      0 <= col < img_width (self w) * pixel_tuple_len (self w) ->
      sample out' row col =
      if col mod pixel_tuple_len (self w) =? drawn_channel w
      then sample (inputarr (self w))
                  ((row - drawn_offset_y glitch_amount w) mod img_height (self w))
                  ((col - drawn_channel w
                    - drawn_offset_x glitch_amount w * pixel_tuple_len (self w))
                     mod (img_width (self w) * pixel_tuple_len (self w)))
      else sample (outputarr (self w)) row col.
Proof.
  intros Hwf Hga Hh Hw. pose proof Hwf as (Ht & _).
  destruct (drawn_bounds w glitch_amount Ht Hga) as (Hx & Hy & Hci).
  split; [exact Hci|]. split; [apply channel_pass_run; assumption|].
  rewrite (channel_pass_run w glitch_amount Ht Hga).
  destruct (channel_offset_in_range (drawn (drawn (drawn w)))
              (drawn_offset_x glitch_amount w) (drawn_offset_y glitch_amount w)
              (drawn_channel w))
    as (out' & Hrun & Hshape & Hmoved & Hkept);
    [exact Hwf | exact Hci | cbn [drawn self]; lia | cbn [drawn self]; lia |].
  cbn [drawn self inputarr outputarr img_height img_width pixel_tuple_len] in Hmoved, Hkept.
  exists out'. split; [exact Hrun|]. split; [exact Hshape|].
  intros row col Hr Hc.
  destruct (Z.eqb_spec (col mod pixel_tuple_len (self w)) (drawn_channel w)) as [Hslot|Hslot];
    [|apply Hkept; assumption].
  destruct (moved_from _ _ _ _ (drawn_offset_x glitch_amount w)
              (drawn_offset_y glitch_amount w) row col Ht Hr Hc Hslot)
    as (Hr0 & Hc0 & Hslot0 & Hrow & Hcol).
  rewrite <- (Hmoved _ _ Hr0 Hc0 Hslot0), Hrow, Hcol. reflexivity.
Qed.

Lemma channel_pass_one_channel_witness :
  0 <= drawn_channel rgb_world < 3 /\
  channel_pass 1 rgb_world
  = color_offset (drawn_offset_x 1 rgb_world) (drawn_offset_y 1 rgb_world)
                 (drawn_channel rgb_world) (drawn (drawn (drawn rgb_world))) /\
  exists out',
    channel_pass 1 rgb_world
    = Return tt (set_outputarr out' (drawn (drawn (drawn rgb_world)))) /\
    flat_shape 4 (3 * 3) out' /\
    forall row col,
      0 <= row < 4 -> 0 <= col < 3 * 3 ->
      sample out' row col =
      if col mod 3 =? drawn_channel rgb_world
      then sample rgb_array
                  ((row - drawn_offset_y 1 rgb_world) mod 4)
                  ((col - drawn_channel rgb_world - drawn_offset_x 1 rgb_world * 3)
                     mod (3 * 3))
      else sample rgb_array row col.
Proof.
  apply (channel_pass_one_channel rgb_world 1); [evaluate_shape | | |]; cbn; lia.
Defined.

(** ** The glitching loop on a fresh instance *)

Lemma rotate_right_zero {A} width (row : list A) :
  Z.of_nat (length row) = width -> rotate_right width 0 row = row.
Proof.
  intros Hl. unfold rotate_right. rewrite Z.sub_0_r, drop_ge, take_ge by lia. reflexivity.
Qed.

Lemma fresh_rows_rotated {E} (w : World E) :
  well_formed w -> outputarr (self w) = inputarr (self w) -> rows_rotated w.
Proof.
  intros (HsI & _ & _ & _ & HcI & _) Hcopy i orow Hi. rewrite Hcopy in Hi.
  pose proof HsI as (_ & HW & _). rewrite HcI in HW.
  exists orow, 0. split; [exact Hi|]. split; [lia|].
  rewrite rotate_right_zero; [reflexivity|].
  rewrite (shaped_row _ _ _ HsI Hi). exact HcI.
Qed.

Lemma glitch_right_rotated {E} (w : World E) offset :
  well_formed w -> 4 <= img_height (self w) < 2 ^ 53 ->
  0 <= offset <= img_width (self w) -> rows_rotated w ->
  exists w',
    glitch_right offset w = Return tt w' /\ well_formed w' /\ same_source w w' /\
    rows_rotated w'.
Proof.
  intros Hwf Hh Ho Hrot.
  destruct (glitch_right_rows w offset Hwf Hh Ho) as (out' & Hrun & Hn & Hc & Hl & Hrows).
  destruct (glitch_right_well_formed w offset Hwf Hh Ho) as (w' & Hrun' & Hwf').
  rewrite Hrun in Hrun'. injection Hrun' as <-.
  eexists. split; [exact Hrun|]. split; [exact Hwf'|].
  split; [repeat split|].
  destruct Hwf as (HsI & HsO & HnI & HnO & HcI & HcO).
  pose proof HsI as (_ & _ & HlI & _). pose proof HsO as (_ & _ & HlO & _).
  intros i orow' Hi. cbn [set_outputarr drawn self inputarr outputarr img_width] in *.
  destruct (lookup_lt_is_Some_2 (rows (outputarr (self w))) i) as [orow Horow].
  { apply lookup_lt_Some in Hi. lia. }
  destruct (lookup_lt_is_Some_2 (rows (inputarr (self w))) i) as [src Hsrc].
  { apply lookup_lt_Some in Hi. lia. }
  rewrite (Hrows i orow src Horow Hsrc) in Hi. injection Hi as <-.
  destruct (in_band w i).
  - exists src, offset. repeat split; [assumption | lia | lia].
  - apply Hrot. exact Horow.
Qed.

Lemma rounds_rotated {E} max_offset n :
  forall w : World E,
    well_formed w -> 4 <= img_height (self w) < 2 ^ 53 ->
    0 <= max_offset <= img_width (self w) -> rows_rotated w ->
    exists w',
      repeat_rounds n (glitch_round_with glitch_left glitch_right max_offset) w
      = Return tt w' /\ well_formed w' /\ same_source w w' /\ rows_rotated w'.
Proof.
  induction n as [|n IH]; intros w Hwf Hh Hmo Hrot.
  - exists w. split; [reflexivity|]. split; [assumption|].
    split; [apply same_source_refl | assumption].
  - cbn [repeat_rounds]. unfold bind.
    assert (Hround : exists w1,
               glitch_round_with glitch_left glitch_right max_offset w = Return tt w1 /\
               well_formed w1 /\ same_source w w1 /\ rows_rotated w1).
    { rewrite glitch_round_right_only. unfold bind. rewrite randint_run by lia.
      pose proof (in_range_bounds 0 max_offset (next_draw (rng w)) ltac:(lia)) as Hd.
      destruct (in_range 0 max_offset (next_draw (rng w)) =? 0).
      - exists (drawn w). split; [reflexivity|]. split; [exact Hwf|].
        split; [repeat split | exact Hrot].
      - destruct (glitch_right_rotated (drawn w)
                    (in_range 0 max_offset (next_draw (rng w))))
          as (w1 & Hrun & Hwf1 & Hs1 & Hrot1);
          [exact Hwf | exact Hh | cbn; lia | exact Hrot |].
        exists w1. split; [exact Hrun|]. split; [exact Hwf1|]. split; [exact Hs1 | exact Hrot1]. }
    destruct Hround as (w1 & -> & Hwf1 & Hs1 & Hrot1).
    pose proof Hs1 as (HI & HW & HH & HC).
    destruct (IH w1 Hwf1 ltac:(lia) ltac:(lia) Hrot1) as (w' & Hrun & Hwf' & Hs' & Hrot').
    exists w'. split; [exact Hrun|]. split; [exact Hwf'|].
    split; [|exact Hrot']. eapply same_source_trans; [exact Hs1 | exact Hs'].
Qed.

(** X2.  Every offset the loop can draw lies between 0 and the width: for an
    intensity from 1 to 10 and a width below [2 ^ 53], [max_offset] is
    computed without error and is itself in that interval. *)
Theorem offset_draw_within_width (glitch_amount width : Z) :
  1 <= glitch_amount <= 10 -> 0 <= width < 2 ^ 53 ->
  exists max_offset,
    max_offset_of glitch_amount width = Good max_offset /\
    0 <= max_offset <= width /\
    forall raw, 0 <= in_range 0 max_offset raw <= width.
Proof.
  intros Hga Hw.
  destruct (max_offset_bounds glitch_amount width Hga Hw) as (max_offset & Hrun & Hmo).
  exists max_offset. split; [exact Hrun|]. split; [exact Hmo|].
  intros raw. pose proof (in_range_bounds 0 max_offset raw ltac:(lia)). lia.
Qed.

Lemma offset_draw_within_width_witness :
  exists max_offset,
    max_offset_of 7 1920 = Good max_offset /\
    0 <= max_offset <= 1920 /\
    forall raw, 0 <= in_range 0 max_offset raw <= 1920.
Proof.
  apply (offset_draw_within_width 7 1920); lia.
Defined.

(** X4.  On a freshly loaded image of at least 4 rows the loop never fails,
    whatever is drawn, and every row it leaves in the output is the row of
    the same index of the source, rotated: the shifts move pixels within
    their row only. *)
Theorem loop_rotates_rows {E} (g : Rng) (width height tuple_len : Z)
    (data : list (list E)) (glitch_amount : Z) :
  well_formed (fresh_world g width height tuple_len data) ->
  4 <= height < 2 ^ 53 -> width < 2 ^ 53 -> 1 <= glitch_amount <= 10 ->
  exists max_offset w1,
    max_offset_of glitch_amount width = Good max_offset /\
    glitching glitch_amount max_offset (fresh_world g width height tuple_len data)
    = Return tt w1 /\
    well_formed w1 /\
    forall (i : nat) (src : list E),
      data !! i = Some src ->
      exists offset,
        0 <= offset <= width /\
        rows (outputarr (self w1)) !! i = Some (rotate_right width offset src).
Proof.
  intros Hwf Hh Hw Hga.
  pose proof Hwf as (HsI & _ & _ & _ & HcI & _).
  pose proof HsI as (_ & HW & HlI & _). cbn in HW, HcI, HlI.
  destruct (max_offset_bounds glitch_amount width Hga ltac:(lia)) as (max_offset & Hmo & Hrange).
  destruct (rounds_rotated max_offset (Z.to_nat (glitch_amount * 2))
              (fresh_world g width height tuple_len data) Hwf Hh Hrange
              (fresh_rows_rotated _ Hwf eq_refl))
    as (w1 & Hrun & Hwf1 & (HI & HW1 & HH1 & _) & Hrot1).
  exists max_offset, w1. split; [exact Hmo|]. split; [exact Hrun|]. split; [exact Hwf1|].
  intros i src Hsrc.
  destruct Hwf1 as (_ & (_ & _ & HlO & _) & _ & HnO & _).
  destruct (lookup_lt_is_Some_2 (rows (outputarr (self w1))) i) as [orow Horow].
  { apply lookup_lt_Some in Hsrc. cbn in HH1. lia. }
  destruct (Hrot1 i orow Horow) as (src' & offset & Hsrc' & Ho & ->).
  rewrite HI in Hsrc'. cbn in Hsrc', HW1. rewrite Hsrc in Hsrc'. injection Hsrc' as <-.
  rewrite HW1 in *. exists offset. split; [exact Ho | exact Horow].
Qed.

Lemma loop_rotates_rows_witness :
  exists max_offset w1,
    max_offset_of 5 4 = Good max_offset /\
    glitching 5 max_offset (docstring_world 1) = Return tt w1 /\
    well_formed w1 /\
    forall (i : nat) (src : list Z),
      docstring_rows !! i = Some src ->
      exists offset,
        0 <= offset <= 4 /\
        rows (outputarr (self w1)) !! i = Some (rotate_right 4 offset src).
Proof.
  apply (loop_rotates_rows (constant_rng 1) 4 4 1 docstring_rows 5);
    [evaluate_shape | lia | lia | lia].
Defined.

(** ** A whole call *)

Lemma rotated_pixels tuple_len (w : World (list Z)) :
  rows_rotated w ->
  Forall (Forall (fun p => Z.of_nat (length p) = tuple_len)) (rows (inputarr (self w))) ->
  Forall (Forall (fun p => Z.of_nat (length p) = tuple_len)) (rows (outputarr (self w))).
Proof.
  intros Hrot Hin. apply Forall_lookup. intros i orow Hi.
  destruct (Hrot i orow Hi) as (src & o & Hsrc & _ & ->).
  rewrite Forall_lookup in Hin. specialize (Hin i src Hsrc).
  unfold rotate_right. apply Forall_app.
  split; [apply Forall_drop | apply Forall_take]; exact Hin.
Qed.

Lemma in_rotate_right {A} width offset (row : list A) (x : A) :
  In x (rotate_right width offset row) -> In x row.
Proof.
  unfold rotate_right. intros Hx.
  rewrite <- (take_drop (Z.to_nat (width - offset)) row).
  apply in_app_iff. apply in_app_iff in Hx. tauto.
Qed.

(** After the loop the output holds pixels of the source only. *)
Lemma rotated_samples {E} (w : World E) (x : E) :
  rows_rotated w ->
  In x (concat (rows (outputarr (self w)))) -> In x (concat (rows (inputarr (self w)))).
Proof.
  intros Hrot Hx. apply in_concat in Hx as (orow & Horow & Hx).
  apply list_elem_of_In, list_elem_of_lookup_1 in Horow as [i Hi].
  destruct (Hrot i orow Hi) as (src & o & Hsrc & _ & ->).
  apply in_concat. exists src. split; [|exact (in_rotate_right _ _ _ _ Hx)].
  apply list_elem_of_In. exact (list_elem_of_lookup_2 _ _ _ Hsrc).
Qed.

Lemma sample_in (a : ndarray Z) r c v :
  sample a r c = Some v -> In v (concat (rows a)).
Proof.
  unfold sample. destruct (rows a !! Z.to_nat r) as [row|] eqn:Hrow; [|discriminate].
  intros Hv. apply in_concat. exists row.
  split; apply list_elem_of_In; eapply list_elem_of_lookup_2; eassumption.
Qed.

Lemma in_sample height flat_width (a : ndarray Z) v :
  flat_shape height flat_width a -> In v (concat (rows a)) ->
  exists r c, 0 <= r < height /\ 0 <= c < flat_width /\ sample a r c = Some v.
Proof.
  intros ((_ & _ & Hl & Hall) & Hn & Hc) Hv.
  apply in_concat in Hv as (row & Hrow & Hv).
  apply list_elem_of_In, list_elem_of_lookup_1 in Hrow as [i Hi].
  apply list_elem_of_In, list_elem_of_lookup_1 in Hv as [j Hj].
  rewrite Forall_lookup in Hall. specialize (Hall i row Hi). cbn in Hall.
  apply lookup_lt_Some in Hi as Hi'. apply lookup_lt_Some in Hj as Hj'.
  exists (Z.of_nat i), (Z.of_nat j). split; [lia|]. split; [lia|].
  unfold sample. rewrite !Nat2Z.id, Hi. exact Hj.
Qed.

(** Lines 9-70.  On a decoded image of at least 4 rows, with twice the
    intensity no more than either size, every step before line 71 succeeds
    whatever is drawn: [glitch_image] is the call of [fromarray] on an
    array of the size of the source, all of whose samples are samples of
    the source. *)
Lemma glitch_image_reaches_fromarray (img : Image) (glitch_amount : Z) (g : Rng) :
  decoded img -> 1 <= glitch_amount <= 10 ->
  4 <= snd (size img) < 2 ^ 53 -> fst (size img) < 2 ^ 53 ->
  glitch_amount * 2 <= snd (size img) -> glitch_amount * 2 <= fst (size img) ->
  exists out3,
    glitch_image (ImageFile img) glitch_amount g
    = fromarray (getbands img) out3 (mode img) /\
    pixel_shape (snd (size img)) (fst (size img)) (Z.of_nat (length (getbands img))) out3 /\
    forall v, In v (concat (concat (rows out3))) -> In v (concat (concat (pixels img))).
Proof.
  intros (Hbands & Hshape) Hga Hh Hw Hgh Hgw.
  destruct img as [[W H] bands md px]. cbn [size fst snd getbands mode pixels] in *.
  unfold glitch_image, glitch_image_with. cbn [size getbands mode pixels].
  destruct (Z.leb_spec 1 glitch_amount); [|lia].
  destruct (Z.leb_spec glitch_amount 10); [|lia]. cbn [andb negb].
  set (C := Z.of_nat (length bands)) in *.
  set (arr := {| nrows := H; ncols := W; rows := px |}) in *.
  set (w0 := {| rng := g; self := _ |}).
  pose proof Hshape as ((Hn0 & Hc0 & Hl0 & Hall0) & _ & _ & Hpix0). cbn [nrows ncols rows arr] in *.
  destruct (max_offset_bounds glitch_amount W Hga ltac:(lia)) as (max_offset & -> & Hmo).
  assert (Hwf0 : well_formed w0).
  { unfold well_formed, shaped. cbn. tauto. }
  unfold glitching_with.
  destruct (rounds_rotated max_offset (Z.to_nat (glitch_amount * 2)) w0 Hwf0 Hh Hmo
              (fresh_rows_rotated _ Hwf0 eq_refl))
    as (w1 & -> & Hwf1 & (HI & HW1 & HH1 & HC1) & Hrot1).
  pose proof (rotated_pixels C w1 Hrot1) as Hpix1.
  pose proof (fun p => rotated_samples w1 p Hrot1) as Hfrom1.
  clear Hrot1.
  destruct w1 as [g1 [iw ih tl in1 out1]].
  cbn [self inputarr outputarr img_width img_height pixel_tuple_len w0] in *. subst iw ih tl in1.
  destruct Hwf1 as (_ & HsO & _ & HnO & _ & HcO).
  cbn [self inputarr outputarr img_width img_height pixel_tuple_len] in *.
  assert (Hshape1 : pixel_shape H W C out1).
  { split; [exact HsO|]. split; [exact HnO|]. split; [exact HcO|]. apply Hpix1. exact Hpix0. }
  unfold flatten_world.
  cbn [rng self inputarr outputarr img_width img_height pixel_tuple_len].
  destruct (reshape_flat_run H W C arr Hshape ltac:(lia) ltac:(lia)) as [-> HflatI].
  destruct (reshape_flat_run H W C out1 Hshape1 ltac:(lia) ltac:(lia)) as [-> HflatO].
  cbv iota.
  set (in2 := {| nrows := H; ncols := W * C; rows := map (@concat Z) (rows arr) |}) in *.
  set (out2 := {| nrows := H; ncols := W * C; rows := map (@concat Z) (rows out1) |}) in *.
  set (w2 := {| rng := g1; self := _ |}).
  assert (Hwf2 : flat_well_formed w2).
  { split; [cbn; lia|]. split; [exact HflatI | exact HflatO]. }
  pose proof Hwf2 as (Ht2 & _).
  destruct (drawn_bounds w2 glitch_amount Ht2 ltac:(lia)) as (Hx & Hy & Hci).
  rewrite (channel_pass_run w2 glitch_amount Ht2 ltac:(lia)).
  set (offset_x := drawn_offset_x glitch_amount w2) in *.
  set (offset_y := drawn_offset_y glitch_amount w2) in *.
  set (channel_index := drawn_channel w2) in *.
  destruct (channel_offset_in_range (drawn (drawn (drawn w2))) offset_x offset_y channel_index)
    as (out3 & -> & Hshape3 & Hmoved & Hkept);
    [exact Hwf2 | exact Hci | unfold w2; cbn [drawn self img_height img_width]; lia
    | unfold w2; cbn [drawn self img_height img_width]; lia |].
  unfold w2 in Hmoved, Hkept, Hci.
  cbn [set_outputarr drawn self inputarr outputarr img_width img_height pixel_tuple_len]
    in Hmoved, Hkept, Hci, Hshape3 |- *.
  destruct (reshape_pixels_run H W C out3 Hshape3 ltac:(lia) ltac:(lia))
    as (a3 & -> & (Hs3 & Hn3 & Hc3 & Hpix3) & Hsame3).
  exists a3. split; [reflexivity|]. split; [exact (conj Hs3 (conj Hn3 (conj Hc3 Hpix3)))|].
  intros v Hv. rewrite Hsame3 in Hv.
  destruct (in_sample _ _ _ _ Hshape3 Hv) as (r & c & Hr & Hc & Hrc).
  assert (Hin2 : forall r' c', sample in2 r' c' = Some v -> In v (concat (concat px))).
  { intros r' c' Hs. apply sample_in in Hs. cbn [in2 rows arr] in Hs.
    rewrite concat_rows. exact Hs. }
  destruct (Z.eq_dec (c mod C) channel_index) as [Hslot|Hslot].
  - destruct (moved_from H W C channel_index offset_x offset_y r c ltac:(lia) Hr Hc Hslot)
      as (Hrow0 & Hcol0 & Hslot0 & Hrow & Hcol).
    pose proof (Hmoved _ _ Hrow0 Hcol0 Hslot0) as Hm. rewrite Hrow, Hcol, Hrc in Hm.
    symmetry in Hm. exact (Hin2 _ _ Hm).
  - rewrite (Hkept r c Hr Hc Hslot) in Hrc. apply sample_in in Hrc.
    cbn [out2 rows] in Hrc. rewrite <- concat_rows in Hrc.
    apply in_concat in Hrc as (p & Hp & Hvp).
    apply in_concat. exists p. split; [|exact Hvp].
    exact (Hfrom1 p Hp).
Qed.

(** X6.  On a decoded image of two bands or more, in a mode [fromarray] takes
    with three axes, of at least 4 rows and with twice the intensity no
    more than either size, [glitch_image] returns an image whatever is
    drawn.  The image has the size, the bands and the mode of the source
    and pixel data of that size, and every sample in it is a sample of the
    source: the call moves samples and makes no new one. *)
Theorem glitch_image_succeeds (img : Image) (glitch_amount : Z) (g : Rng) :
  decoded img -> (2 <= length (getbands img))%nat -> single_plane (mode img) = false ->
  1 <= glitch_amount <= 10 ->
  4 <= snd (size img) < 2 ^ 53 -> fst (size img) < 2 ^ 53 ->
  glitch_amount * 2 <= snd (size img) -> glitch_amount * 2 <= fst (size img) ->
  exists out,
    glitch_image (ImageFile img) glitch_amount g = Good out /\
    size out = size img /\ getbands out = getbands img /\ mode out = mode img /\
    decoded out /\
    forall v, In v (concat (concat (pixels out))) -> In v (concat (concat (pixels img))).
Proof.
  intros Hdec _ Hmode Hga Hh Hw Hgh Hgw.
  destruct (glitch_image_reaches_fromarray img glitch_amount g Hdec Hga Hh Hw Hgh Hgw)
    as (out3 & -> & (Hs3 & Hn3 & Hc3 & Hpix3) & Hfrom).
  destruct Hdec as (Hbands & _).
  unfold fromarray. rewrite Hmode.
  eexists. split; [reflexivity|]. cbn [size getbands mode pixels].
  split; [rewrite Hn3, Hc3; destruct (size img); reflexivity|].
  split; [reflexivity|]. split; [reflexivity|]. split; [|exact Hfrom].
  split; [exact Hbands|]. cbn [size getbands mode pixels fst snd].
  destruct out3 as [n3 c3 r3]. cbn [nrows ncols rows] in *.
  split; [exact Hs3|]. split; [reflexivity|]. split; [reflexivity | exact Hpix3].
Qed.

Lemma glitch_image_succeeds_witness :
  exists out,
    glitch_image (ImageFile rgb_image) 1 (constant_rng 1) = Good out /\
    size out = (3, 4) /\ getbands out = getbands rgb_image /\ mode out = mode rgb_image /\
    decoded out /\
    forall v, In v (concat (concat (pixels out))) ->
              In v (concat (concat (pixels rgb_image))).
Proof.
  apply (glitch_image_succeeds rgb_image 1 (constant_rng 1)); cbn; try lia;
    try reflexivity.
  unfold decoded, pixel_shape, shaped; cbn; repeat split; try lia; repeat constructor.
Defined.

(** X15.  An image in one of the single-plane modes (1, L, I, P, F) is never
    glitched: whatever the intensity and the draws, [glitch_image] ends in
    an exception; and when the image has at least 4 rows and twice the
    intensity is no more than either size, so that every step before
    line 71 succeeds, the exception is the [ValueError] of [fromarray],
    which is handed an array of three axes. *)
Theorem single_plane_image_fails :
  (forall (img : Image) (glitch_amount : Z) (g : Rng),
      single_plane (mode img) = true ->
      exists e, glitch_image (ImageFile img) glitch_amount g = Bad e) /\
  (forall (img : Image) (glitch_amount : Z) (g : Rng),
      single_plane (mode img) = true ->
      decoded img -> 1 <= glitch_amount <= 10 ->
      4 <= snd (size img) < 2 ^ 53 -> fst (size img) < 2 ^ 53 ->
      glitch_amount * 2 <= snd (size img) -> glitch_amount * 2 <= fst (size img) ->
      glitch_image (ImageFile img) glitch_amount g = Bad ValueError).
Proof.
  split.
  - intros img glitch_amount g Hmode. unfold glitch_image, glitch_image_with.
    destruct (negb _); [eexists; reflexivity|].
    destruct (size img) as [width height].
    destruct (max_offset_of glitch_amount width); [|eexists; reflexivity].
    destruct (glitching_with _ _ _ _ _); [|eexists; reflexivity].
    destruct (flatten_world _); [|eexists; reflexivity].
    destruct (channel_pass _ _); [|eexists; reflexivity].
    destruct (reshape_pixels _ _ _ _); [|eexists; reflexivity].
    unfold fromarray. rewrite Hmode. eexists. reflexivity.
  - intros img glitch_amount g Hmode Hdec Hga Hh Hw Hgh Hgw.
    destruct (glitch_image_reaches_fromarray img glitch_amount g Hdec Hga Hh Hw Hgh Hgw)
      as (out3 & -> & _).
    unfold fromarray. rewrite Hmode. reflexivity.
Qed.

Lemma single_plane_image_fails_witness :
  glitch_image (ImageFile grey_image) 1 (constant_rng 1) = Bad ValueError.
Proof.
  apply (proj2 single_plane_image_fails grey_image 1 (constant_rng 1)); cbn; try lia;
    try reflexivity.
  unfold decoded, pixel_shape, shaped; cbn; repeat split; try lia; repeat constructor.
Defined.

(** ** A left shift as a right shift *)

Lemma same_rows_same_array {E} (a b : ndarray E) :
  nrows a = nrows b -> ncols a = ncols b -> length (rows a) = length (rows b) ->
  (forall i, (i < length (rows a))%nat -> rows a !! i = rows b !! i) ->
  a = b.
Proof.
  destruct a as [na ca ra], b as [nb cb rb]. cbn [nrows ncols rows].
  intros -> -> Hl Hrows. f_equal. apply list_eq. intros i.
  destruct (Nat.lt_ge_cases i (length ra)) as [Hi|Hi]; [exact (Hrows i Hi)|].
  rewrite !lookup_ge_None_2 by lia. reflexivity.
Qed.

(** X9.  A shift to the left by [offset] columns is the shift to the right by
    the other [width - offset] columns: the two calls write the same
    rows and end in the same state. *)
Theorem left_shift_is_complementary_right {E} (w : World E) (offset : Z) :
  well_formed w -> 4 <= img_height (self w) < 2 ^ 53 ->
  0 <= offset <= img_width (self w) ->
  glitch_left offset w = glitch_right (img_width (self w) - offset) w.
Proof.
  intros Hwf Hh Ho.
  destruct (glitch_left_rows w offset Hwf Hh Ho) as (o1 & -> & Hn1 & Hc1 & Hl1 & Hrows1).
  destruct (glitch_right_rows w (img_width (self w) - offset) Hwf Hh ltac:(lia))
    as (o2 & -> & Hn2 & Hc2 & Hl2 & Hrows2).
  destruct Hwf as (HsI & HsO & HnI & HnO & HcI & HcO).
  pose proof HsI as (_ & _ & HlI & _). pose proof HsO as (_ & _ & HlO & _).
  do 2 f_equal. apply same_rows_same_array; [lia | lia | lia |].
  intros i Hi.
  destruct (lookup_lt_is_Some_2 (rows (outputarr (self w))) i) as [orow Horow]; [lia|].
  destruct (lookup_lt_is_Some_2 (rows (inputarr (self w))) i) as [src Hsrc]; [lia|].
  rewrite (Hrows1 i orow src Horow Hsrc), (Hrows2 i orow src Horow Hsrc).
  unfold rotate_left, rotate_right.
  replace (img_width (self w) - (img_width (self w) - offset)) with offset by lia.
  reflexivity.
Qed.

Lemma left_shift_is_complementary_right_witness :
  glitch_left 1 (docstring_world 0) = glitch_right (4 - 1) (docstring_world 0).
Proof.
  apply (left_shift_is_complementary_right (docstring_world 0) 1);
    [evaluate_shape | cbn; lia | cbn; lia].
Defined.

(** ** Intensities whose ratio is a binary fraction *)

Lemma digits2_pos_iter_xO p k :
  Z.pos (digits2_pos (Pos.iter xO p k)) = Z.pos (digits2_pos p) + Z.pos k.
Proof.
  induction k as [|k IH] using Pos.peano_ind.
  - cbn [Pos.iter digits2_pos]. lia.
  - rewrite Pos.iter_succ. cbn [digits2_pos]. lia.
Qed.

(** A 53-bit mantissa with an exponent of the format is its own rounding. *)
Lemma round_aux_normal (pk : positive) (e : Z) :
  Z.pos (digits2_pos pk) = 53 -> -1074 <= e <= 971 ->
  binary_round_aux 53 1024 false (Z.pos pk) e loc_Exact = S754_finite false pk e.
Proof.
  intros Hd He. unfold binary_round_aux, shr_fexp, fexp, emin.
  cbn [Zdigits2 shr_record_of_loc]. rewrite Hd.
  replace (Z.max (53 + e - 53) (3 - 1024 - 53) - e) with 0 by lia.
  cbn [shr shr_m loc_of_shr_record round_nearest_even Zdigits2]. rewrite Hd.
  replace (Z.max (53 + e - 53) (3 - 1024 - 53) - e) with 0 by lia.
  cbn [shr shr_m].
  destruct (Z.leb_spec e (1024 - 53)); [reflexivity | lia].
Qed.

(** The float of a positive int below [2 ^ 53]: the int itself, shifted up
    to 53 bits. *)
Lemma normalize_exact (p : positive) :
  Z.pos p < 2 ^ 53 ->
  exists pk,
    binary_normalize 53 1024 (Z.pos p) 0 false
    = S754_finite false pk (Z.pos (digits2_pos p) - 53) /\
    Z.pos (digits2_pos pk) = 53 /\
    Z.pos pk = Z.pos p * 2 ^ (53 - Z.pos (digits2_pos p)).
Proof.
  intros Hp. pose proof (digits2_pos_lt p 53 ltac:(lia) Hp) as Hd.
  set (d := Z.pos (digits2_pos p)) in *.
  cbn [binary_normalize]. unfold binary_round, shl_align. fold d.
  assert (Hf : fexp 53 1024 (d + 0) = d - 53) by (unfold fexp, emin, d; lia).
  rewrite Hf.
  destruct (d - 53 - 0) as [|k|k] eqn:Hk; [|lia|].
  - exists p. replace (d - 53) with 0 by lia.
    split; [apply round_aux_normal; [fold d|]; lia|]. fold d.
    split; [lia|]. replace (53 - d) with 0 by lia. lia.
  - exists (Pos.iter xO p k).
    assert (Hdk : Z.pos (digits2_pos (Pos.iter xO p k)) = 53).
    { rewrite digits2_pos_iter_xO. fold d. lia. }
    split; [apply round_aux_normal; [exact Hdk | lia]|]. split; [exact Hdk|].
    rewrite pos_iter_xO. f_equal. f_equal. lia.
Qed.

(** Multiplying by a power of two held as [2 ^ 52] with its exponent only
    moves the exponent. *)
Lemma round_aux_shift52 (pk : positive) (e : Z) :
  Z.pos (digits2_pos pk) = 53 -> -1074 <= e + 52 <= 971 ->
  binary_round_aux 53 1024 false (Z.pos (4503599627370496 * pk)) e loc_Exact
  = S754_finite false pk (e + 52).
Proof.
  intros Hd He. unfold binary_round_aux, shr_fexp, fexp, emin.
  cbv [Pos.mul]. cbn [Zdigits2 digits2_pos shr_record_of_loc].
  rewrite !Pos2Z.inj_succ, Hd.
  match goal with |- context [shr _ e ?n] => replace n with 52 by lia end.
  cbn [shr SpecFloat.iter_pos shr_1 orb shr_m loc_of_shr_record round_nearest_even].
  cbn [Zdigits2]. rewrite Hd.
  match goal with |- context [shr _ (e + 52) ?n] => replace n with 0 by lia end.
  cbn [shr shr_m].
  destruct (Z.leb_spec (e + 52) (1024 - 53)); [reflexivity | lia].
Qed.

(** X3.  At intensity 10 the largest offset of a round is the whole width, and at
    intensity 5 it is a quarter of the width, rounded down: for these two
    the ratio is a binary fraction and the float arithmetic of line 42 is
    exact. *)
Theorem max_offset_exact (width : Z) :
  0 <= width < 2 ^ 53 ->
  max_offset_of 10 width = Good width /\ max_offset_of 5 width = Good (width / 4).
Proof.
  intros [Hlo Hhi]. destruct width as [|p|p]; [split; reflexivity| |lia].
  destruct (normalize_exact p Hhi) as (pk & Hnorm & Hdk & Hpk).
  pose proof (digits2_pos_lt p 53 ltac:(lia) Hhi) as Hd.
  set (d := Z.pos (digits2_pos p)) in *.
  assert (Hd1 : 1 <= d) by (unfold d; lia).
  unfold max_offset_of.
  change (PyFloat.int_truediv (10 ^ 2) 100)
    with (@Good spec_float (S754_finite false 4503599627370496 (-52))).
  change (PyFloat.int_truediv (5 ^ 2) 100)
    with (@Good spec_float (S754_finite false 4503599627370496 (-54))).
  unfold PyFloat.mul_int, PyFloat.of_int, PyFloat.prec, PyFloat.emax.
  rewrite Hnorm. cbn [PyFloat.finite_or_overflow SFmul xorb].
  rewrite !round_aux_shift52 by (try assumption; lia).
  cbn [PyFloat.to_int]. split; f_equal.
  - destruct (Z.leb_spec 0 (-52 + (d - 53) + 52)).
    + rewrite Hpk. replace (53 - d) with 0 by lia.
      replace (-52 + (d - 53) + 52) with 0 by lia. lia.
    + rewrite Hpk. replace (- (-52 + (d - 53) + 52)) with (53 - d) by lia.
      apply Z.div_mul. apply Z.pow_nonzero; lia.
  - destruct (Z.leb_spec 0 (-54 + (d - 53) + 52)); [lia|].
    rewrite Hpk. replace (- (-54 + (d - 53) + 52)) with ((53 - d) + 2) by lia.
    rewrite Z.pow_add_r by lia. change (2 ^ 2) with 4.
    rewrite (Z.mul_comm (2 ^ (53 - d)) 4).
    apply Z.div_mul_cancel_r; [lia | apply Z.pow_nonzero; lia].
Qed.

Lemma max_offset_exact_witness :
  max_offset_of 10 1920 = Good 1920 /\ max_offset_of 5 1920 = Good (1920 / 4).
Proof. apply (max_offset_exact 1920). lia. Defined.

(** ** What the channel offset reads *)

Lemma setitem_at_values (a a' : ndarray Z) i j x r c :
  setitem_at a i j x = Good a' ->
  sample a' r c = sample a r c \/ sample a' r c = Some x.
Proof.
  unfold setitem_at.
  destruct (norm_index (nrows a) i) as [i'|]; [|discriminate].
  destruct (norm_index (ncols a) j) as [j'|]; [|discriminate].
  intros [= <-]. unfold sample. cbn [rows].
  destruct (decide (Z.to_nat r = Z.to_nat i')) as [->|Hr].
  - rewrite list_lookup_alter_eq.
    destruct (rows a !! Z.to_nat i') as [row|]; cbn; [|left; reflexivity].
    destruct (decide (Z.to_nat c = Z.to_nat j')) as [->|Hc].
    + destruct (le_lt_dec (length row) (Z.to_nat j')) as [Hge|Hlt].
      * left. rewrite list_insert_ge by exact Hge. reflexivity.
      * right. apply list_lookup_insert_eq. exact Hlt.
    + left. apply list_lookup_insert_ne. congruence.
  - left. rewrite list_lookup_alter_ne by congruence. reflexivity.
Qed.

(** What [np.ndenumerate] yields are the samples of the array, each with
    its own index. *)
Lemma ndenumerate_samples (a : ndarray Z) :
  Forall (fun item => sample a (fst (fst item)) (snd (fst item)) = Some (snd item))
         (ndenumerate a).
Proof.
  unfold ndenumerate. apply Forall_concat, Forall_lookup. intros i items Hi.
  rewrite list_lookup_imap in Hi.
  destruct (rows a !! i) as [row|] eqn:Hrow; [|discriminate]. injection Hi as <-.
  apply Forall_lookup. intros j item Hj. rewrite list_lookup_imap in Hj.
  destruct (row !! j) as [x|] eqn:Hx; [|discriminate]. injection Hj as <-.
  cbn [fst snd]. unfold sample. rewrite !Nat2Z.id, Hrow. exact Hx.
Qed.

Lemma assign_at_values i j x (w : World Z) r c :
  sample (outputarr (self (final_state (assign_at i j x w)))) r c
  = sample (outputarr (self w)) r c \/
  sample (outputarr (self (final_state (assign_at i j x w)))) r c = Some x.
Proof.
  unfold assign_at, bind, gets, lift, modify.
  destruct (setitem_at (outputarr (self w)) i j x) as [a'|e] eqn:Hset;
    cbn [ret raise final_state set_outputarr self outputarr]; [|left; reflexivity].
  exact (setitem_at_values _ _ _ _ _ r c Hset).
Qed.

(** One round of the loop writes nothing, or the enumerated sample. *)
Lemma body_values channel_index item locals (w : World Z) r c :
  sample (outputarr (self (final_state (color_offset_body channel_index item locals w)))) r c
  = sample (outputarr (self w)) r c \/
  sample (outputarr (self (final_state (color_offset_body channel_index item locals w)))) r c
  = Some (snd item).
Proof.
  destruct item as [[index0 index1] x], locals as [offset_y offset_x].
  unfold color_offset_body, bind, gets. cbn [snd].
  destruct (py_mod index1 (pixel_tuple_len (self w))) as [slot|e];
    cbn [lift ret raise final_state]; [|left; reflexivity].
  destruct (negb (slot =? 0)); cbn [ret final_state]; [left; reflexivity|].
  match goal with
  | |- context [assign_at ?i ?j x w] =>
      pose proof (assign_at_values i j x w r c) as Hw;
      destruct (assign_at i j x w) as [[] w'|e w']
  end; cbn [ret final_state] in *; exact Hw.
Qed.

Lemma for_each_values channel_index (src : ndarray Z) items :
  forall locals (w : World Z),
    Forall (fun item => sample src (fst (fst item)) (snd (fst item)) = Some (snd item)) items ->
    kept_or_from src (outputarr (self w))
      (outputarr (self (final_state
         (for_each items (color_offset_body channel_index) locals w)))).
Proof.
  induction items as [|item items IH]; intros locals w Hitems r c.
  - left. reflexivity.
  - apply Forall_cons in Hitems as [Hitem Hitems].
    cbn [for_each]. unfold bind.
    pose proof (body_values channel_index item locals w) as Hbody.
    destruct (color_offset_body channel_index item locals w) as [locals' w1|e w1];
      cbn [final_state] in *.
    + destruct (IH locals' w1 Hitems r c) as [Hkept|Hfrom].
      * rewrite Hkept. destruct (Hbody r c) as [Hk|Hx]; [left; exact Hk|].
        right. exists (fst (fst item)), (snd (fst item)), (snd item).
        split; [exact Hitem | exact Hx].
      * right. exact Hfrom.
    + destruct (Hbody r c) as [Hk|Hx]; [left; exact Hk|].
      right. exists (fst (fst item)), (snd (fst item)), (snd item).
      split; [exact Hitem | exact Hx].
Qed.

(** However [color_offset] ends, and whatever the offsets are, a sample of
    the destination is afterwards what it was or a sample of the source. *)
Lemma color_offset_values offset_x offset_y channel_index (w : World Z) :
  kept_or_from (inputarr (self w)) (outputarr (self w))
    (outputarr (self (final_state (color_offset offset_x offset_y channel_index w)))).
Proof.
  unfold color_offset, bind, gets.
  match goal with
  | |- context [for_each ?items ?body ?locals w] =>
      pose proof (for_each_values channel_index (inputarr (self w)) items locals w
                    (ndenumerate_samples _)) as Hloop;
      destruct (for_each items body locals w) as [l w'|e w']
  end; cbn [ret final_state] in *; exact Hloop.
Qed.

Lemma channel_pass_values glitch_amount (w : World Z) :
  kept_or_from (inputarr (self w)) (outputarr (self w))
    (outputarr (self (final_state (channel_pass glitch_amount w)))).
Proof.
  unfold channel_pass, get_random_channel, bind, gets, randint.
  destruct (glitch_amount * 2 <? - glitch_amount * 2);
    cbn [final_state rng self]; [intros r c; left; reflexivity|].
  destruct (pixel_tuple_len (self w) - 1 <? 0);
    cbn [final_state rng self]; [intros r c; left; reflexivity|].
  match goal with
  | |- context [color_offset ?x ?y ?ci ?w3] => exact (color_offset_values x y ci w3)
  end.
Qed.

(** C7.  The source buffer is never mutated once the operation has begun,
    and it is the only buffer read.  However they end, either band shift,
    any number of rounds of the glitching loop, the whole loop, the
    channel-offset call and the channel pass around it leave [inputarr] as
    it was, and flattening keeps its samples in order.  A band shift made
    after any number of rounds writes rows of the original image, not of
    what earlier shifts produced; on a destination of any content it
    writes rotations of the source rows into the band and leaves the other
    rows of the destination alone.  The channel offset, for all offsets and
    however it ends, leaves in every place of the destination the sample
    that was there or a sample of the source, and so does the channel
    pass; within range each slot it writes holds the source sample the
    offsets carry there, whatever the destination held. *)
Theorem source_never_mutated :
  (forall E (offset : Z) (w : World E),
      inputarr (self (final_state (glitch_right offset w))) = inputarr (self w) /\
      inputarr (self (final_state (glitch_left offset w))) = inputarr (self w)) /\
  (forall E (n : nat) (max_offset : Z) (w : World E),
      inputarr (self (final_state
        (repeat_rounds n (glitch_round_with glitch_left glitch_right max_offset) w)))
      = inputarr (self w)) /\
  (forall E (glitch_amount max_offset : Z) (w : World E),
      inputarr (self (final_state (glitching glitch_amount max_offset w)))
      = inputarr (self w)) /\
  (forall w : World (list Z),
      match flatten_world w with
      | Good w2 => concat (rows (inputarr (self w2))) = concat (concat (rows (inputarr (self w))))
      | Bad _ => True
      end) /\
  (forall (offset_x offset_y channel_index : Z) (w : World Z),
      inputarr (self (final_state (color_offset offset_x offset_y channel_index w)))
      = inputarr (self w)) /\
  (forall (glitch_amount : Z) (w : World Z),
      inputarr (self (final_state (channel_pass glitch_amount w))) = inputarr (self w)) /\
  (forall E (n : nat) (max_offset offset : Z) (w : World E),
      well_formed w -> 4 <= img_height (self w) < 2 ^ 53 ->
      0 <= max_offset <= img_width (self w) -> 0 <= offset <= img_width (self w) ->
      exists wk out_right out_left,
        repeat_rounds n (glitch_round_with glitch_left glitch_right max_offset) w
        = Return tt wk /\
        glitch_right offset wk = Return tt (set_outputarr out_right (drawn (drawn wk))) /\
        glitch_left offset wk = Return tt (set_outputarr out_left (drawn (drawn wk))) /\
        forall (r : nat) (src : list E),
          in_band wk r = true -> rows (inputarr (self w)) !! r = Some src ->
          rows out_right !! r = Some (rotate_right (img_width (self w)) offset src) /\
          rows out_left !! r = Some (rotate_left offset src)) /\
  (forall E (offset : Z) (w : World E),
      well_formed w -> 4 <= img_height (self w) < 2 ^ 53 ->
      0 <= offset <= img_width (self w) ->
      exists out_right out_left,
        glitch_right offset w = Return tt (set_outputarr out_right (drawn (drawn w))) /\
        glitch_left offset w = Return tt (set_outputarr out_left (drawn (drawn w))) /\
        forall (r : nat) (orow src : list E),
          rows (outputarr (self w)) !! r = Some orow ->
          rows (inputarr (self w)) !! r = Some src ->
          rows out_right !! r
          = Some (if in_band w r then rotate_right (img_width (self w)) offset src
                  else orow) /\
          rows out_left !! r
          = Some (if in_band w r then rotate_left offset src else orow)) /\
  (forall (offset_x offset_y channel_index glitch_amount : Z) (w : World Z),
      kept_or_from (inputarr (self w)) (outputarr (self w))
        (outputarr (self (final_state (color_offset offset_x offset_y channel_index w)))) /\
      kept_or_from (inputarr (self w)) (outputarr (self w))
        (outputarr (self (final_state (channel_pass glitch_amount w))))) /\
  (forall (offset_x offset_y channel_index : Z) (w : World Z),
      flat_well_formed w ->
      0 <= channel_index < pixel_tuple_len (self w) ->
      - img_height (self w) <= offset_y <= img_height (self w) ->
      - img_width (self w) <= offset_x <= img_width (self w) ->
      exists out',
        color_offset offset_x offset_y channel_index w = Return tt (set_outputarr out' w) /\
        (forall row col,
            0 <= row < img_height (self w) ->
            0 <= col < img_width (self w) * pixel_tuple_len (self w) ->
            col mod pixel_tuple_len (self w) = 0 ->
            sample out' ((row + offset_y) mod img_height (self w))
                        ((col + (offset_x * pixel_tuple_len (self w) + channel_index))
                           mod (img_width (self w) * pixel_tuple_len (self w)))
            = sample (inputarr (self w)) row col) /\
        (forall row col,
            0 <= row < img_height (self w) ->
            0 <= col < img_width (self w) * pixel_tuple_len (self w) ->
            col mod pixel_tuple_len (self w) <> channel_index ->
            sample out' row col = sample (outputarr (self w)) row col)).
Proof.
  repeat apply conj.
  - intros E offset w. split.
    + apply (frames_glitch_right offset w).
    + apply (frames_glitch_left offset w).
  - intros E n max_offset w.
    apply (frames_repeat_rounds n _ (frames_glitch_round max_offset) w).
  - intros E glitch_amount max_offset w.
    apply (frames_repeat_rounds _ _ (frames_glitch_round max_offset) w).
  - intros w. unfold flatten_world.
    destruct (reshape_flat (img_height (self w)) (inputarr (self w))) as [a2|] eqn:Hin;
      [|exact I].
    destruct (reshape_flat (img_height (self w)) (outputarr (self w))); [|exact I].
    cbn [self inputarr]. eapply reshape_flat_samples, Hin.
  - intros offset_x offset_y channel_index w.
    apply (frames_color_offset offset_x offset_y channel_index w).
  - intros glitch_amount w. apply (frames_channel_pass glitch_amount w).
  - intros E n max_offset offset w Hwf Hh Hmo Ho.
    destruct (rounds_well_formed max_offset n w Hwf Hh Hmo)
      as (wk & Hrun & Hwfk & HI & HW & HH & _).
    destruct (glitch_right_rows wk offset Hwfk ltac:(lia) ltac:(lia))
      as (o1 & Hrun1 & _ & _ & _ & Hrows1).
    destruct (glitch_left_rows wk offset Hwfk ltac:(lia) ltac:(lia))
      as (o2 & Hrun2 & _ & _ & _ & Hrows2).
    exists wk, o1, o2. do 3 (split; [assumption|]).
    intros r src Hband Hsrc. rewrite <- HI in Hsrc.
    destruct Hwfk as ((_ & _ & HlI & _) & (_ & _ & HlO & _) & HnI & HnO & _).
    destruct (lookup_lt_is_Some_2 (rows (outputarr (self wk))) r) as [orow Horow].
    { apply lookup_lt_Some in Hsrc. lia. }
    rewrite (Hrows1 r orow src), (Hrows2 r orow src) by assumption.
    rewrite Hband, HW. split; reflexivity.
  - intros E offset w Hwf Hh Ho.
    destruct (glitch_right_rows w offset Hwf Hh Ho) as (o1 & Hrun1 & _ & _ & _ & Hrows1).
    destruct (glitch_left_rows w offset Hwf Hh Ho) as (o2 & Hrun2 & _ & _ & _ & Hrows2).
    exists o1, o2. do 2 (split; [assumption|]).
    intros r orow src Horow Hsrc.
    split; [exact (Hrows1 r orow src Horow Hsrc) | exact (Hrows2 r orow src Horow Hsrc)].
  - intros offset_x offset_y channel_index glitch_amount w. split.
    + apply color_offset_values.
    + apply channel_pass_values.
  - intros offset_x offset_y channel_index w Hwf Hci Hy Hx.
    destruct (channel_offset_in_range w offset_x offset_y channel_index Hwf Hci Hy Hx)
      as (out' & Hrun & _ & Hmoved & Hkept).
    exists out'. split; [exact Hrun|]. split; [exact Hmoved | exact Hkept].
Qed.

Lemma source_never_mutated_witness :
  exists wk out_right out_left,
    repeat_rounds 2 (glitch_round_with glitch_left glitch_right 1) (docstring_world 1)
    = Return tt wk /\
    glitch_right 1 wk = Return tt (set_outputarr out_right (drawn (drawn wk))) /\
    glitch_left 1 wk = Return tt (set_outputarr out_left (drawn (drawn wk))) /\
    forall (r : nat) (src : list Z),
      in_band wk r = true -> docstring_rows !! r = Some src ->
      rows out_right !! r = Some (rotate_right 4 1 src) /\
      rows out_left !! r = Some (rotate_left 1 src).
Proof.
  apply (proj1 (proj2 (proj2 (proj2 (proj2 (proj2 (proj2 source_never_mutated))))))
           Z 2%nat 1 1 (docstring_world 1)).
  - evaluate_shape.
  - cbn. lia.
  - cbn. lia.
  - cbn. lia.
Defined.
